(** * Zotero Agent Bridge: the export pipeline, embedded in Rocq

  A shallow embedding of the read-model extraction and export pipeline of
  the extension: the naming engine ([src/export/naming.ts]), the document
  renderer ([src/export/markdown.ts]), the row mapper and aggregate loader
  ([src/zotero/queries.ts]) and the export orchestrator
  ([src/export/exporter.ts]).

  JavaScript strings are sequences of UTF-16 code units; they are modelled
  as lists of code units ([N]), so that [length], [slice] and the regular
  expressions of the source (which run without the [u] flag) act on the
  same units as in the program. *)

From Stdlib Require Import NArith ZArith Ascii String List Bool Lia DecimalZ.
From stdpp Require Import base option list sorting gmap.

Open Scope N_scope.

(** ** JavaScript strings *)

Abbreviation jsstring := (list N).

(** The code units of an ASCII literal. *)
Definition js (s : string) : jsstring :=
  List.map N_of_ascii (list_ascii_of_string s).

(** The line feed of ['\n']. *)
Definition LF : string := String (ascii_of_N 10) EmptyString.

Module Char.

Definition between (lo hi c : N) : bool := (lo <=? c) && (c <=? hi).

Definition isLower (c : N) : bool := between 97 122 c.
Definition isUpper (c : N) : bool := between 65 90 c.
Definition isDigit (c : N) : bool := between 48 57 c.
Definition isAlnum (c : N) : bool := isLower c || isUpper c || isDigit c.

Definition dot : N := 46.
Definition hyphen : N := 45.
Definition underscore : N := 95.
Definition slash : N := 47.
Definition backslash : N := 92.
Definition colon : N := 58.

(** The class [\s] of a regular expression without the [u] flag, which is
    also the set that [String.prototype.trim] removes: WhiteSpace and
    LineTerminator of the ECMAScript grammar. *)
Definition isSpace (c : N) : bool :=
  between 9 13 c || (c =? 32) || (c =? 160) || (c =? 5760)
  || between 8192 8202 c || (c =? 8232) || (c =? 8233) || (c =? 8239)
  || (c =? 8287) || (c =? 12288) || (c =? 65279).

Definition isHyphen (c : N) : bool := c =? hyphen.
Definition isDot (c : N) : bool := c =? dot.
(** [[-.]] *)
Definition isHyphenOrDot (c : N) : bool := isHyphen c || isDot c.
(** [[a-zA-Z0-9._\-\s]], the class kept by [sanitizeSegment]. *)
Definition isSegmentChar (c : N) : bool :=
  isAlnum c || isDot c || (c =? underscore) || isHyphen c || isSpace c.
(** [[A-Za-z0-9._-]]: the segment class without white space. *)
Definition isSlugChar (c : N) : bool :=
  isAlnum c || isDot c || (c =? underscore) || isHyphen c.
(** [[a-zA-Z0-9.]], the class kept in a file extension. *)
Definition isExtChar (c : N) : bool := isAlnum c || isDot c.
(** [[/\\]] *)
Definition isSeparator (c : N) : bool := (c =? slash) || (c =? backslash).

(** ASCII lower-casing, which is what SQLite's [LOWER] does. *)
Definition toLower (c : N) : N := if isUpper c then c + 32 else c.

End Char.

Module Str.

(** [s.startsWith(p)] *)
Fixpoint startsWith (p s : jsstring) : bool :=
  match p, s with
  | [], _ => true
  | _ :: _, [] => false
  | a :: p', b :: s' => (a =? b) && startsWith p' s'
  end.

(** [s.endsWith(p)] *)
Definition endsWith (p s : jsstring) : bool := startsWith (rev p) (rev s).

(** [s.includes(p)] *)
Fixpoint includes (p s : jsstring) : bool :=
  startsWith p s ||
  match s with
  | [] => false
  | _ :: s' => includes p s'
  end.

(** [s.toLowerCase()] as far as ASCII goes: the letters [A-Z] are
    lower-cased, every other code unit is kept. The function of the runtime
    does this on ASCII strings; where it matters what it does beyond them,
    the runtime's function is a parameter. *)
Definition toLowerCaseAscii (s : jsstring) : jsstring := List.map Char.toLower s.

(** The longest suffix that does not start with a [p]-character. *)
Fixpoint dropWhile (p : N -> bool) (s : jsstring) : jsstring :=
  match s with
  | [] => []
  | c :: s' => if p c then dropWhile p s' else s
  end.

Definition dropWhileEnd (p : N -> bool) (s : jsstring) : jsstring :=
  rev (dropWhile p (rev s)).

(** [s.replace(/^[p]+|[p]+$/g, '')]: the leading run is the only match of
    the first alternative, the run that reaches the end of the string the
    only match of the second one. *)
Definition stripEnds (p : N -> bool) (s : jsstring) : jsstring :=
  dropWhileEnd p (dropWhile p s).

(** [s.trim()] *)
Definition trim (s : jsstring) : jsstring := stripEnds Char.isSpace s.

(** [s.replace(/[p]+/g, r)]: each maximal run of [p]-characters becomes
    one [r]; the replacement is emitted at the last character of a run. *)
Fixpoint replaceRuns (p : N -> bool) (r : N) (s : jsstring) : jsstring :=
  match s with
  | [] => []
  | c :: s' =>
      if p c then
        match s' with
        | c' :: _ => if p c' then replaceRuns p r s' else r :: replaceRuns p r s'
        | [] => [r]
        end
      else c :: replaceRuns p r s'
  end.

(** [needle] occurs in [s] as a substring. *)
Definition occursIn (needle s : jsstring) : Prop :=
  exists pre post, s = pre ++ needle ++ post.

(** [a || b] on strings: the empty string is falsy. *)
Definition orElse (a b : jsstring) : jsstring :=
  match a with [] => b | _ => a end.

(** [s.split(/[p]/)]: the pieces between separator characters; never
    empty, the last piece is what follows the last separator. *)
Fixpoint split (p : N -> bool) (s : jsstring) : list jsstring :=
  match s with
  | [] => [[]]
  | c :: s' =>
      if p c then [] :: split p s'
      else
        match split p s' with
        | piece :: rest => (c :: piece) :: rest
        | [] => [[c]]
        end
  end.

End Str.

(** ** The [path] module of the runtime, POSIX flavour

    [path.join], [path.parse], [path.dirname], [path.basename] and
    [path.isAbsolute] belong to Node.js, not to the repository; they are
    modelled as Node implements them on a POSIX host. *)

Module Path.

Definition isSlash (c : N) : bool := c =? Char.slash.

(** [path.isAbsolute(p)] *)
Definition isAbsolute (p : jsstring) : bool :=
  match p with
  | c :: _ => isSlash c
  | [] => false
  end.

(** Splits at the last [p]-character: what precedes it (when there is one)
    and what follows it. *)
Fixpoint splitLast (p : N -> bool) (s : jsstring) : option jsstring * jsstring :=
  match s with
  | [] => (None, [])
  | c :: s' =>
      match splitLast p s' with
      | (Some d, b) => (Some (c :: d), b)
      | (None, b) => if p c then (Some [], b) else (None, c :: b)
      end
  end.

(** One step of [normalizeString]: [stack] holds the segments kept so far,
    the last one first. *)
Definition pushSegment (allowAboveRoot : bool) (stack : list jsstring)
    (seg : jsstring) : list jsstring :=
  if bool_decide (seg = []) || bool_decide (seg = js ".") then stack
  else if bool_decide (seg = js "..") then
    match stack with
    | top :: rest =>
        if bool_decide (top = js "..") then
          (if allowAboveRoot then seg :: stack else stack)
        else rest
    | [] => if allowAboveRoot then [seg] else []
    end
  else seg :: stack.

Fixpoint intercalate (sep : jsstring) (l : list jsstring) : jsstring :=
  match l with
  | [] => []
  | [x] => x
  | x :: l' => x ++ sep ++ intercalate sep l'
  end.

Definition normalizeString (p : jsstring) (allowAboveRoot : bool) : jsstring :=
  intercalate (js "/")
    (rev (fold_left (pushSegment allowAboveRoot) (Str.split isSlash p) [])).

(** [path.normalize(p)] *)
Definition normalize (p : jsstring) : jsstring :=
  match p with
  | [] => js "."
  | _ =>
      let absolute := isAbsolute p in
      let trailingSeparator := Str.endsWith (js "/") p in
      let body := normalizeString p (negb absolute) in
      match body with
      | [] => if absolute then js "/" else if trailingSeparator then js "./" else js "."
      | _ =>
          (if absolute then js "/" else []) ++ body
          ++ (if trailingSeparator then js "/" else [])
      end
  end.

(** [path.join(...args)] *)
Definition join (args : list jsstring) : jsstring :=
  match List.filter (fun a => negb (bool_decide (a = []))) args with
  | [] => js "."
  | parts => normalize (intercalate (js "/") parts)
  end.

(** [path.basename(p)] *)
Definition basename (p : jsstring) : jsstring :=
  snd (splitLast isSlash (Str.dropWhileEnd isSlash p)).

(** [path.dirname(p)] *)
Definition dirname (p : jsstring) : jsstring :=
  match p with
  | [] => js "."
  | c :: rest =>
      match splitLast isSlash (Str.dropWhileEnd isSlash rest) with
      | (Some d, _) => if isSlash c && bool_decide (d = []) then js "//" else c :: d
      | (None, _) => if isSlash c then js "/" else js "."
      end
  end.

Record Parsed := {
  root : jsstring;
  dir : jsstring;
  base : jsstring;
  ext : jsstring;
  name : jsstring
}.

(** The split of a base name into name and extension: the extension starts
    at the last dot, unless there is none, the dot is the first character
    of the base name, or the base name is [..] ([atRoot] tells a base name
    that follows the root directly, for which Node misses that last case). *)
Definition splitExt (atRoot : bool) (b : jsstring) : jsstring * jsstring :=
  match splitLast Char.isDot b with
  | (None, _) => (b, [])
  | (Some [], _) => (b, [])
  | (Some pre, post) =>
      if bool_decide (b = js "..") && negb atRoot then (b, [])
      else (pre, Char.dot :: post)
  end.

(** [path.parse(p)] *)
Definition parse (p : jsstring) : Parsed :=
  match p with
  | [] => {| root := []; dir := []; base := []; ext := []; name := [] |}
  | c :: rest =>
      let absolute := isSlash c in
      let rootPart := if absolute then js "/" else [] in
      let body := Str.dropWhileEnd isSlash (if absolute then rest else p) in
      match body with
      | [] => {| root := rootPart; dir := rootPart; base := []; ext := []; name := [] |}
      | _ =>
          let '(d, b) := splitLast isSlash body in
          let '(n, e) := splitExt (absolute && bool_decide (d = None)) b in
          {| root := rootPart;
             dir := match d with Some d' => rootPart ++ d' | None => rootPart end;
             base := b; ext := e; name := n |}
      end
  end.

(** A plain file name: not empty, without a slash, and neither [.] nor
    [..]. *)
Definition plainName (b : jsstring) : Prop :=
  b <> [] /\ Forall (fun c => isSlash c = false) b
  /\ b <> js "." /\ b <> js "..".

End Path.

(** ** Shared types ([src/types.ts]) *)

Inductive LayoutMode := ItemFolder | Flat | YearItem.

Inductive ConflictDecision := Overwrite | Skip | Cancel.

(** ** Naming engine ([src/export/naming.ts]) *)

Module Naming.

Definition MAX_SLUG_LENGTH : nat := 80.

Section WithNormalizer.

(** [String.prototype.normalize('NFKD')] belongs to the JavaScript runtime;
    the naming functions are defined for any such function. *)
Variable normalizeNFKD : jsstring -> jsstring.

Definition sanitizeSegment (input : jsstring) : jsstring :=
  let s1 := normalizeNFKD input in
  let s2 := List.filter Char.isSegmentChar s1 in
  let s3 := Str.trim s2 in
  let s4 := Str.replaceRuns Char.isSpace Char.hyphen s3 in
  let s5 := Str.replaceRuns Char.isHyphen Char.hyphen s4 in
  let s6 := Str.stripEnds Char.isHyphenOrDot s5 in
  take MAX_SLUG_LENGTH s6.

(** [buildItemSlug] reads the [key] and the [title] of its argument. *)
Definition buildItemSlug (key title : jsstring) : jsstring :=
  let titlePart := Str.orElse (sanitizeSegment title) (js "untitled") in
  take (MAX_SLUG_LENGTH + length key + 1) (key ++ js "-" ++ titlePart).

Definition sanitizeFilename (filename : jsstring) : jsstring :=
  let parsed := Path.parse filename in
  let name := Str.orElse (sanitizeSegment (Path.name parsed)) (js "attachment") in
  let ext := List.filter Char.isExtChar (Path.ext parsed) in
  name ++ ext.

Record ItemOutputPaths := {
  itemFolder : option jsstring;
  markdownPath : jsstring;
  flatPrefix : option jsstring
}.

Definition resolveItemOutputPaths (outputRoot : jsstring) (layoutMode : LayoutMode)
    (slug : jsstring) (year : option jsstring) : ItemOutputPaths :=
  match layoutMode with
  | Flat =>
      {| itemFolder := None;
         markdownPath := Path.join [outputRoot; slug ++ js ".md"];
         flatPrefix := Some (slug ++ js "__") |}
  | YearItem =>
      let yearFolder :=
        Str.orElse (sanitizeSegment (Str.orElse (default [] year) (js "unknown-year")))
                   (js "unknown-year") in
      let folder := Path.join [outputRoot; yearFolder; slug] in
      {| itemFolder := Some folder;
         markdownPath := Path.join [folder; js "item.md"];
         flatPrefix := None |}
  | ItemFolder =>
      let folder := Path.join [outputRoot; slug] in
      {| itemFolder := Some folder;
         markdownPath := Path.join [folder; js "item.md"];
         flatPrefix := None |}
  end.

End WithNormalizer.

End Naming.


Open Scope Z_scope.

(** ** Domain records ([src/types.ts])

    Optional properties ([title?: string]) are [option]s; numbers are
    integers. *)

Record ZoteroCreator := {
  cr_firstName : option jsstring;
  cr_lastName : option jsstring;
  cr_name : option jsstring;
  cr_creatorType : option jsstring;
  cr_orderIndex : Z;
  cr_displayName : jsstring
}.

Record ZoteroAttachment := {
  att_itemId : Z;
  att_key : jsstring;
  att_title : option jsstring;
  att_contentType : option jsstring;
  att_linkMode : option Z;
  att_path : option jsstring;
  att_filename : option jsstring;
  att_isPdf : bool
}.

Record ZoteroAnnotation := {
  ann_itemId : Z;
  ann_parentItemId : Z;
  ann_type : option jsstring;
  ann_text : option jsstring;
  ann_comment : option jsstring;
  ann_color : option jsstring;
  ann_pageLabel : option jsstring;
  ann_sortIndex : option jsstring;
  ann_position : option jsstring
}.

Record ZoteroNote := {
  note_itemId : Z;
  note_parentItemId : Z;
  note_title : option jsstring;
  note_noteHtml : jsstring;
  note_noteMarkdown : option jsstring
}.

Record ZoteroItemSummary := {
  sum_itemId : Z;
  sum_key : jsstring;
  sum_libraryId : Z;
  sum_libraryName : jsstring;
  sum_itemType : jsstring;
  sum_title : jsstring;
  sum_creatorsText : jsstring;
  sum_date : option jsstring;
  sum_year : option jsstring;
  sum_dateAdded : option jsstring;
  sum_dateModified : option jsstring;
  sum_doi : option jsstring;
  sum_tagsText : option jsstring;
  sum_pdfCount : Z;
  sum_hasPdf : bool;
  sum_noteCount : Z
}.

Record ZoteroItem := {
  itemId : Z;
  key : jsstring;
  libraryId : Z;
  libraryName : jsstring;
  itemType : jsstring;
  title : jsstring;
  creators : list ZoteroCreator;
  year : option jsstring;
  date : option jsstring;
  publicationTitle : option jsstring;
  volume : option jsstring;
  issue : option jsstring;
  pages : option jsstring;
  publisher : option jsstring;
  place : option jsstring;
  language : option jsstring;
  doi : option jsstring;
  url : option jsstring;
  tags : list jsstring;
  collections : list jsstring;
  abstract : option jsstring;
  dateAdded : option jsstring;
  dateModified : option jsstring;
  extra : option jsstring;
  attachments : list ZoteroAttachment;
  notes : list ZoteroNote;
  annotations : list ZoteroAnnotation
}.

Record ExportResult := {
  exported : Z;
  skipped : Z;
  failed : Z;
  cancelled : bool;
  warnings : list jsstring
}.

(** A value used as a condition: [undefined] and the empty string are
    falsy. *)
Definition truthy (v : option jsstring) : bool :=
  match v with
  | Some (_ :: _) => true
  | _ => false
  end.

(** The digits of a number in a template literal. *)
Fixpoint digits (d : Decimal.uint) : jsstring :=
  match d with
  | Decimal.Nil => []
  | Decimal.D0 d' => 48%N :: digits d'
  | Decimal.D1 d' => 49%N :: digits d'
  | Decimal.D2 d' => 50%N :: digits d'
  | Decimal.D3 d' => 51%N :: digits d'
  | Decimal.D4 d' => 52%N :: digits d'
  | Decimal.D5 d' => 53%N :: digits d'
  | Decimal.D6 d' => 54%N :: digits d'
  | Decimal.D7 d' => 55%N :: digits d'
  | Decimal.D8 d' => 56%N :: digits d'
  | Decimal.D9 d' => 57%N :: digits d'
  end.

Definition decimal (n : Z) : jsstring :=
  match Z.to_int n with
  | Decimal.Pos d => digits d
  | Decimal.Neg d => Char.hyphen :: digits d
  end.

(** ** Document renderer ([src/export/markdown.ts]) *)

Module Markdown.

(** [parts.join('\n')] *)
Definition joinLines (parts : list jsstring) : jsstring :=
  Path.intercalate (js LF) parts.

(** [v && v.trim().length > 0] *)
Definition nonBlank (v : option jsstring) : bool :=
  truthy v && negb (bool_decide (Str.trim (default [] v) = [])).

(** The lines pushed for the highlight at position [index]. *)
Definition highlightLines (index : nat) (highlight : ZoteroAnnotation) : list jsstring :=
  [js "### Highlight " ++ decimal (Z.of_nat index + 1)]
  ++ (if truthy (ann_pageLabel highlight)
      then [js "- Page: " ++ default [] (ann_pageLabel highlight)] else [])
  ++ (if truthy (ann_color highlight)
      then [js "- Color: " ++ default [] (ann_color highlight)] else [])
  ++ (if nonBlank (ann_text highlight)
      then [js "> " ++ Str.trim (default [] (ann_text highlight))] else [])
  ++ (if nonBlank (ann_comment highlight)
      then [js "Comment: " ++ Str.trim (default [] (ann_comment highlight))] else [])
  ++ [[]].

Definition renderHighlights (highlights : list ZoteroAnnotation) : jsstring :=
  match highlights with
  | [] => js "None" ++ js LF
  | _ =>
      let parts := List.concat (imap highlightLines highlights) in
      Str.trim (joinLines parts) ++ js LF
  end.

(** The lines pushed for the note at position [index]. *)
Definition noteLines (index : nat) (note : ZoteroNote) : list jsstring :=
  [js "### Note " ++ decimal (Z.of_nat index + 1)]
  ++ (if nonBlank (note_title note)
      then [js "Title: " ++ Str.trim (default [] (note_title note)); []] else [])
  ++ (let markdown := Str.trim (default [] (note_noteMarkdown note)) in
      [Str.orElse markdown (js "Empty note content.")])
  ++ [[]].

Definition renderNotes (notes : list ZoteroNote) : jsstring :=
  match notes with
  | [] => js "None" ++ js LF
  | _ =>
      let parts := List.concat (imap noteLines notes) in
      Str.trim (joinLines parts) ++ js LF
  end.

(** The object handed to [yaml.dump]. *)
Record Frontmatter := {
  zotero_key : jsstring;
  item_id : Z;
  library_id : Z;
  library_name : jsstring;
  item_type : jsstring;
  fm_title : jsstring;
  fm_creators : list jsstring;
  fm_year : option jsstring;
  fm_date : option jsstring;
  publication_title : option jsstring;
  fm_volume : option jsstring;
  fm_issue : option jsstring;
  fm_pages : option jsstring;
  fm_publisher : option jsstring;
  fm_place : option jsstring;
  fm_language : option jsstring;
  fm_doi : option jsstring;
  fm_url : option jsstring;
  fm_tags : list jsstring;
  fm_collections : list jsstring;
  fm_abstract : option jsstring;
  date_added : option jsstring;
  date_modified : option jsstring;
  fm_extra : option jsstring;
  fm_attachments : list jsstring;
  exported_at : jsstring
}.

Section WithLibraries.

(** The [Date] objects of the runtime and the [js-yaml] serializer. *)
Variable Date : Type.
Variable toISOString : Date -> jsstring.
Variable yamlDump : Frontmatter -> jsstring.

Record MarkdownPayload := {
  item : ZoteroItem;
  selectedAttachments : list ZoteroAttachment;
  exportedAttachmentFilenames : list jsstring;
  highlights : list ZoteroAnnotation;
  notes : list ZoteroNote;
  exportedAt : Date
}.

Definition frontmatterOf (payload : MarkdownPayload) : Frontmatter :=
  let it := item payload in
  {| zotero_key := key it;
     item_id := itemId it;
     library_id := libraryId it;
     library_name := libraryName it;
     item_type := itemType it;
     fm_title := title it;
     fm_creators := List.map cr_displayName (creators it);
     fm_year := year it;
     fm_date := date it;
     publication_title := publicationTitle it;
     fm_volume := volume it;
     fm_issue := issue it;
     fm_pages := pages it;
     fm_publisher := publisher it;
     fm_place := place it;
     fm_language := language it;
     fm_doi := doi it;
     fm_url := url it;
     fm_tags := tags it;
     fm_collections := collections it;
     fm_abstract := abstract it;
     date_added := dateAdded it;
     date_modified := dateModified it;
     fm_extra := extra it;
     fm_attachments := exportedAttachmentFilenames payload;
     exported_at := toISOString (exportedAt payload) |}.

Definition buildMarkdown (payload : MarkdownPayload) : jsstring :=
  let yamlContent := yamlDump (frontmatterOf payload) in
  let heading := Str.orElse (title (item payload)) (js "Untitled") in
  js "---" ++ js LF ++ yamlContent ++ js "---" ++ js LF ++ js LF
  ++ js "# " ++ heading ++ js LF ++ js LF
  ++ js "## Highlights" ++ js LF ++ js LF
  ++ renderHighlights (highlights payload)
  ++ js LF ++ js "## Notes" ++ js LF ++ js LF
  ++ renderNotes (notes payload).

End WithLibraries.

End Markdown.

(** ** The Zotero database

    The tables of [zotero.sqlite] that the queries read, as lists of rows;
    a column that may hold [NULL] is an [option]. No key constraint is
    assumed: a query over these lists behaves as the SQL text does on a
    table without its constraints. *)

Module Tables.

Record ItemRow := {
  i_itemID : Z;
  i_itemTypeID : Z;
  i_libraryID : Z;
  i_key : jsstring;
  i_dateAdded : option jsstring;
  i_dateModified : option jsstring
}.

Record ItemTypeRow := { ity_itemTypeID : Z; ity_typeName : jsstring }.

Record LibraryRow := { l_libraryID : Z; l_type : jsstring }.

Record GroupRow := { g_libraryID : Z; g_name : jsstring }.

Record FieldRow := { f_fieldID : Z; f_fieldName : jsstring }.

Record ItemDataValueRow := { v_valueID : Z; v_value : jsstring }.

Record ItemDataRow := { id_itemID : Z; id_fieldID : Z; id_valueID : Z }.

Record CreatorRow := {
  c_creatorID : Z;
  c_firstName : option jsstring;
  c_lastName : option jsstring;
  c_fieldMode : option Z
}.

Record CreatorTypeRow := { ct_creatorTypeID : Z; ct_creatorType : jsstring }.

Record ItemCreatorRow := {
  ic_itemID : Z;
  ic_creatorID : Z;
  ic_creatorTypeID : Z;
  ic_orderIndex : Z
}.

Record TagRow := { t_tagID : Z; t_name : jsstring }.

Record ItemTagRow := { itg_itemID : Z; itg_tagID : Z }.

Record CollectionRow := {
  col_collectionID : Z;
  col_key : jsstring;
  col_libraryID : Z;
  col_collectionName : jsstring;
  col_parentCollectionID : option Z
}.

Record CollectionItemRow := { ci_collectionID : Z; ci_itemID : Z }.

Record ItemAttachmentRow := {
  ia_itemID : Z;
  ia_parentItemID : option Z;
  ia_contentType : option jsstring;
  ia_linkMode : option Z;
  ia_path : option jsstring
}.

Record ItemNoteRow := {
  n_itemID : Z;
  n_parentItemID : option Z;
  n_title : option jsstring;
  n_note : option jsstring
}.

Record ItemAnnotationRow := {
  an_itemID : Z;
  an_parentItemID : option Z;
  an_type : option jsstring;
  an_text : option jsstring;
  an_comment : option jsstring;
  an_color : option jsstring;
  an_pageLabel : option jsstring;
  an_sortIndex : option jsstring;
  an_position : option jsstring
}.

End Tables.

Module Db.

Import Tables.

Record Database := {
  items : list ItemRow;
  itemTypes : list ItemTypeRow;
  libraries : list LibraryRow;
  groups : list GroupRow;
  fields : list FieldRow;
  itemDataValues : list ItemDataValueRow;
  itemData : list ItemDataRow;
  creators : list CreatorRow;
  creatorTypes : list CreatorTypeRow;
  itemCreators : list ItemCreatorRow;
  tags : list TagRow;
  itemTags : list ItemTagRow;
  collections : list CollectionRow;
  collectionItems : list CollectionItemRow;
  itemAttachments : list ItemAttachmentRow;
  itemNotes : list ItemNoteRow;
  itemAnnotations : list ItemAnnotationRow
}.

End Db.

(** ** SQL operators used by the queries *)

Module Sql.

(** [x = y] on a nullable and a non-null integer column. *)
Definition eqNull (x : option Z) (y : Z) : bool :=
  match x with
  | Some v => v =? y
  | None => false
  end.

(** [x IN (ids)] *)
Definition inList (x : Z) (ids : list Z) : bool := existsb (Z.eqb x) ids.

Definition inListNull (x : option Z) (ids : list Z) : bool :=
  match x with
  | Some v => inList v ids
  | None => false
  end.

(** [l LEFT JOIN r ON ...]: each matching row of [r], or one [NULL] row. *)
Definition leftJoin {B : Type} (matches : B -> bool) (r : list B) : list (option B) :=
  match List.filter matches r with
  | [] => [None]
  | ms => List.map Some ms
  end.

(** Text comparison under the [BINARY] collation, taken on code units. *)
Fixpoint textLeb (a b : jsstring) : bool :=
  match a, b with
  | [], _ => true
  | _ :: _, [] => false
  | x :: a', y :: b' => (x <? y)%N || ((x =? y)%N && textLeb a' b')
  end.

(** A [NULL] sorts before every text. *)
Definition textNullLeb (a b : option jsstring) : bool :=
  match a, b with
  | None, _ => true
  | Some _, None => false
  | Some x, Some y => textLeb x y
  end.

(** [ORDER BY] with the order [leb]. *)
Definition orderBy {A : Type} (leb : A -> A -> bool) (l : list A) : list A :=
  merge_sort (fun a b => Is_true (leb a b)) l.

(** [MAX] over text values; [NULL] when there is none. *)
Definition textMax (l : list jsstring) : option jsstring :=
  fold_left (fun acc v =>
               match acc with
               | None => Some v
               | Some m => if textLeb m v then Some v else Some m
               end) l None.

(** [GROUP_CONCAT(x, '; ')]; [NULL] over an empty group. *)
Definition groupConcat (l : list jsstring) : option jsstring :=
  match l with
  | [] => None
  | _ => Some (Path.intercalate (js "; ") l)
  end.

(** SQLite's [TRIM(x)] removes spaces. *)
Definition sqlTrim (s : jsstring) : jsstring := Str.stripEnds (fun c => (c =? 32)%N) s.

(** SQLite's [LOWER(x)] *)
Definition sqlLower (s : jsstring) : jsstring := List.map Char.toLower s.

(** [s LIKE pat]: [%] stands for any sequence, [_] for one character;
    ASCII letters match in either case. *)
Fixpoint like (pat s : jsstring) : bool :=
  match pat with
  | [] => bool_decide (s = [])
  | c :: pat' =>
      if (c =? 37)%N then
        (fix anywhere (t : jsstring) : bool :=
           like pat' t || match t with [] => false | _ :: t' => anywhere t' end) s
      else
        match s with
        | [] => false
        | d :: s' =>
            ((c =? 95)%N || (Char.toLower c =? Char.toLower d)%N) && like pat' s'
        end
  end.

End Sql.

(** ** Errors

    A thrown [Error] is represented by its message. *)

Inductive Outcome (A : Type) :=
| Ok (a : A)
| Throw (message : jsstring).

Arguments Ok {A} a.
Arguments Throw {A} message.

(** ** Row mapper and aggregate loader ([src/zotero/queries.ts]) *)

Module Queries.

Import Tables Sql.

Abbreviation Database := Db.Database.

Record BaseItemRow := {
  r_itemID : Z;
  r_key : jsstring;
  r_libraryID : Z;
  r_libraryName : option jsstring;
  r_itemType : jsstring;
  r_title : option jsstring;
  r_creatorsText : option jsstring;
  r_date : option jsstring;
  r_dateAdded : option jsstring;
  r_dateModified : option jsstring;
  r_doi : option jsstring;
  r_tagsText : option jsstring;
  r_pdfCount : option Z;
  r_noteCount : option Z
}.

(** The first match of [/(\d{4})/]. *)
Fixpoint matchFourDigits (s : jsstring) : option jsstring :=
  match s with
  | [] => None
  | a :: s' =>
      match s' with
      | b :: c :: d :: _ =>
          if Char.isDigit a && Char.isDigit b && Char.isDigit c && Char.isDigit d
          then Some [a; b; c; d]
          else matchFourDigits s'
      | _ => None
      end
  end.

Definition extractYear (dateValue : option jsstring) : option jsstring :=
  if truthy dateValue then matchFourDigits (default [] dateValue) else None.

Definition creatorDisplayName (name firstName lastName : option jsstring) : jsstring :=
  if Markdown.nonBlank name then Str.trim (default [] name)
  else
    let parts :=
      List.filter (fun part => negb (bool_decide (part = [])))
        (omap (fmap Str.trim) [lastName; firstName]) in
    Path.intercalate (js ", ") parts.

Definition mapSummary (row : BaseItemRow) : ZoteroItemSummary :=
  let pdfCount := default 0 (r_pdfCount row) in
  let noteCount := default 0 (r_noteCount row) in
  {| sum_itemId := r_itemID row;
     sum_key := r_key row;
     sum_libraryId := r_libraryID row;
     sum_libraryName :=
       default (js "Library " ++ decimal (r_libraryID row)) (r_libraryName row);
     sum_itemType := r_itemType row;
     sum_title := Str.orElse (Str.trim (default [] (r_title row))) (js "Untitled");
     sum_creatorsText := Str.trim (default [] (r_creatorsText row));
     sum_date := r_date row;
     sum_year := extractYear (r_date row);
     sum_dateAdded := r_dateAdded row;
     sum_dateModified := r_dateModified row;
     sum_doi := r_doi row;
     sum_tagsText := r_tagsText row;
     sum_pdfCount := pdfCount;
     sum_hasPdf := 0 <? pdfCount;
     sum_noteCount := noteCount |}.

(** *** The common table expressions of [baseItemSummariesSql] *)

(** [itemData JOIN fields JOIN itemDataValues]: item, field name, value. *)
Definition fieldRows (db : Database) : list (Z * jsstring * jsstring) :=
  d ← Db.itemData db;
  f ← List.filter (fun f => f_fieldID f =? id_fieldID d) (Db.fields db);
  v ← List.filter (fun v => v_valueID v =? id_valueID d) (Db.itemDataValues db);
  [(id_itemID d, f_fieldName f, v_value v)].

(** [MAX(CASE WHEN f.fieldName = name THEN v.value END)] over the group of
    [itemID]. *)
Definition fieldValue (db : Database) (fieldName : jsstring) (itemID : Z) : option jsstring :=
  textMax
    (List.map snd
       (List.filter (fun r => (r.1.1 =? itemID) && bool_decide (r.1.2 = fieldName))
          (fieldRows db))).

(** [creator_values]: the creators text of an item, [NULL] without rows. *)
Definition creatorText (c : CreatorRow) : jsstring :=
  sqlTrim (default [] (c_lastName c)
           ++ (if truthy (c_firstName c) then js ", " ++ default [] (c_firstName c) else [])).

Definition creator_values (db : Database) (itemID : Z) : option jsstring :=
  groupConcat
    (ic ← List.filter (fun ic => ic_itemID ic =? itemID) (Db.itemCreators db);
     c ← List.filter (fun c => c_creatorID c =? ic_creatorID ic) (Db.creators db);
     [creatorText c]).

(** [tag_values] *)
Definition tag_values (db : Database) (itemID : Z) : option jsstring :=
  groupConcat
    (it ← List.filter (fun it => itg_itemID it =? itemID) (Db.itemTags db);
     t ← List.filter (fun t => t_tagID t =? itg_tagID it) (Db.tags db);
     [t_name t]).

(** The [CASE] of [attachment_values]: content type like [%pdf%] or path
    like [%.pdf]. *)
Definition pdfCase (ia : ItemAttachmentRow) : Z :=
  if like (js "%pdf%") (sqlLower (default [] (ia_contentType ia)))
     || like (js "%.pdf") (sqlLower (default [] (ia_path ia)))
  then 1 else 0.

Definition sumZ (l : list Z) : Z := fold_left Z.add l 0.

(** [attachment_values]: one row per parent, with the [SUM] of its group;
    [NULL] (no row) for an item without child attachments. *)
Definition attachment_values (db : Database) (itemID : Z) : option Z :=
  match List.filter (fun ia => eqNull (ia_parentItemID ia) itemID) (Db.itemAttachments db) with
  | [] => None
  | grp => Some (sumZ (List.map pdfCase grp))
  end.

(** [note_targets]: root item, target item. *)
Definition note_targets (db : Database) : list (Z * Z) :=
  List.map (fun i => (i_itemID i, i_itemID i)) (Db.items db)
  ++ omap (fun ia => parent ← ia_parentItemID ia; Some (parent, ia_itemID ia))
       (Db.itemAttachments db).

(** The rows of [note_targets nt JOIN itemNotes n] in the group of
    [rootItemID]: the identifiers [n.itemID]. *)
Definition noteRows (db : Database) (rootItemID : Z) : list Z :=
  nt ← List.filter (fun nt => nt.1 =? rootItemID) (note_targets db);
  n ← List.filter (fun n => eqNull (n_parentItemID n) nt.2) (Db.itemNotes db);
  [n_itemID n].

(** [note_values]: [COUNT(DISTINCT n.itemID)] of the group, [NULL] (no
    row) for an empty group. *)
Definition note_values (db : Database) (itemID : Z) : option Z :=
  match noteRows db itemID with
  | [] => None
  | ids => Some (Z.of_nat (length (remove_dups ids)))
  end.

(** [library_names] *)
Definition libraryNameOf (g : option GroupRow) (libraryType : option jsstring)
    (libraryID : Z) : jsstring :=
  match g with
  | Some g' => g_name g'
  | None =>
      if bool_decide (libraryType = Some (js "user")) then js "My Library"
      else js "Library " ++ decimal libraryID
  end.

Definition library_names (db : Database) : list (Z * jsstring) :=
  l ← Db.libraries db;
  g ← leftJoin (fun g => g_libraryID g =? l_libraryID l) (Db.groups db);
  [(l_libraryID l, libraryNameOf g (Some (l_type l)) (l_libraryID l))].

Definition topLevelType (typeName : jsstring) : bool :=
  negb (bool_decide (typeName = js "attachment")
        || bool_decide (typeName = js "note")
        || bool_decide (typeName = js "annotation")).

(** The rows selected by [baseItemSummariesSql(idSourceSql)], before any
    [ORDER BY] or [LIMIT]; [filtered_items] holds the rows of the id
    source. *)
Definition baseItemSummaries (db : Database) (filtered_items : list Z) : list BaseItemRow :=
  i ← Db.items db;
  _ ← List.filter (fun fi => fi =? i_itemID i) filtered_items;
  it ← List.filter (fun it => (ity_itemTypeID it =? i_itemTypeID i)
                              && topLevelType (ity_typeName it)) (Db.itemTypes db);
  ln ← leftJoin (fun ln => ln.1 =? i_libraryID i) (library_names db);
  [{| r_itemID := i_itemID i;
      r_key := i_key i;
      r_libraryID := i_libraryID i;
      r_libraryName := snd <$> ln;
      r_itemType := ity_typeName it;
      r_title := fieldValue db (js "title") (i_itemID i);
      r_creatorsText := creator_values db (i_itemID i);
      r_date := fieldValue db (js "date") (i_itemID i);
      r_dateAdded := i_dateAdded i;
      r_dateModified := i_dateModified i;
      r_doi := fieldValue db (js "DOI") (i_itemID i);
      r_tagsText := tag_values db (i_itemID i);
      r_pdfCount := Some (default 0 (attachment_values db (i_itemID i)));
      r_noteCount := Some (default 0 (note_values db (i_itemID i))) |}].

(** [SELECT itemID FROM items] *)
Definition allItemIds (db : Database) : list Z := List.map i_itemID (Db.items db).

(** [SELECT itemID FROM items WHERE itemID IN (...)] *)
Definition itemIdsIn (db : Database) (itemIds : list Z) : list Z :=
  List.filter (fun i => inList i itemIds) (allItemIds db).

(** [ORDER BY b.dateModified DESC] *)
Definition byDateModifiedDesc (rows : list BaseItemRow) : list BaseItemRow :=
  orderBy (fun a b => textNullLeb (r_dateModified b) (r_dateModified a)) rows.

(** [LIMIT n]; a negative limit is no limit. *)
Definition sqlLimit {A : Type} (n : Z) (rows : list A) : list A :=
  if n <? 0 then rows else take (Z.to_nat n) rows.

Section WithRuntime.

(** [String.prototype.toLowerCase] of the runtime. *)
Variable toLowerCase : jsstring -> jsstring.

Definition searchItems (db : Database) (searchText : jsstring) (limit : Z)
    : list ZoteroItemSummary :=
  let normalized := Str.trim searchText in
  let pat := js "%" ++ toLowerCase normalized ++ js "%" in
  let hit (v : option jsstring) := like pat (sqlLower (default [] v)) in
  let rows :=
    List.filter (fun r => bool_decide (normalized = [])
                          || hit (r_title r) || hit (r_creatorsText r)
                          || hit (r_date r) || hit (r_doi r) || hit (r_tagsText r))
      (baseItemSummaries db (allItemIds db)) in
  List.map mapSummary (sqlLimit limit (byDateModifiedDesc rows)).

Definition getItemSummariesByIds (db : Database) (itemIds : list Z) (limit : Z)
    : list ZoteroItemSummary :=
  match itemIds with
  | [] => []
  | _ =>
      List.map mapSummary
        (sqlLimit limit (byDateModifiedDesc (baseItemSummaries db (itemIdsIn db itemIds))))
  end.

Definition getItemSummariesByIdsUnbounded (db : Database) (itemIds : list Z)
    : list ZoteroItemSummary :=
  match itemIds with
  | [] => []
  | _ =>
      List.map mapSummary
        (byDateModifiedDesc (baseItemSummaries db (itemIdsIn db itemIds)))
  end.

(** *** Aggregate loader *)

(** [getFieldMap]: a later value of a field that already has a non-empty
    value is appended after ["; "]. The object [map] is taken with its own
    properties only: the field names of Zotero are none of the names that
    [Object.prototype] defines. *)
Definition getFieldMap (db : Database) (itemId : Z) : gmap jsstring jsstring :=
  fold_left
    (fun (m : gmap jsstring jsstring) (row : Z * jsstring * jsstring) =>
       let fieldName := row.1.2 in
       let value := row.2 in
       if truthy (m !! fieldName)
       then <[fieldName := default [] (m !! fieldName) ++ js "; " ++ value]> m
       else <[fieldName := value]> m)
    (List.filter (fun r => r.1.1 =? itemId) (fieldRows db)) ∅.

Definition deriveAttachmentFilename (attachmentPath : option jsstring) (key : jsstring)
    : jsstring :=
  if negb (truthy attachmentPath) then key ++ js ".pdf"
  else
    let p := default [] attachmentPath in
    let withoutPrefix :=
      if Str.startsWith (js "storage:") p then drop (length (js "storage:")) p else p in
    let trimmed := Str.dropWhile Char.isSeparator withoutPrefix in
    let base := default key (last (Str.split Char.isSeparator trimmed)) in
    Str.orElse base (key ++ js ".pdf").

(** The joined rows of the creator query, before [ORDER BY]. *)
Definition creatorRows (db : Database) (itemId : Z)
    : list (ItemCreatorRow * CreatorRow * option CreatorTypeRow) :=
  ic ← List.filter (fun ic => ic_itemID ic =? itemId) (Db.itemCreators db);
  c ← List.filter (fun c => c_creatorID c =? ic_creatorID ic) (Db.creators db);
  ct ← leftJoin (fun ct => ct_creatorTypeID ct =? ic_creatorTypeID ic) (Db.creatorTypes db);
  [(ic, c, ct)].

Definition mapCreator (row : ItemCreatorRow * CreatorRow * option CreatorTypeRow)
    : ZoteroCreator :=
  let c := row.1.2 in
  let fieldMode := default 0 (c_fieldMode c) in
  let singleFieldName := if fieldMode =? 1 then c_lastName c else None in
  {| cr_firstName := c_firstName c;
     cr_lastName := c_lastName c;
     cr_name := singleFieldName;
     cr_creatorType := ct_creatorType <$> row.2;
     cr_orderIndex := ic_orderIndex row.1.1;
     cr_displayName :=
       Str.orElse (creatorDisplayName singleFieldName (c_firstName c) (c_lastName c))
         (js "Unknown Creator") |}.

Definition getCreatorsForItem (db : Database) (itemId : Z) : list ZoteroCreator :=
  List.map mapCreator
    (orderBy (fun a b => ic_orderIndex a.1.1 <=? ic_orderIndex b.1.1) (creatorRows db itemId)).

Definition getTagsForItem (db : Database) (itemId : Z) : list jsstring :=
  orderBy textLeb
    (it ← List.filter (fun it => itg_itemID it =? itemId) (Db.itemTags db);
     t ← List.filter (fun t => t_tagID t =? itg_tagID it) (Db.tags db);
     [t_name t]).

Definition getCollectionNamesForItem (db : Database) (itemId : Z) : list jsstring :=
  orderBy textLeb
    (ci ← List.filter (fun ci => ci_itemID ci =? itemId) (Db.collectionItems db);
     c ← List.filter (fun c => col_collectionID c =? ci_collectionID ci) (Db.collections db);
     [col_collectionName c]).

(** The mapping of one row of the attachment query. *)
Definition mapAttachment (ia : ItemAttachmentRow) (key : jsstring)
    (title : option jsstring) : ZoteroAttachment :=
  let contentType := ia_contentType ia in
  let attachmentPath := ia_path ia in
  let filename := deriveAttachmentFilename attachmentPath key in
  let isPdf :=
    match contentType with
    | Some ct => Str.includes (js "pdf") (toLowerCase ct)
    | None => false
    end
    || Str.endsWith (js ".pdf") (toLowerCase filename) in
  {| att_itemId := ia_itemID ia;
     att_key := key;
     att_title := title;
     att_contentType := contentType;
     att_linkMode := ia_linkMode ia;
     att_path := attachmentPath;
     att_filename := Some filename;
     att_isPdf := isPdf |}.

(** The joined rows of the attachment query, before [ORDER BY]. *)
Definition attachmentRows (db : Database) (itemId : Z)
    : list (ItemAttachmentRow * jsstring * option jsstring) :=
  ia ← List.filter (fun ia => eqNull (ia_parentItemID ia) itemId) (Db.itemAttachments db);
  ai ← List.filter (fun ai => i_itemID ai =? ia_itemID ia) (Db.items db);
  tf ← leftJoin (fun r => (r.1.1 =? ia_itemID ia) && bool_decide (r.1.2 = js "title"))
         (fieldRows db);
  [(ia, i_key ai, option_map snd tf)].

Definition getAttachmentsForItem (db : Database) (itemId : Z) : list ZoteroAttachment :=
  List.map (fun row => mapAttachment row.1.1 row.1.2 row.2)
    (orderBy (fun a b => ia_itemID a.1.1 <=? ia_itemID b.1.1) (attachmentRows db itemId)).

Definition mapNote (n : ItemNoteRow) : ZoteroNote :=
  {| note_itemId := n_itemID n;
     note_parentItemId := default 0 (n_parentItemID n);
     note_title := n_title n;
     note_noteHtml := default [] (n_note n);
     note_noteMarkdown := None |}.

Definition getNotesForItemAndAttachments (db : Database) (itemId : Z)
    (attachmentIds : list Z) : list ZoteroNote :=
  let parentRows :=
    orderBy (fun a b => n_itemID a <=? n_itemID b)
      (List.filter (fun n => eqNull (n_parentItemID n) itemId) (Db.itemNotes db)) in
  let attachmentRows :=
    match attachmentIds with
    | [] => []
    | _ =>
        orderBy (fun a b => n_itemID a <=? n_itemID b)
          (List.filter (fun n => inListNull (n_parentItemID n) attachmentIds) (Db.itemNotes db))
    end in
  List.map mapNote parentRows ++ List.map mapNote attachmentRows.

(** [ORDER BY parentItemID ASC, sortIndex ASC, itemID ASC] *)
Definition annotationLeb (a b : ItemAnnotationRow) : bool :=
  let pa := default 0 (an_parentItemID a) in
  let pb := default 0 (an_parentItemID b) in
  (pa <? pb)
  || ((pa =? pb)
      && (negb (textNullLeb (an_sortIndex b) (an_sortIndex a))
          || (textNullLeb (an_sortIndex a) (an_sortIndex b)
              && (an_itemID a <=? an_itemID b)))).

Definition getAnnotationsForAttachments (db : Database) (attachmentIds : list Z)
    : list ZoteroAnnotation :=
  match attachmentIds with
  | [] => []
  | _ =>
      List.map
        (fun a =>
           {| ann_itemId := an_itemID a;
              ann_parentItemId := default 0 (an_parentItemID a);
              ann_type := an_type a;
              ann_text := an_text a;
              ann_comment := an_comment a;
              ann_color := an_color a;
              ann_pageLabel := an_pageLabel a;
              ann_sortIndex := an_sortIndex a;
              ann_position := an_position a |})
        (orderBy annotationLeb
           (List.filter (fun a => inListNull (an_parentItemID a) attachmentIds)
              (Db.itemAnnotations db)))
  end.

(** The base row of [getItemExportData]: key, library, library name, type
    and the two dates of the item. *)
Definition baseRows (db : Database) (itemId : Z)
    : list (ItemRow * jsstring * jsstring) :=
  i ← List.filter (fun i => i_itemID i =? itemId) (Db.items db);
  it ← List.filter (fun it => ity_itemTypeID it =? i_itemTypeID i) (Db.itemTypes db);
  l ← leftJoin (fun l => l_libraryID l =? i_libraryID i) (Db.libraries db);
  g ← leftJoin (fun g => g_libraryID g =? i_libraryID i) (Db.groups db);
  [(i, libraryNameOf g (l_type <$> l) (i_libraryID i), ity_typeName it)].

Definition getItemExportData (db : Database) (itemId : Z) : Outcome ZoteroItem :=
  match head (baseRows db itemId) with
  | None => Throw (js "Could not load Zotero item " ++ decimal itemId ++ js ".")
  | Some base =>
      let fields := getFieldMap db itemId in
      let creators := getCreatorsForItem db itemId in
      let tags := getTagsForItem db itemId in
      let collections := getCollectionNamesForItem db itemId in
      let attachments := getAttachmentsForItem db itemId in
      let attachmentIds := List.map att_itemId attachments in
      let notes := getNotesForItemAndAttachments db itemId attachmentIds in
      let annotations := getAnnotationsForAttachments db attachmentIds in
      let date := fields !! js "date" in
      Ok {| itemId := i_itemID base.1.1;
            key := i_key base.1.1;
            libraryId := i_libraryID base.1.1;
            libraryName := base.1.2;
            itemType := base.2;
            title := default (js "Untitled") (fields !! js "title");
            creators := creators;
            year := extractYear date;
            date := date;
            publicationTitle := fields !! js "publicationTitle";
            volume := fields !! js "volume";
            issue := fields !! js "issue";
            pages := fields !! js "pages";
            publisher := fields !! js "publisher";
            place := fields !! js "place";
            language := fields !! js "language";
            doi := fields !! js "DOI";
            url := fields !! js "url";
            tags := tags;
            collections := collections;
            abstract := fields !! js "abstractNote";
            dateAdded := i_dateAdded base.1.1;
            dateModified := i_dateModified base.1.1;
            extra := fields !! js "extra";
            attachments := attachments;
            notes := notes;
            annotations := annotations |}
  end.

End WithRuntime.

End Queries.

(** ** The filesystem collaborator ([node:fs/promises])

    The calls the exporter makes, over an abstract state of the world [W].
    [access] only reads; every other call returns its outcome together with
    the world it leaves behind, also when it throws. A directory holds
    finitely many entries: [entryBound] bounds, for any prefix, the number
    of slash-free names that exist after it. *)

Module Fs.

Record Dirent := { d_name : jsstring; d_isFile : bool }.

Class FileSystem (W : Type) := {
  (** [fs.access(p)] resolves *)
  access : jsstring -> W -> bool;
  (** [fs.mkdir(p, { recursive: true })] *)
  mkdirRecursive : jsstring -> W -> Outcome unit * W;
  (** [fs.rm(p, { recursive: true, force: true })] *)
  rmRecursiveForce : jsstring -> W -> Outcome unit * W;
  (** [fs.rm(p, { force: true })] *)
  rmForce : jsstring -> W -> Outcome unit * W;
  (** [fs.readdir(p, { withFileTypes: true })] *)
  readdir : jsstring -> W -> Outcome (list Dirent) * W;
  (** [fs.copyFile(src, dest)] *)
  copyFile : jsstring -> jsstring -> W -> Outcome unit * W;
  (** [fs.writeFile(p, data, 'utf8')] *)
  writeFile : jsstring -> jsstring -> W -> Outcome unit * W;
  entryBound : W -> nat;
  entries_finite :
    forall (w : W) (prefix : jsstring) (names : list jsstring),
      NoDup names ->
      (forall n, n ∈ names -> Forall (fun c => c ≠ Char.slash) n
                              /\ access (prefix ++ n) w = true) ->
      (length names <= entryBound w)%nat
}.

End Fs.

(** ** Export orchestrator ([src/export/exporter.ts]) *)

Module Exporter.

Import Fs.

(** What the body of the [for] loop asks of the loop when it completes:
    go on with the next item ([continue], or the end of the body) or leave
    the loop ([break]). *)
Inductive LoopControl := Proceed | Break.

Section WithHost.

Context {W : Type} `{FileSystem W}.

(** The runtime and the libraries: Unicode functions of strings, [Date],
    [js-yaml], [turndown]. *)
Variable normalizeNFKD : jsstring -> jsstring.
Variable toLowerCase : jsstring -> jsstring.
Variable Date : Type.
Variable toISOString : Date -> jsstring.
Variable systemClock : W -> Date.
Variable yamlDump : Markdown.Frontmatter -> jsstring.
Variable turndown : jsstring -> jsstring.

(** [pathExists] of [naming.ts]: whether [fs.access] resolves. *)
Definition pathExists (targetPath : jsstring) (w : W) : bool := access targetPath w.

(** The candidate probed for [suffix]. *)
Definition candidate (parsed : Path.Parsed) (suffix : Z) : jsstring :=
  Path.join [Path.dir parsed;
             Path.name parsed ++ js "-" ++ decimal suffix ++ Path.ext parsed].

(** The [while (true)] loop of [makeUniqueFilePath], unrolled [fuel] times;
    the candidate reached after that is returned unprobed. *)
Fixpoint probe (w : W) (parsed : Path.Parsed) (fuel : nat) (suffix : Z) : jsstring :=
  let c := candidate parsed suffix in
  match fuel with
  | O => c
  | S fuel' => if pathExists c w then probe w parsed fuel' (suffix + 1) else c
  end.

(** The loop is unrolled once more than the world can hold entries, which
    is more often than it can find its candidate taken. *)
Definition makeUniqueFilePath (targetPath : jsstring) (w : W) : jsstring :=
  if negb (pathExists targetPath w) then targetPath
  else probe w (Path.parse targetPath) (S (entryBound w)) 2.

(** *** The state of a run *)

Record State := {
  world : W;
  result : ExportResult;
  outputChannel : list jsstring
}.

(** A step of the run: its outcome and the state it leaves, also when it
    throws. *)
Definition M (A : Type) : Type := State -> Outcome A * State.

Definition ret {A : Type} (a : A) : M A := fun st => (Ok a, st).

Definition bind {A B : Type} (m : M A) (k : A -> M B) : M B :=
  fun st =>
    match m st with
    | (Ok a, st') => k a st'
    | (Throw message, st') => (Throw message, st')
    end.

Notation "x <~ m ;; k" := (bind m (fun x => k))
  (at level 100, m at next level, right associativity).
Notation "m ;;; k" := (bind m (fun _ => k))
  (at level 100, right associativity).

(** An outcome computed without touching the state. *)
Definition liftOutcome {A : Type} (o : Outcome A) : M A := fun st => (o, st).

(** A call of the filesystem collaborator. *)
Definition liftFs {A : Type} (op : W -> Outcome A * W) : M A :=
  fun st =>
    let '(o, w') := op (world st) in
    (o, {| world := w'; result := result st; outputChannel := outputChannel st |}).

Definition readWorld {A : Type} (f : W -> A) : M A := fun st => (Ok (f (world st)), st).

(** An update of the [result] object. *)
Definition mapResult (f : ExportResult -> ExportResult) (st : State) : State :=
  {| world := world st; result := f (result st); outputChannel := outputChannel st |}.

Definition updateResult (f : ExportResult -> ExportResult) : M unit :=
  fun st => (Ok tt, mapResult f st).

(** A line appended to the output channel; the channel takes every line. *)
Definition logLine (message : jsstring) (st : State) : State :=
  {| world := world st; result := result st;
     outputChannel := outputChannel st ++ [message] |}.

(** [outputChannel.appendLine(message)] *)
Definition appendLine (message : jsstring) : M unit :=
  fun st => (Ok tt, logLine message st).

Definition pushWarning (warning : jsstring) (r : ExportResult) : ExportResult :=
  {| exported := exported r; skipped := skipped r; failed := failed r;
     cancelled := cancelled r; warnings := warnings r ++ [warning] |}.

Definition incExported (r : ExportResult) : ExportResult :=
  {| exported := exported r + 1; skipped := skipped r; failed := failed r;
     cancelled := cancelled r; warnings := warnings r |}.

Definition incSkipped (r : ExportResult) : ExportResult :=
  {| exported := exported r; skipped := skipped r + 1; failed := failed r;
     cancelled := cancelled r; warnings := warnings r |}.

Definition incFailed (r : ExportResult) : ExportResult :=
  {| exported := exported r; skipped := skipped r; failed := failed r + 1;
     cancelled := cancelled r; warnings := warnings r |}.

Definition setCancelled (r : ExportResult) : ExportResult :=
  {| exported := exported r; skipped := skipped r; failed := failed r;
     cancelled := true; warnings := warnings r |}.

Definition appendWarning (warning : jsstring) : M unit :=
  updateResult (pushWarning warning) ;;;
  appendLine (js "[warning] " ++ warning).

(** *** Helpers of the exporter *)

(** [/^[A-Za-z]:\\/] *)
Definition isDriveLetterPath (p : jsstring) : bool :=
  match p with
  | a :: b :: c :: _ =>
      (Char.isLower a || Char.isUpper a) && (b =? Char.colon)%N && (c =? Char.backslash)%N
  | _ => false
  end.

Definition resolveAttachmentSourcePath (storagePath : jsstring)
    (attachment : ZoteroAttachment) : option jsstring :=
  if negb (truthy (att_path attachment)) then None
  else
    let attachmentPath := default [] (att_path attachment) in
    if Str.startsWith (js "storage:") attachmentPath then
      let relativePart :=
        Str.dropWhile Char.isSeparator (drop (length (js "storage:")) attachmentPath) in
      let filename :=
        Str.orElse relativePart
          (Str.orElse (default [] (att_filename attachment))
             (att_key attachment ++ js ".pdf")) in
      Some (Path.join [storagePath; att_key attachment; filename])
    else if Path.isAbsolute attachmentPath then Some attachmentPath
    else if isDriveLetterPath attachmentPath then Some attachmentPath
    else None.

Definition getTargetPdfPath (markdownPath : jsstring) (layoutMode : LayoutMode)
    (flatPrefix : option jsstring) (sourceFilename : jsstring) : jsstring :=
  let sanitized := Naming.sanitizeFilename normalizeNFKD sourceFilename in
  let directory := Path.dirname markdownPath in
  match layoutMode with
  | Flat => Path.join [directory; default [] flatPrefix ++ sanitized]
  | _ => Path.join [directory; sanitized]
  end.

(** The sweep of [removeExistingTarget] over the entries of the output
    root. *)
Fixpoint removeFlatEntries (outputRoot flatPrefix : jsstring) (entries : list Dirent)
    : M unit :=
  match entries with
  | [] => ret tt
  | entry :: rest =>
      if negb (d_isFile entry) then removeFlatEntries outputRoot flatPrefix rest
      else if Str.startsWith flatPrefix (d_name entry) then
        liftFs (rmForce (Path.join [outputRoot; d_name entry])) ;;;
        removeFlatEntries outputRoot flatPrefix rest
      else removeFlatEntries outputRoot flatPrefix rest
  end.

Definition removeExistingTarget (outputRoot markdownPath : jsstring)
    (itemFolder flatPrefix : option jsstring) : M unit :=
  if truthy itemFolder then
    let folder := default [] itemFolder in
    exists_ <~ readWorld (pathExists folder) ;;
    if exists_ then liftFs (rmRecursiveForce folder) else ret tt
  else
    exists_ <~ readWorld (pathExists markdownPath) ;;
    (if exists_ then liftFs (rmForce markdownPath) else ret tt) ;;;
    if negb (truthy flatPrefix) then ret tt
    else
      rootExists <~ readWorld (pathExists outputRoot) ;;
      if negb rootExists then ret tt
      else
        entries <~ liftFs (readdir outputRoot) ;;
        removeFlatEntries outputRoot (default [] flatPrefix) entries.

Definition convertNotesToMarkdown (notes : list ZoteroNote) : list ZoteroNote :=
  List.map
    (fun note =>
       let html := note_noteHtml note in
       let markdown :=
         if negb (bool_decide (Str.trim html = [])) then turndown html else [] in
       {| note_itemId := note_itemId note;
          note_parentItemId := note_parentItemId note;
          note_title := note_title note;
          note_noteHtml := note_noteHtml note;
          note_noteMarkdown := Some markdown |})
    notes.

(** *** [exportItems] *)

Record ExportOptions := {
  outputRootPath : jsstring;
  layoutMode : LayoutMode;
  storagePath : jsstring;
  (** the decision collaborators: policies that answer, or reject with an
      error, and leave the files alone *)
  resolveConflict : jsstring -> ZoteroItem -> Outcome ConflictDecision;
  selectPdfAttachments : ZoteroItem -> list ZoteroAttachment
                         -> Outcome (list ZoteroAttachment);
  now : option Date
}.

Variable db : Db.Database.
Variable options : ExportOptions.

(** The body of [for (const attachment of selectedPdfs)]. *)
Definition copyAttachment (item : ZoteroItem) (outputPaths : Naming.ItemOutputPaths)
    (attachment : ZoteroAttachment) (copiedPdfNames : list jsstring)
    : M (list jsstring) :=
  let sourcePath := resolveAttachmentSourcePath (storagePath options) attachment in
  if negb (truthy sourcePath) then
    appendWarning
      (js "Item " ++ key item ++ js ": unsupported attachment path format for "
       ++ default (att_key attachment) (att_filename attachment)) ;;;
    ret copiedPdfNames
  else
    let source := default [] sourcePath in
    sourceExists <~ readWorld (pathExists source) ;;
    if negb sourceExists then
      appendWarning
        (js "Item " ++ key item ++ js ": attachment file not found at " ++ source) ;;;
      ret copiedPdfNames
    else
      let desiredTargetPath :=
        getTargetPdfPath (Naming.markdownPath outputPaths) (layoutMode options)
          (Naming.flatPrefix outputPaths)
          (default (att_key attachment ++ js ".pdf") (att_filename attachment)) in
      targetPath <~ readWorld (makeUniqueFilePath desiredTargetPath) ;;
      liftFs (copyFile source targetPath) ;;;
      ret (copiedPdfNames ++ [Path.basename targetPath]).

Fixpoint copyAttachments (item : ZoteroItem) (outputPaths : Naming.ItemOutputPaths)
    (selectedPdfs : list ZoteroAttachment) (copiedPdfNames : list jsstring)
    : M (list jsstring) :=
  match selectedPdfs with
  | [] => ret copiedPdfNames
  | attachment :: rest =>
      names <~ copyAttachment item outputPaths attachment copiedPdfNames ;;
      copyAttachments item outputPaths rest names
  end.

(** The part of the loop body after the conflict check. *)
Definition writeItem (item : ZoteroItem) (outputPaths : Naming.ItemOutputPaths)
    : M LoopControl :=
  liftFs (mkdirRecursive (Path.dirname (Naming.markdownPath outputPaths))) ;;;
  let pdfAttachments := List.filter att_isPdf (attachments item) in
  selectedPdfs <~
    (if (1 <? length pdfAttachments)%nat
     then liftOutcome (selectPdfAttachments options item pdfAttachments)
     else ret pdfAttachments) ;;
  let selectedPdfIds := List.map att_itemId selectedPdfs in
  copiedPdfNames <~ copyAttachments item outputPaths selectedPdfs [] ;;
  let filteredHighlights :=
    List.filter (fun annotation => Sql.inList (ann_parentItemId annotation) selectedPdfIds)
      (annotations item) in
  let filteredNotes :=
    List.filter
      (fun note => (note_parentItemId note =? itemId item)
                   || Sql.inList (note_parentItemId note) selectedPdfIds)
      (notes item) in
  let noteMarkdown := convertNotesToMarkdown filteredNotes in
  exportedAt <~ readWorld (fun w => default (systemClock w) (now options)) ;;
  let markdown :=
    Markdown.buildMarkdown Date toISOString yamlDump
      {| Markdown.item := item;
         Markdown.selectedAttachments := selectedPdfs;
         Markdown.exportedAttachmentFilenames := copiedPdfNames;
         Markdown.highlights := filteredHighlights;
         Markdown.notes := noteMarkdown;
         Markdown.exportedAt := exportedAt |} in
  liftFs (writeFile (Naming.markdownPath outputPaths) markdown) ;;;
  updateResult incExported ;;;
  appendLine (js "Exported " ++ key item ++ js " -> " ++ Naming.markdownPath outputPaths) ;;;
  ret Proceed.

(** The output paths computed for an item, and the target whose existence
    is a conflict: the item folder, or the markdown file in the flat
    layout. *)
Definition outputPathsOf (item : ZoteroItem) : Naming.ItemOutputPaths :=
  let slug := Naming.buildItemSlug normalizeNFKD (key item) (title item) in
  Naming.resolveItemOutputPaths normalizeNFKD (outputRootPath options)
    (layoutMode options) slug (year item).

Definition existingTargetOf (item : ZoteroItem) : jsstring :=
  let outputPaths := outputPathsOf item in
  default (Naming.markdownPath outputPaths) (Naming.itemFolder outputPaths).

(** The body of the [try] block for one summary. *)
Definition exportOne (summary : ZoteroItemSummary) : M LoopControl :=
  item <~ liftOutcome (Queries.getItemExportData toLowerCase db (sum_itemId summary)) ;;
  let outputPaths := outputPathsOf item in
  let existingTarget := existingTargetOf item in
  targetExists <~ readWorld (pathExists existingTarget) ;;
  if targetExists then
    decision <~ liftOutcome (resolveConflict options existingTarget item) ;;
    match decision with
    | Cancel => updateResult setCancelled ;;; ret Break
    | Skip => updateResult incSkipped ;;; ret Proceed
    | Overwrite =>
        removeExistingTarget (outputRootPath options) (Naming.markdownPath outputPaths)
          (Naming.itemFolder outputPaths) (Naming.flatPrefix outputPaths) ;;;
        writeItem item outputPaths
    end
  else writeItem item outputPaths.

(** The [catch] block. *)
Definition recordFailure (summary : ZoteroItemSummary) (message : jsstring)
    (st : State) : State :=
  logLine (js "[error] Failed exporting item " ++ sum_key summary ++ js " ("
           ++ sum_title summary ++ js "): " ++ message)
    (mapResult incFailed st).

(** The [for] loop over the summaries. *)
Fixpoint exportLoop (itemSummaries : list ZoteroItemSummary) (st : State) : State :=
  match itemSummaries with
  | [] => st
  | summary :: rest =>
      match exportOne summary st with
      | (Ok Break, st') => st'
      | (Ok Proceed, st') => exportLoop rest st'
      | (Throw message, st') => exportLoop rest (recordFailure summary message st')
      end
  end.

Definition emptyResult : ExportResult :=
  {| exported := 0; skipped := 0; failed := 0; cancelled := false; warnings := [] |}.

(** [exportItems(db, itemSummaries, options)], started in the world [w]
    with the lines already in the output channel: the result (or the error
    of the one call outside the [try]), the world and the channel it
    leaves. *)
Definition exportItems (itemSummaries : list ZoteroItemSummary) (w : W)
    (channel : list jsstring) : Outcome ExportResult * State :=
  match mkdirRecursive (outputRootPath options) w with
  | (Throw message, w') =>
      (Throw message, {| world := w'; result := emptyResult; outputChannel := channel |})
  | (Ok _, w') =>
      let st := exportLoop itemSummaries
                  {| world := w'; result := emptyResult; outputChannel := channel |} in
      (Ok (result st), st)
  end.

(** *** What a step does to the counters *)

(** The three counters and the flag of a result. *)
Definition counters (r : ExportResult) : Z * Z * Z * bool :=
  (exported r, skipped r, failed r, cancelled r).

(** A step that leaves the counters and the flag as they are, whatever its
    outcome. *)
Definition keepsCounters {A : Type} (m : M A) : Prop :=
  forall st, counters (result (m st).2) = counters (result st).

(** What the body of the loop may do to the counters: nothing when it
    throws; count the item as exported or as skipped when it asks for the
    next item; raise the flag when it leaves the loop. *)
Definition countsItem (m : M LoopControl) : Prop :=
  forall st,
    let r := result st in
    let r' := result (m st).2 in
    match (m st).1 with
    | Throw _ => counters r' = counters r
    | Ok Proceed =>
        counters r' = (exported r + 1, skipped r, failed r, cancelled r)
        \/ counters r' = (exported r, skipped r + 1, failed r, cancelled r)
    | Ok Break => counters r' = (exported r, skipped r, failed r, true)
    end.

End WithHost.

Arguments State W : clear implicits.
Arguments M W A : clear implicits.

End Exporter.

(** ** An in-memory filesystem

    A filesystem collaborator to run the exporter against: a finite map from
    path strings to nodes. Paths are compared as strings. *)

Module MemFs.

Inductive Node :=
| File (content : jsstring)
| Directory.

Abbreviation Tree := (gmap jsstring Node).

Definition isFile (t : Tree) (p : jsstring) : bool :=
  match t !! p with
  | Some (File _) => true
  | _ => false
  end.

Definition isDirectory (t : Tree) (p : jsstring) : bool :=
  match t !! p with
  | Some Directory => true
  | _ => false
  end.

(** The directories above [p], nearest first. *)
Fixpoint ancestors (fuel : nat) (p : jsstring) : list jsstring :=
  match fuel with
  | O => []
  | S fuel' =>
      let d := Path.dirname p in
      if bool_decide (d = p) then [] else d :: ancestors fuel' d
  end.

Definition access (p : jsstring) (t : Tree) : bool := bool_decide (is_Some (t !! p)).

Definition mkdirRecursive (p : jsstring) (t : Tree) : Outcome unit * Tree :=
  let chain := p :: ancestors (length p) p in
  if existsb (isFile t) chain then (Throw (js "EEXIST: file already exists"), t)
  else (Ok tt, foldr (fun q acc => <[q := Directory]> acc) t chain).

(** [q] is [p] or lies below it. *)
Definition under (p q : jsstring) : bool :=
  bool_decide (q = p) || Str.startsWith (p ++ js "/") q.

Definition rmRecursiveForce (p : jsstring) (t : Tree) : Outcome unit * Tree :=
  (Ok tt, filter (fun kv => under p kv.1 = false) t).

Definition rmForce (p : jsstring) (t : Tree) : Outcome unit * Tree :=
  if isDirectory t p then (Throw (js "ERR_FS_EISDIR: path is a directory"), t)
  else (Ok tt, delete p t).

Definition readdir (p : jsstring) (t : Tree) : Outcome (list Fs.Dirent) * Tree :=
  if isDirectory t p then
    (Ok (List.map
           (fun kv => {| Fs.d_name := Path.basename kv.1; Fs.d_isFile := isFile t kv.1 |})
           (List.filter
              (fun kv => bool_decide (Path.dirname kv.1 = p) && negb (bool_decide (kv.1 = p)))
              (map_to_list t))), t)
  else (Throw (js "ENOTDIR: not a directory"), t).

Definition writeFile (p data : jsstring) (t : Tree) : Outcome unit * Tree :=
  if isDirectory t p then (Throw (js "EISDIR: illegal operation on a directory"), t)
  else if isDirectory t (Path.dirname p) then (Ok tt, <[p := File data]> t)
  else (Throw (js "ENOENT: no such file or directory"), t).

Definition copyFile (src dest : jsstring) (t : Tree) : Outcome unit * Tree :=
  match t !! src with
  | Some (File content) => writeFile dest content t
  | _ => (Throw (js "ENOENT: no such file or directory"), t)
  end.

#[global, refine] Instance memFs : Fs.FileSystem Tree := {|
  Fs.access := access;
  Fs.mkdirRecursive := mkdirRecursive;
  Fs.rmRecursiveForce := rmRecursiveForce;
  Fs.rmForce := rmForce;
  Fs.readdir := readdir;
  Fs.copyFile := copyFile;
  Fs.writeFile := writeFile;
  Fs.entryBound := size
|}.
Proof.
  intros t prefix names Hnd Hin.
  assert (Hsub : (list_to_set (C := gset jsstring) ((prefix ++.) <$> names)) ⊆ dom t).
  { intros x Hx. apply elem_of_list_to_set, list_elem_of_fmap in Hx as (n & -> & Hn).
    destruct (Hin n Hn) as [_ Hacc]. unfold access in Hacc.
    apply bool_decide_eq_true in Hacc. by apply elem_of_dom. }
  apply subseteq_size in Hsub.
  rewrite size_list_to_set in Hsub.
  - rewrite length_fmap, size_dom in Hsub. exact Hsub.
  - apply NoDup_fmap_2; [|done]. intros a b Hab. by apply app_inv_head in Hab.
Defined.

End MemFs.

(** ** The note count in the words of the specification

    The summary's [noteCount] is specified as the number of distinct note
    identifiers whose parent is the item itself or one of its attachments. *)

Module Spec.

Import Tables.

(** The attachments of an item: the rows of [itemAttachments] whose parent
    is the item. *)
Definition attachmentIdsOf (db : Db.Database) (itemID : Z) : list Z :=
  List.map ia_itemID
    (List.filter (fun ia => bool_decide (ia_parentItemID ia = Some itemID))
       (Db.itemAttachments db)).

(** A note whose parent is the item or one of its attachments. *)
Definition noteUnder (db : Db.Database) (itemID : Z) (n : ItemNoteRow) : bool :=
  match n_parentItemID n with
  | Some parent =>
      bool_decide (parent = itemID)
      || bool_decide (parent ∈ attachmentIdsOf db itemID)
  | None => false
  end.

Definition noteIdsUnder (db : Db.Database) (itemID : Z) : gset Z :=
  list_to_set (List.map n_itemID (List.filter (noteUnder db itemID) (Db.itemNotes db))).

Definition noteCount (db : Db.Database) (itemID : Z) : Z :=
  Z.of_nat (size (noteIdsUnder db itemID)).

End Spec.

(** ** Sample inputs *)

Module Samples.

Import Tables.

(** A title of 79 letters [a] followed by [-b]. *)
Definition longTitle : jsstring := repeat 97%N 79 ++ js "-b".

(** *** Databases *)

Definition itemRow (itemID itemTypeID libraryID : Z) (itemKey modified : string) : ItemRow :=
  {| i_itemID := itemID; i_itemTypeID := itemTypeID; i_libraryID := libraryID;
     i_key := js itemKey; i_dateAdded := Some (js "2024-01-01");
     i_dateModified := Some (js modified) |}.

Definition itemTypeRows : list ItemTypeRow :=
  [ {| ity_itemTypeID := 1; ity_typeName := js "journalArticle" |};
    {| ity_itemTypeID := 2; ity_typeName := js "attachment" |};
    {| ity_itemTypeID := 3; ity_typeName := js "note" |};
    {| ity_itemTypeID := 4; ity_typeName := js "annotation" |} ].

(** The database of [test/queries.test.ts]: item 1 with a PDF attachment
    11, a note 21 on the item, a note 22 and an annotation 31 on the
    attachment; item 2 in a group library. *)
Definition testDb : Db.Database := {|
  Db.items :=
    [ itemRow 1 1 1 "ITEM1KEY" "2024-01-02";
      itemRow 2 1 2 "ITEM2KEY" "2024-01-03";
      itemRow 11 2 1 "ATTACH1" "2024-01-02" ];
  Db.itemTypes := itemTypeRows;
  Db.libraries :=
    [ {| l_libraryID := 1; l_type := js "user" |};
      {| l_libraryID := 2; l_type := js "group" |} ];
  Db.groups := [ {| g_libraryID := 2; g_name := js "Group Library" |} ];
  Db.fields :=
    [ {| f_fieldID := 1; f_fieldName := js "title" |};
      {| f_fieldID := 2; f_fieldName := js "date" |};
      {| f_fieldID := 3; f_fieldName := js "DOI" |};
      {| f_fieldID := 4; f_fieldName := js "abstractNote" |};
      {| f_fieldID := 5; f_fieldName := js "publicationTitle" |} ];
  Db.itemDataValues :=
    [ {| v_valueID := 1; v_value := js "Distributed Cognition" |};
      {| v_valueID := 2; v_value := js "1995" |};
      {| v_valueID := 3; v_value := js "10.1234/demo" |};
      {| v_valueID := 4; v_value := js "Demo abstract" |};
      {| v_valueID := 5; v_value := js "Cognitive Science" |};
      {| v_valueID := 6; v_value := js "Group Library Paper" |} ];
  Db.itemData :=
    [ {| id_itemID := 1; id_fieldID := 1; id_valueID := 1 |};
      {| id_itemID := 1; id_fieldID := 2; id_valueID := 2 |};
      {| id_itemID := 1; id_fieldID := 3; id_valueID := 3 |};
      {| id_itemID := 1; id_fieldID := 4; id_valueID := 4 |};
      {| id_itemID := 1; id_fieldID := 5; id_valueID := 5 |};
      {| id_itemID := 2; id_fieldID := 1; id_valueID := 6 |} ];
  Db.creators :=
    [ {| c_creatorID := 1; c_firstName := Some (js "Edwin");
         c_lastName := Some (js "Hutchins"); c_fieldMode := Some 0 |} ];
  Db.creatorTypes := [ {| ct_creatorTypeID := 1; ct_creatorType := js "author" |} ];
  Db.itemCreators :=
    [ {| ic_itemID := 1; ic_creatorID := 1; ic_creatorTypeID := 1; ic_orderIndex := 0 |} ];
  Db.tags := [ {| t_tagID := 1; t_name := js "cognition" |} ];
  Db.itemTags := [ {| itg_itemID := 1; itg_tagID := 1 |} ];
  Db.collections :=
    [ {| col_collectionID := 100; col_key := js "COLL1"; col_libraryID := 1;
         col_collectionName := js "Top"; col_parentCollectionID := None |};
      {| col_collectionID := 101; col_key := js "COLL2"; col_libraryID := 1;
         col_collectionName := js "Child"; col_parentCollectionID := Some 100 |} ];
  Db.collectionItems := [ {| ci_collectionID := 101; ci_itemID := 1 |} ];
  Db.itemAttachments :=
    [ {| ia_itemID := 11; ia_parentItemID := Some 1;
         ia_contentType := Some (js "application/pdf"); ia_linkMode := Some 1;
         ia_path := Some (js "storage:paper.pdf") |} ];
  Db.itemNotes :=
    [ {| n_itemID := 21; n_parentItemID := Some 1; n_title := Some (js "Item Note");
         n_note := Some (js "<p>Item note content</p>") |};
      {| n_itemID := 22; n_parentItemID := Some 11; n_title := Some (js "Attachment Note");
         n_note := Some (js "<p>Attachment note content</p>") |} ];
  Db.itemAnnotations :=
    [ {| an_itemID := 31; an_parentItemID := Some 11; an_type := Some (js "highlight");
         an_text := Some (js "Important quote"); an_comment := Some (js "Good point");
         an_color := Some (js "#ff0"); an_pageLabel := Some (js "4");
         an_sortIndex := Some (js "0001"); an_position := Some (js "{}") |} ]
|}.

(** A database of one item with one child attachment [attachment] and
    nothing else. *)
Definition oneAttachmentDb (attachmentKey : string) (attachment : ItemAttachmentRow)
    : Db.Database := {|
  Db.items :=
    [ itemRow 1 1 1 "ITEM0001" "2024-01-02";
      itemRow (ia_itemID attachment) 2 1 attachmentKey "2024-01-02" ];
  Db.itemTypes := itemTypeRows;
  Db.libraries := [ {| l_libraryID := 1; l_type := js "user" |} ];
  Db.groups := [];
  Db.fields := [ {| f_fieldID := 1; f_fieldName := js "title" |} ];
  Db.itemDataValues := [ {| v_valueID := 1; v_value := js "A Paper" |} ];
  Db.itemData := [ {| id_itemID := 1; id_fieldID := 1; id_valueID := 1 |} ];
  Db.creators := [];
  Db.creatorTypes := [];
  Db.itemCreators := [];
  Db.tags := [];
  Db.itemTags := [];
  Db.collections := [];
  Db.collectionItems := [];
  Db.itemAttachments := [ attachment ];
  Db.itemNotes := [];
  Db.itemAnnotations := []
|}.

(** Item 1 has one child attachment, 12: a link to a web page, of content
    type [text/html] and without a path. *)
Definition linkDb : Db.Database :=
  oneAttachmentDb "LINK0001"
    {| ia_itemID := 12; ia_parentItemID := Some 1; ia_contentType := Some (js "text/html");
       ia_linkMode := Some 3; ia_path := None |}.

(** Item 1 has one child attachment, 13: a PDF linked by a path relative
    to the base directory of linked attachments. *)
Definition relativePathDb : Db.Database :=
  oneAttachmentDb "ATTACH3"
    {| ia_itemID := 13; ia_parentItemID := Some 1;
       ia_contentType := Some (js "application/pdf"); ia_linkMode := Some 2;
       ia_path := Some (js "attachments:papers/paper.pdf") |}.

(** *** Summaries and attachments *)

Definition summaryOf (itemID : Z) (itemKey itemTitle : string) : ZoteroItemSummary :=
  {| sum_itemId := itemID; sum_key := js itemKey; sum_libraryId := 1;
     sum_libraryName := js "My Library"; sum_itemType := js "journalArticle";
     sum_title := js itemTitle; sum_creatorsText := []; sum_date := None;
     sum_year := None; sum_dateAdded := None; sum_dateModified := None; sum_doi := None;
     sum_tagsText := None; sum_pdfCount := 0; sum_hasPdf := false; sum_noteCount := 0 |}.

Definition summary1 : ZoteroItemSummary := summaryOf 1 "ITEM1KEY" "Distributed Cognition".

Definition summary2 : ZoteroItemSummary := summaryOf 2 "ITEM2KEY" "Group Library Paper".

(** A summary whose item is no longer in the database. *)
Definition staleSummary : ZoteroItemSummary := summaryOf 7 "GONE7KEY" "Gone".

(** The summary of item 1 of [relativePathDb]. *)
Definition paperSummary : ZoteroItemSummary := summaryOf 1 "ITEM0001" "A Paper".

(** An attachment stored under the storage root, and one whose path has
    no supported shape. *)
Definition storedAttachment : ZoteroAttachment :=
  {| att_itemId := 11; att_key := js "ATTACH1"; att_title := None;
     att_contentType := Some (js "application/pdf"); att_linkMode := Some 1;
     att_path := Some (js "storage:paper.pdf"); att_filename := Some (js "paper.pdf");
     att_isPdf := true |}.

Definition relativeAttachment : ZoteroAttachment :=
  {| att_itemId := 13; att_key := js "ATTACH3"; att_title := None;
     att_contentType := Some (js "application/pdf"); att_linkMode := Some 2;
     att_path := Some (js "attachments:papers/paper.pdf");
     att_filename := Some (js "paper.pdf"); att_isPdf := true |}.

(** An item without attachments, notes and annotations, and the payload
    of its document. *)
Definition bareItem : ZoteroItem :=
  {| itemId := 2; key := js "ITEM2KEY"; libraryId := 2; libraryName := js "Group Library";
     itemType := js "journalArticle"; title := js "Group Library Paper"; creators := [];
     year := None; date := None; publicationTitle := None; volume := None; issue := None;
     pages := None; publisher := None; place := None; language := None; doi := None;
     url := None; tags := []; collections := []; abstract := None;
     dateAdded := Some (js "2024-01-01"); dateModified := Some (js "2024-01-03");
     extra := None; attachments := []; notes := []; annotations := [] |}.

Definition barePayload : Markdown.MarkdownPayload unit :=
  {| Markdown.item := bareItem; Markdown.selectedAttachments := [];
     Markdown.exportedAttachmentFilenames := []; Markdown.highlights := [];
     Markdown.notes := []; Markdown.exportedAt := tt |}.

(** *** Worlds *)

(** A world with a directory [/exports] that holds [doc.pdf]. *)
Definition exportsWithDoc : MemFs.Tree :=
  list_to_map
    [(js "/", MemFs.Directory);
     (js "/exports", MemFs.Directory);
     (js "/exports/doc.pdf", MemFs.File (js "%PDF"))].

(** A world with the stored file of attachment 11 and an output root that
    already holds the folder of item 1. *)
Definition exportedWorld : MemFs.Tree :=
  list_to_map
    [(js "/", MemFs.Directory);
     (js "/zotero", MemFs.Directory);
     (js "/zotero/storage", MemFs.Directory);
     (js "/zotero/storage/ATTACH1", MemFs.Directory);
     (js "/zotero/storage/ATTACH1/paper.pdf", MemFs.File (js "%PDF"));
     (js "/out", MemFs.Directory);
     (js "/out/ITEM1KEY-Distributed-Cognition", MemFs.Directory);
     (js "/out/ITEM1KEY-Distributed-Cognition/item.md", MemFs.File (js "# kept"))].

(** A world whose output root holds a file named [1995], where the
    year-item layout wants a directory. *)
Definition blockedWorld : MemFs.Tree :=
  list_to_map
    [(js "/", MemFs.Directory);
     (js "/out", MemFs.Directory);
     (js "/out/1995", MemFs.File (js "a file"))].

(** A world with an empty output root. *)
Definition emptyWorld : MemFs.Tree :=
  list_to_map [(js "/", MemFs.Directory); (js "/out", MemFs.Directory)].

Definition startState (w : MemFs.Tree) : Exporter.State MemFs.Tree :=
  {| Exporter.world := w; Exporter.result := Exporter.emptyResult;
     Exporter.outputChannel := [] |}.

(** *** Runs *)

(** Options with fixed answers of the two decision collaborators and a
    fixed export time. *)
Definition fixedOptions (layout : LayoutMode) (decision : ConflictDecision)
    : Exporter.ExportOptions unit :=
  {| Exporter.outputRootPath := js "/out";
     Exporter.layoutMode := layout;
     Exporter.storagePath := js "/zotero/storage";
     Exporter.resolveConflict := fun _ _ => Ok decision;
     Exporter.selectPdfAttachments := fun _ pdfAttachments => Ok pdfAttachments;
     Exporter.now := Some tt |}.

(** The libraries, fixed for the runs of the samples. *)
Definition isoString (_ : unit) : jsstring := js "2024-01-01T00:00:00.000Z".

Definition yamlStub (_ : Markdown.Frontmatter) : jsstring := js "zotero_key: K" ++ js LF.

(** The loop of the exporter over a database and the in-memory filesystem,
    with the fixed libraries. *)
Definition sampleLoop (db : Db.Database) (layout : LayoutMode) (decision : ConflictDecision)
    : list ZoteroItemSummary -> Exporter.State MemFs.Tree -> Exporter.State MemFs.Tree :=
  Exporter.exportLoop (fun s => s) Str.toLowerCaseAscii unit isoString (fun _ => tt)
    yamlStub (fun html => html) db (fixedOptions layout decision).

End Samples.

(** ** Placeholders of a query ([src/zotero/db.ts]) *)

Module DbHelpers.

(** [sqlPlaceholders(count)], for the integers that its callers pass. *)
Definition sqlPlaceholders (count : Z) : Outcome jsstring :=
  if count <=? 0 then Throw (js "Placeholder count must be greater than zero.")
  else Ok (Path.intercalate (js ", ") (replicate (Z.to_nat count) (js "?"))).

End DbHelpers.

(** ** Delimited texts ([src/zotero/queries.ts]) *)

Module Delimited.

Definition isSemicolon (c : N) : bool := (c =? 59)%N.

Definition parseDelimited (value : option jsstring) : list jsstring :=
  if negb (truthy value) then []
  else
    List.filter (fun entry => negb (bool_decide (entry = [])))
      (List.map Str.trim (Str.split isSemicolon (default [] value))).

Definition parseTagsText (tagsText : option jsstring) : list jsstring :=
  parseDelimited tagsText.

End Delimited.

(** ** Collections ([src/types.ts], [src/commands/exportCollection.ts],
    [src/commands/shared.ts]) *)

Record ZoteroCollection := {
  coll_collectionId : Z;
  coll_key : jsstring;
  coll_libraryId : Z;
  coll_collectionName : jsstring;
  coll_parentCollectionId : option Z
}.

Module Collections.

(** A value of the map [byId]. *)
Record Node := {
  collectionName : jsstring;
  parentCollectionId : option Z
}.

(** [new Map(collections.map(...))]: a later entry of a key replaces an
    earlier one. *)
Definition collectionById (collections : list ZoteroCollection) : gmap Z Node :=
  fold_left
    (fun (m : gmap Z Node) collection =>
       <[coll_collectionId collection :=
           {| collectionName := coll_collectionName collection;
              parentCollectionId := coll_parentCollectionId collection |}]> m)
    collections ∅.

(** The [while (current !== null)] loop of [getCollectionPathSegments] and
    of [collectionPathLabel], with the names pushed so far: the names when
    the loop ends within [fuel] iterations, [None] when it is still
    running after them. *)
Fixpoint climb (fuel : nat) (byId : gmap Z Node) (current : option Z)
    (segments : list jsstring) {struct fuel} : option (list jsstring) :=
  match current with
  | None => Some segments
  | Some id =>
      match byId !! id with
      | None => Some segments
      | Some node =>
          match fuel with
          | O => None
          | S fuel' =>
              climb fuel' byId (parentCollectionId node) (segments ++ [collectionName node])
          end
      end
  end.

Definition getCollectionPathSegments (fuel : nat) (collectionId : Z) (byId : gmap Z Node)
    : option (list jsstring) :=
  (fun segments => rev segments) <$> climb fuel byId (Some collectionId) [].

Definition getRelativePathSegments (fuel : nat) (rootCollectionId collectionId : Z)
    (byId : gmap Z Node) : option (list jsstring) :=
  rootSegments ← getCollectionPathSegments fuel rootCollectionId byId;
  fullSegments ← getCollectionPathSegments fuel collectionId byId;
  Some (drop (length rootSegments) fullSegments).

(** [collectionPathLabel] of [shared.ts] *)
Definition collectionPathLabel (fuel : nat) (collectionId : Z) (byId : gmap Z Node)
    : option jsstring :=
  (fun chain => Path.intercalate (js " / ") (rev chain))
    <$> climb fuel byId (Some collectionId) [].

(** The map [childrenByParent]: the children of a collection in the order
    of [collections]. *)
Definition childrenByParent (collections : list ZoteroCollection) : gmap Z (list Z) :=
  fold_left
    (fun (m : gmap Z (list Z)) collection =>
       match coll_parentCollectionId collection with
       | None => m
       | Some parent =>
           <[parent := default [] (m !! parent) ++ [coll_collectionId collection]]> m
       end)
    collections ∅.

(** The [while (queue.length > 0)] loop of [getDescendantCollectionIds]:
    the identifiers in the order they left the queue when the loop ends
    within [fuel] iterations, [None] when it is still running after
    them. *)
Fixpoint drain (fuel : nat) (children : gmap Z (list Z)) (queue ordered : list Z)
    {struct fuel} : option (list Z) :=
  match queue with
  | [] => Some ordered
  | current :: rest =>
      match fuel with
      | O => None
      | S fuel' =>
          drain fuel' children (rest ++ default [] (children !! current)) (ordered ++ [current])
      end
  end.

Definition getDescendantCollectionIds (fuel : nat) (rootCollectionId : Z)
    (collections : list ZoteroCollection) : option (list Z) :=
  drain fuel (childrenByParent collections) [rootCollectionId] [].


(** The rows of [collections] whose parent is [parent]. *)
Definition childrenOf (collections : list ZoteroCollection) (parent : Z) : list Z :=
  List.map coll_collectionId
    (List.filter (fun c => bool_decide (coll_parentCollectionId c = Some parent)) collections).

(** The collections below [root]: [root] itself and the children of what
    lies below it. *)
Inductive descendantOf (collections : list ZoteroCollection) (root : Z) : Z -> Prop :=
| descendant_root : descendantOf collections root root
| descendant_child (parent child : Z) :
    descendantOf collections root parent ->
    child ∈ childrenOf collections parent ->
    descendantOf collections root child.

(** The number of iterations that the traversal spends below and at a
    collection of rank at most [rank]. *)
Fixpoint weight (children : gmap Z (list Z)) (rank : nat) (id : Z) : nat :=
  match rank with
  | O => 1
  | S rank' =>
      S (foldr (fun child total => weight children rank' child + total)%nat 0%nat
           (default [] (children !! id)))
  end.

End Collections.

(** ** Queries over collections ([src/zotero/queries.ts]) *)

Module CollectionQueries.

Import Tables.

Definition mapCollection (row : CollectionRow) : ZoteroCollection :=
  {| coll_collectionId := col_collectionID row;
     coll_key := col_key row;
     coll_libraryId := col_libraryID row;
     coll_collectionName := col_collectionName row;
     coll_parentCollectionId := col_parentCollectionID row |}.

Definition getCollectionsForLibrary (db : Db.Database) (libraryId : Z)
    : list ZoteroCollection :=
  List.map mapCollection
    (Sql.orderBy (fun a b => Sql.textLeb (col_collectionName a) (col_collectionName b))
       (List.filter (fun c => col_libraryID c =? libraryId) (Db.collections db))).

(** The rows of [SELECT DISTINCT itemID FROM collectionItems WHERE
    collectionID = ?]. *)
Definition directItemIds (db : Db.Database) (collectionId : Z) : list Z :=
  remove_dups
    (List.map ci_itemID
       (List.filter (fun ci => ci_collectionID ci =? collectionId) (Db.collectionItems db))).

Definition getDirectCollectionItemSummaries (db : Db.Database) (collectionId limit : Z)
    : list ZoteroItemSummary :=
  Queries.getItemSummariesByIds db (directItemIds db collectionId) limit.

(** The recursive table [descendants]. SQLite takes the rows of a
    recursive common table expression from a queue, one at a time, and
    adds to the queue the rows that the recursive select yields for the
    row it took: here the collections whose parent is that row. The rows
    in the order they were taken when the queue is empty within [fuel]
    steps, [None] when it is not. *)
Fixpoint descendants (fuel : nat) (db : Db.Database) (queue : list Z) {struct fuel}
    : option (list Z) :=
  match queue with
  | [] => Some []
  | d :: rest =>
      match fuel with
      | O => None
      | S fuel' =>
          (d ::.)
            <$> descendants fuel' db
                  (rest ++ List.map col_collectionID
                             (List.filter (fun c => Sql.eqNull (col_parentCollectionID c) d)
                                (Db.collections db)))
      end
  end.

(** The rows of the first query of [getCollectionItemSummaries]:
    [SELECT DISTINCT ci.itemID FROM collectionItems ci JOIN descendants d]. *)
Definition collectionItemIds (fuel : nat) (db : Db.Database) (collectionId : Z)
    : option (list Z) :=
  ds ← descendants fuel db [collectionId];
  Some (remove_dups
          (ci ← Db.collectionItems db;
           _ ← List.filter (fun d => d =? ci_collectionID ci) ds;
           [ci_itemID ci])).

Definition getCollectionItemSummaries (fuel : nat) (db : Db.Database)
    (collectionId limit : Z) : option (list ZoteroItemSummary) :=
  itemIds ← collectionItemIds fuel db collectionId;
  Some (Queries.getItemSummariesByIds db itemIds limit).

End CollectionQueries.

(** ** Discovery of the storage directory ([src/zotero/pathCandidates.ts]) *)

Module PathCandidates.

Record CandidateEnv := {
  platform : jsstring;
  homeDir : jsstring;
  userProfile : option jsstring;
  appData : option jsstring
}.

(** [Array.from(new Set(l))]: the first occurrence of each element, in
    the order of [l]; [seen] holds the elements met so far. *)
Fixpoint distinct (seen l : list jsstring) : list jsstring :=
  match l with
  | [] => []
  | x :: l' =>
      if bool_decide (x ∈ seen) then distinct seen l' else x :: distinct (x :: seen) l'
  end.

(** The array [guesses] of [discoverStoragePath], for the environment with
    its defaults filled in. *)
Definition storageGuesses (sqlitePath : jsstring) (resolvedEnv : CandidateEnv)
    (configuredStoragePath : option jsstring) : list jsstring :=
  (if Markdown.nonBlank configuredStoragePath
   then [Str.trim (default [] configuredStoragePath)] else [])
  ++ [Path.join [Path.dirname sqlitePath; js "storage"]]
  ++ [Path.join [homeDir resolvedEnv; js "Zotero"; js "storage"]]
  ++ (if truthy (userProfile resolvedEnv)
      then [Path.join [default [] (userProfile resolvedEnv); js "Zotero"; js "storage"]]
      else [])
  ++ (if bool_decide (platform resolvedEnv = js "darwin")
      then [Path.join [homeDir resolvedEnv; js "Library"; js "Application Support";
                       js "Zotero"; js "storage"]]
      else []).

Section WithWorld.

Context {W : Type} `{Fs.FileSystem W}.

Definition pathExists (candidatePath : jsstring) (w : W) : bool :=
  Fs.access candidatePath w.

Definition discoverStoragePath (sqlitePath : jsstring) (resolvedEnv : CandidateEnv)
    (configuredStoragePath : option jsstring) (w : W) : option jsstring :=
  List.find (fun guess => pathExists guess w)
    (distinct [] (storageGuesses sqlitePath resolvedEnv configuredStoragePath)).

End WithWorld.

End PathCandidates.

(** ** Shapes of strings *)

Module Shape.

(** Two adjacent [p]-characters. *)
Fixpoint hasDoubled (p : N -> bool) (s : jsstring) : bool :=
  match s with
  | a :: (b :: _) as s' => (p a && p b) || hasDoubled p s'
  | _ => false
  end.

End Shape.

(** ** Normal forms of paths *)

Module PathShape.

(** A segment that [normalizeString] keeps as a name. *)
Definition realSegment (seg : jsstring) : Prop :=
  seg <> [] /\ seg <> js "." /\ seg <> js ".."
  /\ Forall (fun c => Path.isSlash c = false) seg.

(** The stacks that [normalizeString] builds, the last segment first:
    names, above steps to the parent directory that nothing precedes and
    that are kept only where they may lead above the root. *)
Inductive normalStack (allowAboveRoot : bool) : list jsstring -> Prop :=
| normal_nil : normalStack allowAboveRoot []
| normal_real (seg : jsstring) (stack : list jsstring) :
    realSegment seg -> normalStack allowAboveRoot stack ->
    normalStack allowAboveRoot (seg :: stack)
| normal_up (stack : list jsstring) :
    allowAboveRoot = true -> Forall (fun seg => seg = js "..") stack ->
    normalStack allowAboveRoot (js ".." :: stack).

(** The path that [path.normalize] makes of a stack, for a path without a
    trailing slash. *)
Definition ofStack (absolute : bool) (stack : list jsstring) : jsstring :=
  match stack with
  | [] => if absolute then js "/" else js "."
  | _ => (if absolute then js "/" else []) ++ Path.intercalate (js "/") (rev stack)
  end.

(** A normalized path without a trailing slash. *)
Definition normalPath (p : jsstring) : Prop :=
  exists absolute stack, normalStack (negb absolute) stack /\ p = ofStack absolute stack.

End PathShape.

(** ** What a run may do to its result and to the channel *)

Module Progress.

Section WithWorld.

Context {W : Type}.

(** The state [st'] continues [st]: no counter is lower, the flag is still
    raised if it was, the warnings and the lines of the channel of [st]
    are still there, in front of what was added, and each warning that was
    added is a line of the channel. *)
Definition continues (st st' : Exporter.State W) : Prop :=
  exported (Exporter.result st) <= exported (Exporter.result st')
  /\ skipped (Exporter.result st) <= skipped (Exporter.result st')
  /\ failed (Exporter.result st) <= failed (Exporter.result st')
  /\ (cancelled (Exporter.result st) = true -> cancelled (Exporter.result st') = true)
  /\ warnings (Exporter.result st) `prefix_of` warnings (Exporter.result st')
  /\ Exporter.outputChannel st `prefix_of` Exporter.outputChannel st'
  /\ forall warning,
      warning ∈ warnings (Exporter.result st') ->
      warning ∈ warnings (Exporter.result st)
      \/ js "[warning] " ++ warning ∈ Exporter.outputChannel st'.

(** A step after which the state continues the one it started in,
    whatever its outcome. *)
Definition monotone {A : Type} (m : Exporter.M W A) : Prop :=
  forall st, continues st (m st).2.

End WithWorld.

End Progress.

(** The options with another policy for the selection of PDF
    attachments. *)
Definition withSelectPdfAttachments {Date : Type} (options : Exporter.ExportOptions Date)
    (select : ZoteroItem -> list ZoteroAttachment -> Outcome (list ZoteroAttachment))
    : Exporter.ExportOptions Date :=
  {| Exporter.outputRootPath := Exporter.outputRootPath Date options;
     Exporter.layoutMode := Exporter.layoutMode Date options;
     Exporter.storagePath := Exporter.storagePath Date options;
     Exporter.resolveConflict := Exporter.resolveConflict Date options;
     Exporter.selectPdfAttachments := select;
     Exporter.now := Exporter.now Date options |}.

(** ** More sample inputs *)

Module MoreSamples.

(** A policy for the selection of PDF attachments that rejects. *)
Definition noSelection (_ : ZoteroItem) (_ : list ZoteroAttachment)
    : Outcome (list ZoteroAttachment) :=
  Throw (js "no selection").

(** A note without title whose HTML is white space. *)
Definition blankNote : ZoteroNote :=
  {| note_itemId := 21; note_parentItemId := 1; note_title := None;
     note_noteHtml := js "  "; note_noteMarkdown := None |}.

End MoreSamples.

(** ** More sample inputs: collections and environments *)

Module CollectionSamples.


(** The collections of library 1 of the test database, and their map. *)
Definition testCollections : list ZoteroCollection :=
  CollectionQueries.getCollectionsForLibrary Samples.testDb 1.

Definition testById : gmap Z Collections.Node := Collections.collectionById testCollections.

(** A rank that falls from [Top] (100) to [Child] (101). *)
Definition testRank (id : Z) : nat := if id =? 100 then 1%nat else 0%nat.

(** An environment of a Linux host, and a world that holds the storage
    directory next to the database and the one in the home directory. *)
Definition linuxEnv : PathCandidates.CandidateEnv :=
  {| PathCandidates.platform := js "linux";
     PathCandidates.homeDir := js "/home/ada";
     PathCandidates.userProfile := None;
     PathCandidates.appData := None |}.

Definition storageWorld : MemFs.Tree :=
  list_to_map
    [(js "/", MemFs.Directory);
     (js "/data", MemFs.Directory);
     (js "/data/storage", MemFs.Directory);
     (js "/home/ada/Zotero/storage", MemFs.Directory)].

End CollectionSamples.

(** * Properties *)

(** ** Strings *)

Section StrFacts.

Implicit Types (p q : N -> bool) (s t : jsstring) (c r : N).

Lemma dropWhile_suffix p s :
  exists u, s = u ++ Str.dropWhile p s /\ Forall (fun c => p c = true) u.
Proof.
  induction s as [|c s IH]; simpl.
  - exists []. by split.
  - destruct (p c) eqn:Hc.
    + destruct IH as (u & Hu & Hall). exists (c :: u). split.
      * simpl. by rewrite <- Hu.
      * by constructor.
    + exists []. by split.
Qed.

Lemma dropWhile_head p s c :
  head (Str.dropWhile p s) = Some c -> p c = false.
Proof.
  induction s as [|d s IH]; simpl; [done|].
  destruct (p d) eqn:Hd; [done|]. simpl. by intros [= <-].
Qed.

Lemma dropWhile_Forall p q s :
  Forall (fun c => q c = true) s -> Forall (fun c => q c = true) (Str.dropWhile p s).
Proof.
  intros Hs. destruct (dropWhile_suffix p s) as (u & Hu & _).
  rewrite Hu in Hs. by apply Forall_app in Hs as [_ ?].
Qed.

Lemma dropWhileEnd_prefix p s :
  exists u, s = Str.dropWhileEnd p s ++ u /\ Forall (fun c => p c = true) u.
Proof.
  unfold Str.dropWhileEnd.
  destruct (dropWhile_suffix p (rev s)) as (u & Hu & Hall).
  exists (rev u). split.
  - rewrite <- rev_app_distr, <- Hu. by rewrite rev_involutive.
  - by apply Forall_rev.
Qed.

Lemma dropWhileEnd_Forall p q s :
  Forall (fun c => q c = true) s -> Forall (fun c => q c = true) (Str.dropWhileEnd p s).
Proof.
  intros Hs. destruct (dropWhileEnd_prefix p s) as (u & Hu & _).
  rewrite Hu in Hs. by apply Forall_app in Hs as [? _].
Qed.

Lemma last_rev s : last (rev s) = head s.
Proof. rewrite rev_alt. apply (last_reverse s). Qed.

Lemma dropWhileEnd_last p s c :
  last (Str.dropWhileEnd p s) = Some c -> p c = false.
Proof.
  unfold Str.dropWhileEnd. rewrite last_rev. apply dropWhile_head.
Qed.

Lemma dropWhileEnd_head p s c :
  head (Str.dropWhileEnd p s) = Some c -> head s = Some c.
Proof.
  destruct (dropWhileEnd_prefix p s) as (u & Hu & _).
  destruct (Str.dropWhileEnd p s) as [|d t] eqn:E; [done|].
  simpl. intros [= <-]. by rewrite Hu.
Qed.

Lemma stripEnds_Forall p q s :
  Forall (fun c => q c = true) s -> Forall (fun c => q c = true) (Str.stripEnds p s).
Proof. intros. by apply dropWhileEnd_Forall, dropWhile_Forall. Qed.

Lemma stripEnds_head p s c :
  head (Str.stripEnds p s) = Some c -> p c = false.
Proof. intros Hh. by apply dropWhileEnd_head, dropWhile_head in Hh. Qed.

Lemma stripEnds_last p s c :
  last (Str.stripEnds p s) = Some c -> p c = false.
Proof. apply dropWhileEnd_last. Qed.

Lemma replaceRuns_Forall p q r s :
  q r = true ->
  Forall (fun c => p c = false -> q c = true) s ->
  Forall (fun c => q c = true) (Str.replaceRuns p r s).
Proof.
  intros Hr. induction 1 as [|c s Hc Hs IH]; simpl; [constructor|].
  destruct (p c) eqn:Hpc.
  - destruct s as [|c' s']; [by repeat constructor|].
    destruct (p c'); [exact IH|]. by constructor.
  - constructor; auto.
Qed.

Lemma filter_Forall_true q s : Forall (fun c => q c = true) (List.filter q s).
Proof. apply List.Forall_forall. intros c Hc. by apply filter_In in Hc as [_ ?]. Qed.

Lemma startsWith_spec t s : Str.startsWith t s = true <-> exists u, s = t ++ u.
Proof.
  revert s. induction t as [|a t IH]; intros s; simpl.
  - split; [eauto|done].
  - destruct s as [|b s]; simpl.
    + split; [done|]. by intros (u & ?).
    + rewrite andb_true_iff, N.eqb_eq, IH. split.
      * intros (-> & u & ->). eauto.
      * intros (u & [= -> ->]). eauto.
Qed.

Lemma includes_spec t s :
  Str.includes t s = true <-> exists pre post, s = pre ++ t ++ post.
Proof.
  induction s as [|c s IH]; simpl.
  - rewrite orb_false_r, startsWith_spec. split.
    + intros (u & ->). by exists [], u.
    + intros (pre & post & Heq). symmetry in Heq.
      apply app_eq_nil in Heq as [-> Heq]. apply app_eq_nil in Heq as [-> ->]. by exists [].
  - rewrite orb_true_iff, startsWith_spec, IH. split.
    + intros [(u & ->)|(pre & post & ->)].
      * by exists [], u.
      * by exists (c :: pre), post.
    + intros ([|d pre] & post & Heq); simpl in Heq.
      * left. eauto.
      * right. injection Heq as -> ->. eauto.
Qed.

End StrFacts.

(** ** Naming engine *)

Section NamingFacts.

Variable normalizeNFKD : jsstring -> jsstring.

Local Abbreviation sanitizeSegment := (Naming.sanitizeSegment normalizeNFKD).
Local Abbreviation buildItemSlug := (Naming.buildItemSlug normalizeNFKD).

Lemma segmentChar_slugChar c :
  Char.isSegmentChar c = true -> Char.isSpace c = false -> Char.isSlugChar c = true.
Proof.
  unfold Char.isSegmentChar, Char.isSlugChar. intros Hseg Hsp.
  rewrite Hsp, orb_false_r in Hseg. exact Hseg.
Qed.

(** The sanitized segment before its truncation holds slug characters
    only and neither starts nor ends with a hyphen or a dot. *)
Lemma sanitizeSegment_chars input :
  Forall (fun c => Char.isSlugChar c = true) (sanitizeSegment input).
Proof.
  unfold Naming.sanitizeSegment. cbv zeta.
  apply Forall_take, stripEnds_Forall.
  apply replaceRuns_Forall; [done|]. apply Forall_forall. intros c Hc _. revert c Hc.
  apply Forall_forall.
  apply replaceRuns_Forall; [done|].
  eapply Forall_impl; [apply stripEnds_Forall, filter_Forall_true|].
  intros c Hc. by apply segmentChar_slugChar.
Qed.

Lemma sanitizeSegment_head input c :
  head (sanitizeSegment input) = Some c -> Char.isHyphenOrDot c = false.
Proof.
  unfold Naming.sanitizeSegment. cbv zeta.
  match goal with |- context [Str.stripEnds ?p ?s] => generalize (stripEnds_head p s c) end.
  destruct (Str.stripEnds _ _); simpl; auto.
Qed.

Lemma sanitizeSegment_length input :
  (length (sanitizeSegment input) <= Naming.MAX_SLUG_LENGTH)%nat.
Proof. unfold Naming.sanitizeSegment. cbv zeta. rewrite length_take. lia. Qed.

(** A segment that the cut at 80 leaves shorter than 80 was not cut, and
    does not end with a hyphen or a dot. *)
Lemma sanitizeSegment_last_uncut input c :
  (length (sanitizeSegment input) < Naming.MAX_SLUG_LENGTH)%nat ->
  last (sanitizeSegment input) = Some c -> Char.isHyphenOrDot c = false.
Proof.
  unfold Naming.sanitizeSegment. cbv zeta. rewrite length_take. intros Hlen.
  rewrite take_ge by lia. apply stripEnds_last.
Qed.

(** C4, at its failing input. For a title of 79 letters, a hyphen and one
    more letter, that normalization leaves as it is, [sanitizeSegment]
    strips nothing, cuts after the hyphen and returns 80 characters that end
    with a hyphen: the output has a trailing hyphen, which the claim
    excludes. *)
Theorem sanitizeSegment_cut_leaves_trailing_hyphen :
  normalizeNFKD Samples.longTitle = Samples.longTitle ->
  sanitizeSegment Samples.longTitle = repeat 97%N 79 ++ js "-"
  /\ last (sanitizeSegment Samples.longTitle) = Some Char.hyphen
  /\ Char.isHyphenOrDot Char.hyphen = true.
Proof.
  intros Hn. unfold Naming.sanitizeSegment. rewrite Hn. by vm_compute.
Qed.

(** C8. The slug is the key, a hyphen and the sanitized title (or
    [untitled] when that is empty); it is never longer than the segment cap
    plus the key plus the separator; and for key [ABCD1234] and title
    [My: Title Here] (which normalization leaves as it is) it starts with
    [ABCD1234-] and contains [My-Title-Here]. *)
Theorem buildItemSlug_shape :
  normalizeNFKD (js "My: Title Here") = js "My: Title Here" ->
  (forall key title,
      buildItemSlug key title
      = key ++ js "-" ++ Str.orElse (sanitizeSegment title) (js "untitled")
      /\ (length (buildItemSlug key title)
          <= Naming.MAX_SLUG_LENGTH + length key + 1)%nat)
  /\ Str.startsWith (js "ABCD1234-") (buildItemSlug (js "ABCD1234") (js "My: Title Here")) = true
  /\ Str.includes (js "My-Title-Here") (buildItemSlug (js "ABCD1234") (js "My: Title Here")) = true.
Proof.
  intros Hn. split.
  - intros key title. unfold Naming.buildItemSlug. cbv zeta.
    assert (Hlen : (length (key ++ js "-" ++ Str.orElse (sanitizeSegment title) (js "untitled"))
                    <= Naming.MAX_SLUG_LENGTH + length key + 1)%nat).
    { rewrite !length_app. pose proof (sanitizeSegment_length title) as Hl.
      unfold Str.orElse. destruct (sanitizeSegment title); simpl in *;
        unfold Naming.MAX_SLUG_LENGTH in *; lia. }
    rewrite take_ge by exact Hlen. by split.
  - unfold Naming.buildItemSlug, Naming.sanitizeSegment. rewrite Hn. by vm_compute.
Qed.

End NamingFacts.

(** The slug under a normalizer that leaves every string as it is, which
    is what NFKD does to ASCII text. *)
Lemma buildItemSlug_shape_witness :
  (fun s : jsstring => s) (js "My: Title Here") = js "My: Title Here"
  /\ Naming.buildItemSlug (fun s => s) (js "ABCD1234") (js "My: Title Here")
     = js "ABCD1234-My-Title-Here".
Proof.
  split; [reflexivity|].
  destruct (buildItemSlug_shape (fun s => s) eq_refl) as [Hshape _].
  rewrite (proj1 (Hshape _ _)). reflexivity.
Defined.

(** The long title under the same normalizer: the segment ends with a
    hyphen. *)
Lemma sanitizeSegment_cut_leaves_trailing_hyphen_witness :
  (fun s : jsstring => s) Samples.longTitle = Samples.longTitle
  /\ last (Naming.sanitizeSegment (fun s => s) Samples.longTitle) = Some Char.hyphen.
Proof.
  split; [reflexivity|].
  apply (sanitizeSegment_cut_leaves_trailing_hyphen (fun s => s)). reflexivity.
Defined.

(** ** Paths *)

Section PathFacts.

Implicit Types (p : N -> bool) (s b : jsstring).

Lemma split_nonempty p s : Str.split p s <> [].
Proof.
  destruct s as [|c s]; simpl; [done|].
  destruct (p c); [done|]. by destruct (Str.split p s).
Qed.

Lemma split_app_sep p s1 c s2 :
  p c = true -> Str.split p (s1 ++ c :: s2) = Str.split p s1 ++ Str.split p s2.
Proof.
  intros Hc. induction s1 as [|a s1 IH]; simpl.
  - by rewrite Hc.
  - destruct (p a); [by rewrite IH|]. rewrite IH.
    pose proof (split_nonempty p s1). by destruct (Str.split p s1).
Qed.

Lemma split_plain p b : Forall (fun c => p c = false) b -> Str.split p b = [b].
Proof.
  induction 1 as [|c b Hc Hb IH]; simpl; [done|]. by rewrite Hc, IH.
Qed.

Lemma intercalate_snoc sep (l : list jsstring) b :
  Path.intercalate sep (l ++ [b])
  = match l with [] => b | _ => Path.intercalate sep l ++ sep ++ b end.
Proof.
  induction l as [|x l IH]; simpl; [done|].
  destruct l as [|y l]; simpl in *; [done|].
  rewrite IH. by rewrite <- !app_assoc.
Qed.

Lemma pushSegment_plain allowAboveRoot stack b :
  Path.plainName b -> Path.pushSegment allowAboveRoot stack b = b :: stack.
Proof.
  intros (Hne & _ & Hdot & Hdots). unfold Path.pushSegment.
  by rewrite !bool_decide_eq_false_2.
Qed.

Lemma endsWith_slash_plain s b :
  Path.plainName b -> Str.endsWith (js "/") (s ++ b) = false.
Proof.
  intros (Hne & Hall & _). unfold Str.endsWith.
  destruct (exists_last Hne) as (b' & c & ->).
  rewrite app_assoc, rev_unit. apply Forall_app in Hall as [_ Hc].
  apply Forall_inv in Hc. unfold Path.isSlash in Hc.
  change (rev (js "/")) with [Char.slash]. cbn [Str.startsWith].
  by rewrite N.eqb_sym, Hc.
Qed.

Lemma normalize_body_plain allowAboveRoot (segs : list jsstring) b :
  Path.plainName b ->
  Path.intercalate (js "/")
    (rev (fold_left (Path.pushSegment allowAboveRoot) (segs ++ [b]) []))
  = match rev (fold_left (Path.pushSegment allowAboveRoot) segs []) with
    | [] => b
    | l => Path.intercalate (js "/") l ++ js "/" ++ b
    end.
Proof.
  intros Hb. rewrite fold_left_app. cbn [fold_left].
  rewrite pushSegment_plain by done. cbn [rev]. rewrite intercalate_snoc.
  by destruct (rev _).
Qed.

(** Normalizing a path that ends with a plain file name after a slash
    leaves the name in place, after a prefix that depends on the rest. *)
Lemma normalize_dir_plain d0 dir :
  exists prefix, forall b,
    Path.plainName b -> Path.normalize ((d0 :: dir) ++ Char.slash :: b) = prefix ++ b.
Proof.
  set (stack := rev (fold_left (Path.pushSegment (negb (Path.isSlash d0)))
                       (Str.split Path.isSlash (d0 :: dir)) [])).
  exists ((if Path.isSlash d0 then js "/" else [])
          ++ match stack with
             | [] => []
             | l => Path.intercalate (js "/") l ++ js "/"
             end).
  intros b Hb. pose proof Hb as (Hne & Hall & _).
  assert (Hends : Str.endsWith (js "/") (d0 :: dir ++ Char.slash :: b) = false).
  { replace (d0 :: dir ++ Char.slash :: b) with ((d0 :: dir ++ [Char.slash]) ++ b)
      by (cbn [app]; by rewrite <- app_assoc).
    by apply endsWith_slash_plain. }
  unfold Path.normalize. cbn [app]. rewrite Hends.
  cbn [Path.isAbsolute]. unfold Path.normalizeString.
  change (d0 :: dir ++ Char.slash :: b) with ((d0 :: dir) ++ Char.slash :: b).
  rewrite split_app_sep by done. rewrite (split_plain _ _ Hall).
  rewrite normalize_body_plain by done. fold stack.
  destruct stack as [|x l].
  - destruct b as [|c b']; [done|]. by rewrite !app_nil_r.
  - set (body := Path.intercalate (js "/") (x :: l) ++ js "/" ++ b).
    assert (Hbody : body <> []).
    { unfold body. intros Heq. by apply app_eq_nil in Heq as [_ Heq]. }
    destruct body as [|c body'] eqn:Ebody; [done|].
    rewrite app_nil_r. rewrite <- Ebody. unfold body. by rewrite <- !app_assoc.
Qed.

Lemma normalize_plain b : Path.plainName b -> Path.normalize b = b.
Proof.
  intros Hb. pose proof Hb as (Hne & Hall & _).
  assert (Hends : Str.endsWith (js "/") b = false)
    by apply (endsWith_slash_plain [] b Hb).
  assert (Hbody : Path.normalizeString b true = b).
  { unfold Path.normalizeString. rewrite (split_plain _ _ Hall). cbn [fold_left].
    by rewrite pushSegment_plain. }
  destruct b as [|c b']; [done|].
  assert (Habs : Path.isAbsolute (c :: b') = false) by (by inversion Hall).
  unfold Path.normalize. cbv zeta. rewrite Hends, Habs. cbn [negb]. rewrite Hbody.
  by rewrite app_nil_r.
Qed.

(** Joining a directory and a plain file name puts the name, unchanged,
    after a prefix that depends on the directory only. *)
Lemma join_dir_plain dir :
  exists prefix, forall b, Path.plainName b -> Path.join [dir; b] = prefix ++ b.
Proof.
  destruct dir as [|d0 dir].
  - exists []. intros b Hb. pose proof Hb as (Hne & _).
    unfold Path.join. cbn [List.filter]. rewrite bool_decide_eq_true_2 by done.
    rewrite bool_decide_eq_false_2 by done. cbn [negb Path.intercalate].
    by rewrite normalize_plain.
  - destruct (normalize_dir_plain d0 dir) as (prefix & Hprefix).
    exists prefix. intros b Hb. pose proof Hb as (Hne & _).
    unfold Path.join. cbn [List.filter]. rewrite !bool_decide_eq_false_2 by done.
    cbn [negb Path.intercalate]. by rewrite <- Hprefix.
Qed.

Lemma splitLast_spec p s :
  match Path.splitLast p s with
  | (Some d, b) =>
      (exists c, p c = true /\ s = d ++ c :: b) /\ Forall (fun c => p c = false) b
  | (None, b) => b = s /\ Forall (fun c => p c = false) s
  end.
Proof.
  induction s as [|c s IH]; simpl; [done|].
  destruct (Path.splitLast p s) as [[d|] b].
  - destruct IH as [(c' & Hc' & ->) Hb]. split; [|done]. by exists c'.
  - destruct IH as [-> Hs]. destruct (p c) eqn:Hc.
    + split; [|done]. by exists c.
    + split; [done|]. by constructor.
Qed.

Lemma splitLast_snd_Forall p (q : N -> Prop) s :
  Forall q s -> Forall q (Path.splitLast p s).2.
Proof.
  intros Hs. pose proof (splitLast_spec p s) as Hspec.
  destruct (Path.splitLast p s) as [[d|] b]; simpl.
  - destruct Hspec as [(c & _ & ->) _]. apply Forall_app in Hs as [_ Hs].
    by inversion Hs.
  - by destruct Hspec as [-> _].
Qed.

Lemma splitExt_Forall atRoot (q : N -> Prop) b :
  Forall q b -> Forall q (Path.splitExt atRoot b).1 /\ Forall q (Path.splitExt atRoot b).2.
Proof.
  intros Hb. unfold Path.splitExt.
  pose proof (splitLast_spec Char.isDot b) as Hspec.
  destruct (Path.splitLast Char.isDot b) as [[[|x pre]|] post]; simpl; [done| |done].
  destruct Hspec as [(c & Hc & Heq) _].
  destruct (bool_decide (b = js "..") && negb atRoot); simpl; [done|].
  rewrite Heq in Hb. apply Forall_app in Hb as [Hpre Hpost]. split; [done|].
  inversion Hpost as [|? ? Hqc Hqpost]; subst. constructor; [|done].
  unfold Char.isDot in Hc. apply N.eqb_eq in Hc. by subst.
Qed.

(** The name and the extension that [path.parse] returns hold no slash. *)
Lemma parse_name_ext_plain target :
  Forall (fun c => Path.isSlash c = false) (Path.name (Path.parse target))
  /\ Forall (fun c => Path.isSlash c = false) (Path.ext (Path.parse target)).
Proof.
  unfold Path.parse. destruct target as [|c rest]; [by split|].
  set (body := Str.dropWhileEnd Path.isSlash (if Path.isSlash c then rest else c :: rest)).
  destruct body as [|x body'] eqn:Ebody; [by split|].
  pose proof (splitLast_spec Path.isSlash (x :: body')) as Hspec.
  destruct (Path.splitLast Path.isSlash (x :: body')) as [d b].
  assert (Hb : Forall (fun c => Path.isSlash c = false) b).
  { destruct d; [by destruct Hspec|]. by destruct Hspec as [-> ?]. }
  pose proof (splitExt_Forall (Path.isSlash c && bool_decide (d = None)) _ b Hb) as [Hn He].
  by destruct (Path.splitExt _ b).
Qed.

Lemma digits_inj d d' : digits d = digits d' -> d = d'.
Proof.
  revert d'. induction d; destruct d'; simpl; intros Heq;
    try discriminate; try done; injection Heq as Heq; f_equal; auto.
Qed.

Lemma digits_head d c : head (digits d) = Some c -> Char.isDigit c = true.
Proof. destruct d; simpl; intros [= <-]; done. Qed.

Lemma digits_plain d : Forall (fun c => Path.isSlash c = false) (digits d).
Proof. induction d; simpl; constructor; done. Qed.

Lemma decimal_inj n n' : decimal n = decimal n' -> n = n'.
Proof.
  unfold decimal. intros Heq. apply DecimalZ.to_int_inj.
  destruct (Z.to_int n) as [d|d], (Z.to_int n') as [d'|d'].
  - by apply digits_inj in Heq as ->.
  - pose proof (digits_head d Char.hyphen) as Hh. rewrite Heq in Hh.
    by specialize (Hh eq_refl).
  - pose proof (digits_head d' Char.hyphen) as Hh. rewrite <- Heq in Hh.
    by specialize (Hh eq_refl).
  - injection Heq as Heq. by apply digits_inj in Heq as ->.
Qed.

Lemma decimal_plain n : Forall (fun c => Path.isSlash c = false) (decimal n).
Proof.
  unfold decimal. destruct (Z.to_int n); [apply digits_plain|].
  constructor; [done|apply digits_plain].
Qed.

End PathFacts.

(** ** Unique file paths *)

Section UniquePathFacts.

Context {W : Type} `{Fs.FileSystem W}.

Implicit Types (w : W) (k j : Z).

Local Abbreviation candidateName parsed k :=
  (Path.name parsed ++ js "-" ++ decimal k ++ Path.ext parsed).

Lemma candidateName_plain targetPath k :
  Path.plainName (candidateName (Path.parse targetPath) k).
Proof.
  destruct (parse_name_ext_plain targetPath) as [Hname Hext].
  assert (Hin : Char.hyphen ∈ candidateName (Path.parse targetPath) k).
  { apply elem_of_app. right. apply elem_of_app. left. by apply list_elem_of_singleton. }
  repeat split.
  - intros Heq. rewrite Heq in Hin. by apply elem_of_nil in Hin.
  - apply Forall_app. split; [done|]. apply Forall_app. split; [by repeat constructor|].
    apply Forall_app. split; [apply decimal_plain|done].
  - intros Heq. rewrite Heq in Hin. by apply list_elem_of_singleton in Hin.
  - intros Heq. rewrite Heq in Hin.
    apply elem_of_cons in Hin as [?|Hin]; [done|]. by apply list_elem_of_singleton in Hin.
Qed.

Lemma candidateName_inj targetPath :
  Inj (=) (=) (fun k => candidateName (Path.parse targetPath) k).
Proof.
  intros k j Heq. apply app_inv_head, app_inv_head, app_inv_tail in Heq.
  by apply decimal_inj.
Qed.

Lemma candidate_prefix targetPath :
  exists prefix, forall k,
    Exporter.candidate (Path.parse targetPath) k
    = prefix ++ candidateName (Path.parse targetPath) k.
Proof.
  destruct (join_dir_plain (Path.dir (Path.parse targetPath))) as (prefix & Hprefix).
  exists prefix. intros k. apply Hprefix, candidateName_plain.
Qed.

(** Candidates that are all taken are entries of one directory, so there
    are no more of them than the world holds. *)
Lemma taken_candidates_bounded w targetPath k :
  (forall j, 2 <= j < k ->
             Exporter.pathExists (Exporter.candidate (Path.parse targetPath) j) w = true) ->
  (Z.to_nat (k - 2) <= Fs.entryBound w)%nat.
Proof.
  intros Htaken. destruct (candidate_prefix targetPath) as (prefix & Hprefix).
  pose proof (Fs.entries_finite w prefix
                ((fun j => candidateName (Path.parse targetPath) j) <$> seqZ 2 (k - 2)))
    as Hbound.
  rewrite length_fmap, length_seqZ in Hbound. apply Hbound.
  - apply NoDup_fmap_2; [apply candidateName_inj|apply NoDup_seqZ].
  - intros n Hn. apply list_elem_of_fmap in Hn as (j & -> & Hj).
    apply elem_of_seqZ in Hj. split.
    + destruct (candidateName_plain targetPath j) as (_ & Hall & _).
      eapply Forall_impl; [exact Hall|]. intros c Hc. by apply N.eqb_neq in Hc.
    + rewrite <- Hprefix. apply Htaken. lia.
Qed.

(** The probing loop returns the first free candidate it meets. *)
Lemma probe_first_free w parsed fuel start k :
  start <= k ->
  (forall j, start <= j < k ->
             Exporter.pathExists (Exporter.candidate parsed j) w = true) ->
  Exporter.pathExists (Exporter.candidate parsed k) w = false ->
  (Z.to_nat (k - start) < fuel)%nat ->
  Exporter.probe w parsed fuel start = Exporter.candidate parsed k.
Proof.
  revert start. induction fuel as [|fuel IH]; intros start Hle Htaken Hfree Hfuel; [lia|].
  cbn [Exporter.probe]. destruct (decide (start = k)) as [->|Hne].
  - by rewrite Hfree.
  - rewrite Htaken by lia. apply IH; [lia| |done|lia]. intros j Hj. apply Htaken. lia.
Qed.

(** A bounded search for the first free candidate. *)
Lemma first_free_or_all_taken (taken : Z -> bool) (n : nat) start :
  (forall j, start <= j < start + Z.of_nat n -> taken j = true)
  \/ exists k, start <= k < start + Z.of_nat n /\ taken k = false
               /\ forall j, start <= j < k -> taken j = true.
Proof.
  revert start. induction n as [|n IH]; intros start.
  - left. intros j Hj. lia.
  - destruct (taken start) eqn:Hstart.
    + destruct (IH (start + 1)) as [Hall|(k & Hk & Hfree & Hbelow)].
      * left. intros j Hj. destruct (decide (j = start)) as [->|]; [done|].
        apply Hall. lia.
      * right. exists k. split; [lia|]. split; [done|]. intros j Hj.
        destruct (decide (j = start)) as [->|]; [done|]. apply Hbelow. lia.
    + right. exists start. split; [lia|]. split; [done|]. intros j Hj. lia.
Qed.

Lemma first_free_exists w targetPath :
  exists k, 2 <= k
    /\ Exporter.pathExists (Exporter.candidate (Path.parse targetPath) k) w = false
    /\ forall j, 2 <= j < k ->
          Exporter.pathExists (Exporter.candidate (Path.parse targetPath) j) w = true.
Proof.
  destruct (first_free_or_all_taken
              (fun j => Exporter.pathExists (Exporter.candidate (Path.parse targetPath) j) w)
              (S (Fs.entryBound w)) 2) as [Hall|(k & Hk & Hfree & Hbelow)].
  - pose proof (taken_candidates_bounded w targetPath (2 + Z.of_nat (S (Fs.entryBound w))) Hall).
    lia.
  - exists k. split; [lia|]. by split.
Qed.

Lemma makeUniqueFilePath_free_candidate w targetPath k :
  Exporter.pathExists targetPath w = true ->
  2 <= k ->
  Exporter.pathExists (Exporter.candidate (Path.parse targetPath) k) w = false ->
  (forall j, 2 <= j < k ->
             Exporter.pathExists (Exporter.candidate (Path.parse targetPath) j) w = true) ->
  Exporter.makeUniqueFilePath targetPath w = Exporter.candidate (Path.parse targetPath) k.
Proof.
  intros Hexists Hk Hfree Hbelow. unfold Exporter.makeUniqueFilePath.
  rewrite Hexists. cbn [negb]. apply probe_first_free; [done..|].
  pose proof (taken_candidates_bounded w targetPath k Hbelow). lia.
Qed.

Lemma candidate_doc k :
  Exporter.candidate (Path.parse (js "/exports/doc.pdf")) k
  = js "/exports/doc-" ++ decimal k ++ js ".pdf".
Proof.
  destruct (candidate_prefix (js "/exports/doc.pdf")) as (prefix & Hprefix).
  assert (Hp : prefix = js "/exports/").
  { apply (app_inv_tail (js "doc-0.pdf")).
    transitivity (Exporter.candidate (Path.parse (js "/exports/doc.pdf")) 0);
      [symmetry; exact (Hprefix 0)|by vm_compute]. }
  rewrite Hprefix, Hp. reflexivity.
Qed.

(** C7. [makeUniqueFilePath] returns its argument when nothing exists at
    that path. When something does, it returns the candidate
    [<dir>/<name>-<k><ext>] of the first [k = 2, 3, ...] at which nothing
    exists (and there is such a [k]). So for [doc.pdf] in a directory that
    holds [doc.pdf] it returns [doc-2.pdf], and [doc-3.pdf] when [doc-2.pdf]
    is there too. *)
Theorem makeUniqueFilePath_first_free w targetPath :
  (Exporter.pathExists targetPath w = false ->
   Exporter.makeUniqueFilePath targetPath w = targetPath)
  /\ (Exporter.pathExists targetPath w = true ->
      exists k, 2 <= k
        /\ Exporter.makeUniqueFilePath targetPath w
           = Path.join [Path.dir (Path.parse targetPath);
                        Path.name (Path.parse targetPath) ++ js "-" ++ decimal k
                        ++ Path.ext (Path.parse targetPath)]
        /\ Exporter.pathExists (Exporter.makeUniqueFilePath targetPath w) w = false
        /\ forall j, 2 <= j < k ->
              Exporter.pathExists
                (Path.join [Path.dir (Path.parse targetPath);
                            Path.name (Path.parse targetPath) ++ js "-" ++ decimal j
                            ++ Path.ext (Path.parse targetPath)]) w = true)
  /\ (Exporter.pathExists (js "/exports/doc.pdf") w = true ->
      Exporter.pathExists (js "/exports/doc-2.pdf") w = false ->
      Exporter.makeUniqueFilePath (js "/exports/doc.pdf") w = js "/exports/doc-2.pdf")
  /\ (Exporter.pathExists (js "/exports/doc.pdf") w = true ->
      Exporter.pathExists (js "/exports/doc-2.pdf") w = true ->
      Exporter.pathExists (js "/exports/doc-3.pdf") w = false ->
      Exporter.makeUniqueFilePath (js "/exports/doc.pdf") w = js "/exports/doc-3.pdf").
Proof.
  split; [|split; [|split]].
  - intros Hfree. unfold Exporter.makeUniqueFilePath. by rewrite Hfree.
  - intros Hexists. destruct (first_free_exists w targetPath) as (k & Hk & Hfree & Hbelow).
    exists k. split; [done|].
    rewrite (makeUniqueFilePath_free_candidate w targetPath k) by done. by repeat split.
  - intros Hdoc Hfree2.
    rewrite (makeUniqueFilePath_free_candidate w _ 2); [apply candidate_doc|done|lia| |].
    + by rewrite candidate_doc.
    + intros j Hj. lia.
  - intros Hdoc Htaken2 Hfree3.
    rewrite (makeUniqueFilePath_free_candidate w _ 3); [apply candidate_doc|done|lia| |].
    + by rewrite candidate_doc.
    + intros j Hj. assert (j = 2) as -> by lia. by rewrite candidate_doc.
Qed.

End UniquePathFacts.

(** The unique path for [doc.pdf] in the in-memory filesystem, in a
    directory that holds [doc.pdf]. *)
Lemma makeUniqueFilePath_first_free_witness :
  Exporter.pathExists (js "/exports/doc.pdf") Samples.exportsWithDoc = true
  /\ Exporter.pathExists (js "/exports/doc-2.pdf") Samples.exportsWithDoc = false
  /\ Exporter.makeUniqueFilePath (js "/exports/doc.pdf") Samples.exportsWithDoc
     = js "/exports/doc-2.pdf".
Proof.
  split; [by vm_compute|]. split; [by vm_compute|].
  apply (makeUniqueFilePath_first_free Samples.exportsWithDoc (js "/exports/doc.pdf"));
    by vm_compute.
Defined.

(** ** Document renderer *)

Section MarkdownFacts.

Variable Date : Type.
Variable toISOString : Date -> jsstring.
Variable yamlDump : Markdown.Frontmatter -> jsstring.

Local Abbreviation buildMarkdown := (Markdown.buildMarkdown Date toISOString yamlDump).

Lemma occursIn_includes needle s :
  Str.occursIn needle s <-> Str.includes needle s = true.
Proof. symmetry. apply includes_spec. Qed.

(** C9. A document rendered from an empty highlight list and an empty
    note list contains the two placeholder sections, literally. *)
Theorem buildMarkdown_empty_sections (payload : Markdown.MarkdownPayload Date) :
  Markdown.highlights Date payload = [] ->
  Markdown.notes Date payload = [] ->
  Str.occursIn (js "## Highlights" ++ js LF ++ js LF ++ js "None") (buildMarkdown payload)
  /\ Str.occursIn (js "## Notes" ++ js LF ++ js LF ++ js "None") (buildMarkdown payload).
Proof.
  intros Hh Hn. unfold Markdown.buildMarkdown. cbv zeta. rewrite Hh, Hn.
  cbn [Markdown.renderHighlights Markdown.renderNotes].
  set (yamlContent := yamlDump _). set (heading := Str.orElse _ _).
  set (header := js "---" ++ js LF ++ yamlContent ++ js "---" ++ js LF ++ js LF
                 ++ js "# " ++ heading ++ js LF ++ js LF).
  split.
  - exists header,
      (js LF ++ js LF ++ js "## Notes" ++ js LF ++ js LF ++ js "None" ++ js LF).
    unfold header. by rewrite <- !app_assoc.
  - exists (header ++ js "## Highlights" ++ js LF ++ js LF ++ js "None" ++ js LF ++ js LF),
      (js LF).
    unfold header. by rewrite <- !app_assoc.
Qed.

End MarkdownFacts.

(** ** Row mapper *)

Section QueriesFacts.

Import Tables.

Implicit Types (db : Db.Database) (x root : Z).

Lemma elem_of_List_filter {A : Type} (f : A -> bool) (l : list A) (a : A) :
  a ∈ List.filter f l <-> a ∈ l /\ f a = true.
Proof. rewrite !list_elem_of_In. apply filter_In. Qed.

Lemma elem_of_List_map {A B : Type} (f : A -> B) (l : list A) (b : B) :
  b ∈ List.map f l <-> exists a, b = f a /\ a ∈ l.
Proof. apply list_elem_of_fmap. Qed.

Lemma eqNull_true (o : option Z) x : Sql.eqNull o x = true <-> o = Some x.
Proof.
  destruct o as [v|]; simpl; [|done]. rewrite Z.eqb_eq. split; [by intros ->|by intros [= ->]].
Qed.

(** The identifiers joined into the group of [root]: the notes whose
    parent is a target of [root]. *)
Lemma elem_of_noteRows db root x :
  x ∈ Queries.noteRows db root
  <-> exists nt n, nt ∈ Queries.note_targets db /\ nt.1 = root
                  /\ n ∈ Db.itemNotes db /\ n_parentItemID n = Some nt.2
                  /\ x = n_itemID n.
Proof.
  unfold Queries.noteRows. rewrite list_elem_of_bind. split.
  - intros (nt & Hx & Hnt). apply elem_of_List_filter in Hnt as [Hnt Hroot].
    apply Z.eqb_eq in Hroot. apply list_elem_of_bind in Hx as (n & Hx & Hn).
    apply elem_of_List_filter in Hn as [Hn Hparent]. apply eqNull_true in Hparent.
    apply list_elem_of_singleton in Hx. by exists nt, n.
  - intros (nt & n & Hnt & Hroot & Hn & Hparent & ->). exists nt. split.
    + apply list_elem_of_bind. exists n. split; [by apply list_elem_of_singleton|].
      apply elem_of_List_filter. split; [done|]. by apply eqNull_true.
    + apply elem_of_List_filter. split; [done|]. by apply Z.eqb_eq.
Qed.

(** The targets of a root item that is in [items]: the item itself and its
    child attachments. *)
Lemma elem_of_note_targets db root target :
  root ∈ Queries.allItemIds db ->
  (root, target) ∈ Queries.note_targets db
  <-> target = root \/ target ∈ Spec.attachmentIdsOf db root.
Proof.
  intros Hroot. unfold Queries.note_targets, Spec.attachmentIdsOf.
  rewrite elem_of_app, elem_of_List_map, list_elem_of_omap, elem_of_List_map. split.
  - intros [(i & [= -> ->] & _)|(ia & Hia & Hsome)]; [by left|right].
    destruct (ia_parentItemID ia) as [parent|] eqn:Hparent; [|done].
    simpl in Hsome. injection Hsome as -> <-. exists ia. split; [done|].
    apply elem_of_List_filter. split; [done|]. by apply bool_decide_eq_true.
  - intros [->|(ia & -> & Hia)].
    + left. apply elem_of_List_map in Hroot as (i & -> & Hi). by exists i.
    + right. apply elem_of_List_filter in Hia as [Hia Hparent].
      apply bool_decide_eq_true in Hparent. exists ia. split; [done|].
      by rewrite Hparent.
Qed.

Lemma noteRows_noteIdsUnder db root :
  root ∈ Queries.allItemIds db ->
  list_to_set (Queries.noteRows db root) = Spec.noteIdsUnder db root.
Proof.
  intros Hroot. apply set_eq. intros x. unfold Spec.noteIdsUnder.
  rewrite !elem_of_list_to_set, elem_of_noteRows, elem_of_List_map. split.
  - intros ([r target] & n & Hnt & Hr & Hn & Hparent & ->). simpl in *. subst r.
    exists n. split; [done|]. apply elem_of_List_filter. split; [done|].
    unfold Spec.noteUnder. rewrite Hparent.
    apply (elem_of_note_targets db root target Hroot) in Hnt as [->|Hatt].
    + by rewrite bool_decide_eq_true_2.
    + rewrite (bool_decide_eq_true_2 (target ∈ _)) by done. apply orb_true_r.
  - intros (n & -> & Hn). apply elem_of_List_filter in Hn as [Hn Hunder].
    unfold Spec.noteUnder in Hunder.
    destruct (n_parentItemID n) as [parent|] eqn:Hparent; [|done].
    exists (root, parent), n. repeat split; [|done..].
    apply elem_of_note_targets; [done|].
    apply orb_true_iff in Hunder as [Heq|Hatt].
    + left. by apply bool_decide_eq_true in Heq.
    + right. by apply bool_decide_eq_true in Hatt.
Qed.

Lemma note_values_count db root :
  root ∈ Queries.allItemIds db ->
  default 0 (Queries.note_values db root) = Spec.noteCount db root.
Proof.
  intros Hroot. unfold Spec.noteCount. rewrite <- (noteRows_noteIdsUnder db root Hroot).
  assert (Hsize : size (list_to_set (C := gset Z) (Queries.noteRows db root))
                  = length (remove_dups (Queries.noteRows db root))).
  { rewrite <- (size_list_to_set (C := gset Z) (remove_dups _)) by apply NoDup_remove_dups.
    f_equal. apply set_eq. intros x. by rewrite !elem_of_list_to_set, elem_of_remove_dups. }
  rewrite Hsize. unfold Queries.note_values.
  by destruct (Queries.noteRows db root).
Qed.

(** Every row of the summary query stems from a row of [items]. *)
Lemma baseItemSummaries_row db filtered_items row :
  row ∈ Queries.baseItemSummaries db filtered_items ->
  Queries.r_itemID row ∈ Queries.allItemIds db
  /\ Queries.r_noteCount row = Some (default 0 (Queries.note_values db (Queries.r_itemID row)))
  /\ Queries.r_pdfCount row
     = Some (default 0 (Queries.attachment_values db (Queries.r_itemID row))).
Proof.
  unfold Queries.baseItemSummaries. intros Hrow.
  apply list_elem_of_bind in Hrow as (i & Hrow & Hi).
  apply list_elem_of_bind in Hrow as (fi & Hrow & _).
  apply list_elem_of_bind in Hrow as (it & Hrow & _).
  apply list_elem_of_bind in Hrow as (ln & Hrow & _).
  apply list_elem_of_singleton in Hrow as ->. simpl. split; [|done].
  apply elem_of_List_map. by exists i.
Qed.

Variable toLowerCase : jsstring -> jsstring.

(** C5. For every row of the summary query, the mapped summary's
    [noteCount] is the number of distinct note identifiers whose parent is
    the item or one of its attachments. In the database of the tests, the
    search for [distributed] returns item [ITEM1KEY] with one PDF and two
    notes: the one on the item and the one on its attachment. *)
Theorem noteCount_counts_item_and_attachment_notes :
  toLowerCase (js "distributed") = js "distributed" ->
  (forall db filtered_items row,
      row ∈ Queries.baseItemSummaries db filtered_items ->
      sum_noteCount (Queries.mapSummary row) = Spec.noteCount db (Queries.r_itemID row))
  /\ List.map (fun s => (sum_key s, sum_hasPdf s, sum_pdfCount s, sum_noteCount s))
       (Queries.searchItems toLowerCase Samples.testDb (js "distributed") 50)
     = [(js "ITEM1KEY", true, 1, 2)].
Proof.
  intros Hlower. split.
  - intros db filtered_items row Hrow.
    apply baseItemSummaries_row in Hrow as (Hid & Hcount & _).
    unfold Queries.mapSummary. cbn [sum_noteCount]. rewrite Hcount. cbn [default].
    by apply note_values_count.
  - unfold Queries.searchItems.
    change (Str.trim (js "distributed")) with (js "distributed").
    rewrite Hlower. by vm_compute.
Qed.

(** C10, at its failing input. Item 1 of [Samples.linkDb] has one child
    attachment, a web link of content type [text/html] without a path. The
    summary counts no PDF for the item ([pdfCount = 0], [hasPdf = false]):
    neither the content type nor the path says PDF. The aggregate holds
    that attachment with [isPdf = true]: its file name falls back to
    [LINK0001.pdf], which ends in [.pdf]. The claim says the two agree. *)
Theorem pdfCount_differs_from_aggregate_without_path :
  toLowerCase (js "text/html") = js "text/html" ->
  toLowerCase (js "LINK0001.pdf") = js "link0001.pdf" ->
  List.map (fun s => (sum_pdfCount s, sum_hasPdf s))
    (Queries.getItemSummariesByIdsUnbounded Samples.linkDb [1])
  = [(0, false)]
  /\ exists item,
      Queries.getItemExportData toLowerCase Samples.linkDb 1 = Ok item
      /\ List.map (fun a => (att_filename a, att_isPdf a)) (attachments item)
         = [(Some (js "LINK0001.pdf"), true)].
Proof.
  intros Hct Hname. split; [by vm_compute|].
  eexists. split; [reflexivity|]. cbn [attachments].
  unfold Queries.getAttachmentsForItem.
  assert (Hrows :
    Sql.orderBy (fun a b => ia_itemID a.1.1 <=? ia_itemID b.1.1)
      (Queries.attachmentRows Samples.linkDb 1)
    = [({| ia_itemID := 12; ia_parentItemID := Some 1;
           ia_contentType := Some (js "text/html"); ia_linkMode := Some 3;
           ia_path := None |}, js "LINK0001", None)]) by (by vm_compute).
  rewrite Hrows. cbn [List.map]. unfold Queries.mapAttachment.
  cbn [att_filename att_isPdf ia_contentType ia_path fst snd].
  change (Queries.deriveAttachmentFilename None (js "LINK0001")) with (js "LINK0001.pdf").
  rewrite Hct, Hname. by vm_compute.
Qed.

End QueriesFacts.

(** The test database under ASCII lower-casing: the search finds item 1
    with two notes, which is the count in the words of the specification. *)
Lemma noteCount_counts_item_and_attachment_notes_witness :
  Str.toLowerCaseAscii (js "distributed") = js "distributed"
  /\ List.map (fun s => (sum_key s, sum_noteCount s))
       (Queries.searchItems Str.toLowerCaseAscii Samples.testDb (js "distributed") 50)
     = [(js "ITEM1KEY", 2)]
  /\ Spec.noteCount Samples.testDb 1 = 2.
Proof.
  split; [reflexivity|].
  destruct (noteCount_counts_item_and_attachment_notes Str.toLowerCaseAscii eq_refl)
    as [Hgeneral Htest].
  split.
  - apply (f_equal (List.map (fun t => (t.1.1.1, t.2)))) in Htest.
    rewrite List.map_map in Htest. exact Htest.
  - assert (Hrows : exists row,
               Queries.baseItemSummaries Samples.testDb [1] = [row]
               /\ Queries.r_itemID row = 1
               /\ sum_noteCount (Queries.mapSummary row) = 2).
    { eexists. split; [reflexivity|]. by split. }
    destruct Hrows as (row & Hrows & Hid & Hcount).
    rewrite <- Hid, <- (Hgeneral Samples.testDb [1] row); [exact Hcount|].
    rewrite Hrows. by apply list_elem_of_singleton.
Defined.

(** The database with the web link under ASCII lower-casing: no PDF in
    the summary, a PDF attachment in the aggregate. *)
Lemma pdfCount_differs_from_aggregate_without_path_witness :
  Str.toLowerCaseAscii (js "text/html") = js "text/html"
  /\ Str.toLowerCaseAscii (js "LINK0001.pdf") = js "link0001.pdf"
  /\ List.map sum_hasPdf (Queries.getItemSummariesByIdsUnbounded Samples.linkDb [1]) = [false]
  /\ List.map att_isPdf (Queries.getAttachmentsForItem Str.toLowerCaseAscii Samples.linkDb 1)
     = [true].
Proof.
  assert (Hct : Str.toLowerCaseAscii (js "text/html") = js "text/html") by reflexivity.
  assert (Hname : Str.toLowerCaseAscii (js "LINK0001.pdf") = js "link0001.pdf") by reflexivity.
  split; [exact Hct|]. split; [exact Hname|].
  destruct (pdfCount_differs_from_aggregate_without_path Str.toLowerCaseAscii Hct Hname)
    as [Hsummary (item & Hitem & Hpdf)].
  split.
  - apply (f_equal (List.map snd)) in Hsummary. rewrite List.map_map in Hsummary.
    exact Hsummary.
  - injection Hitem as <-. cbn [attachments] in Hpdf.
    apply (f_equal (List.map snd)) in Hpdf. rewrite List.map_map in Hpdf. exact Hpdf.
Defined.

(** ** Export orchestrator *)

Section ExporterFacts.

Context {W : Type} `{Fs.FileSystem W}.

Variable normalizeNFKD : jsstring -> jsstring.
Variable toLowerCase : jsstring -> jsstring.
Variable Date : Type.
Variable toISOString : Date -> jsstring.
Variable systemClock : W -> Date.
Variable yamlDump : Markdown.Frontmatter -> jsstring.
Variable turndown : jsstring -> jsstring.
Variable db : Db.Database.
Variable options : Exporter.ExportOptions Date.

Local Abbreviation State := (Exporter.State W).
Local Abbreviation M := (Exporter.M W).
Local Abbreviation copyAttachment :=
  (Exporter.copyAttachment normalizeNFKD Date options).
Local Abbreviation copyAttachments :=
  (Exporter.copyAttachments normalizeNFKD Date options).
Local Abbreviation writeItem :=
  (Exporter.writeItem normalizeNFKD Date toISOString systemClock yamlDump turndown options).
Local Abbreviation exportOne :=
  (Exporter.exportOne normalizeNFKD toLowerCase Date toISOString systemClock yamlDump
     turndown db options).
Local Abbreviation exportLoop :=
  (Exporter.exportLoop normalizeNFKD toLowerCase Date toISOString systemClock yamlDump
     turndown db options).
Local Abbreviation exportItems :=
  (Exporter.exportItems normalizeNFKD toLowerCase Date toISOString systemClock yamlDump
     turndown db options).
Local Abbreviation existingTargetOf := (Exporter.existingTargetOf normalizeNFKD Date options).
Local Abbreviation getItemExportData := (Queries.getItemExportData toLowerCase db).

(** *** Steps that keep the counters *)

Lemma keepsCounters_ret {A : Type} (a : A) : Exporter.keepsCounters (Exporter.ret a : M A).
Proof. done. Qed.

Lemma keepsCounters_bind {A B : Type} (m : M A) (k : A -> M B) :
  Exporter.keepsCounters m -> (forall a, Exporter.keepsCounters (k a)) ->
  Exporter.keepsCounters (Exporter.bind m k).
Proof.
  intros Hm Hk st. unfold Exporter.bind. specialize (Hm st).
  destruct (m st) as [[a|message] st']; simpl in *; [|done].
  rewrite <- Hm. apply Hk.
Qed.

Lemma keepsCounters_liftOutcome {A : Type} (o : Outcome A) :
  Exporter.keepsCounters (Exporter.liftOutcome o : M A).
Proof. done. Qed.

Lemma keepsCounters_liftFs {A : Type} (op : W -> Outcome A * W) :
  Exporter.keepsCounters (Exporter.liftFs op).
Proof. intros st. unfold Exporter.liftFs. by destruct (op (Exporter.world st)). Qed.

Lemma keepsCounters_readWorld {A : Type} (f : W -> A) :
  Exporter.keepsCounters (Exporter.readWorld f).
Proof. done. Qed.

Lemma keepsCounters_appendLine message :
  Exporter.keepsCounters (Exporter.appendLine message : M unit).
Proof. done. Qed.

Lemma keepsCounters_appendWarning warning :
  Exporter.keepsCounters (Exporter.appendWarning warning : M unit).
Proof. done. Qed.

Ltac keeps_counters :=
  repeat first
    [ apply keepsCounters_ret
    | apply keepsCounters_liftOutcome
    | apply keepsCounters_liftFs
    | apply keepsCounters_readWorld
    | apply keepsCounters_appendLine
    | apply keepsCounters_appendWarning
    | assumption
    | apply keepsCounters_bind; [|intros ?]
    | match goal with
      | |- Exporter.keepsCounters (if ?c then _ else _) => destruct c
      end ].

Lemma keepsCounters_removeFlatEntries outputRoot flatPrefix entries :
  Exporter.keepsCounters
    (Exporter.removeFlatEntries outputRoot flatPrefix entries : M unit).
Proof.
  induction entries as [|entry rest IH]; cbn [Exporter.removeFlatEntries]; keeps_counters.
Qed.

Lemma keepsCounters_removeExistingTarget outputRoot markdownPath itemFolder flatPrefix :
  Exporter.keepsCounters
    (Exporter.removeExistingTarget outputRoot markdownPath itemFolder flatPrefix : M unit).
Proof.
  unfold Exporter.removeExistingTarget. keeps_counters.
  apply keepsCounters_removeFlatEntries.
Qed.

Lemma keepsCounters_copyAttachment item outputPaths attachment names :
  Exporter.keepsCounters (copyAttachment item outputPaths attachment names).
Proof. unfold Exporter.copyAttachment. keeps_counters. Qed.

Lemma keepsCounters_copyAttachments item outputPaths selectedPdfs names :
  Exporter.keepsCounters (copyAttachments item outputPaths selectedPdfs names).
Proof.
  revert names. induction selectedPdfs as [|attachment rest IH]; intros names;
    cbn [Exporter.copyAttachments]; keeps_counters.
  - apply keepsCounters_copyAttachment.
  - apply IH.
Qed.

(** *** The body of the loop counts its item once *)

Lemma countsItem_bind {A : Type} (m : M A) (k : A -> M Exporter.LoopControl) :
  Exporter.keepsCounters m -> (forall a, Exporter.countsItem (k a)) ->
  Exporter.countsItem (Exporter.bind m k).
Proof.
  intros Hm Hk st. unfold Exporter.bind. specialize (Hm st).
  destruct (m st) as [[a|message] st']; simpl in *; [|done].
  specialize (Hk a st'). cbv zeta in Hk.
  unfold Exporter.counters in *. injection Hm as <- <- <- <-. exact Hk.
Qed.

Lemma countsItem_writeItem item outputPaths :
  Exporter.countsItem (writeItem item outputPaths).
Proof.
  unfold Exporter.writeItem.
  apply countsItem_bind; [keeps_counters|intros _].
  apply countsItem_bind; [keeps_counters|intros selectedPdfs].
  apply countsItem_bind; [apply keepsCounters_copyAttachments|intros copiedPdfNames].
  apply countsItem_bind; [keeps_counters|intros exportedAt].
  apply countsItem_bind; [keeps_counters|intros _].
  intros st. by left.
Qed.

Lemma countsItem_exportOne summary : Exporter.countsItem (exportOne summary).
Proof.
  unfold Exporter.exportOne.
  apply countsItem_bind; [keeps_counters|intros item]. cbv zeta.
  apply countsItem_bind; [keeps_counters|intros targetExists].
  destruct targetExists; [|apply countsItem_writeItem].
  apply countsItem_bind; [keeps_counters|intros decision].
  destruct decision.
  - apply countsItem_bind; [apply keepsCounters_removeExistingTarget|intros _].
    apply countsItem_writeItem.
  - intros st. by right.
  - intros st. done.
Qed.

(** *** The loop *)

Lemma exportOne_load_failure summary st message :
  getItemExportData (sum_itemId summary) = Throw message ->
  exportOne summary st = (Throw message, st).
Proof.
  intros Hload. unfold Exporter.exportOne, Exporter.bind, Exporter.liftOutcome.
  by rewrite Hload.
Qed.

Lemma exportOne_decision summary st item :
  getItemExportData (sum_itemId summary) = Ok item ->
  Exporter.pathExists (existingTargetOf item) (Exporter.world st) = true ->
  (Exporter.resolveConflict Date options (existingTargetOf item) item = Ok Cancel ->
   exportOne summary st = (Ok Exporter.Break, Exporter.mapResult Exporter.setCancelled st))
  /\ (Exporter.resolveConflict Date options (existingTargetOf item) item = Ok Skip ->
      exportOne summary st = (Ok Exporter.Proceed, Exporter.mapResult Exporter.incSkipped st)).
Proof.
  intros Hload Hexists.
  unfold Exporter.exportOne, Exporter.bind, Exporter.liftOutcome, Exporter.readWorld.
  rewrite Hload. cbv zeta. rewrite Hexists. split; intros ->; reflexivity.
Qed.

Lemma exportOne_throw_keeps_counters summary st message st' :
  exportOne summary st = (Throw message, st') ->
  Exporter.counters (Exporter.result st') = Exporter.counters (Exporter.result st).
Proof.
  intros Hthrow. pose proof (countsItem_exportOne summary st) as Hcount.
  cbv zeta in Hcount. by rewrite Hthrow in Hcount.
Qed.

(** While no item cancels the batch, the loop handles its items one after
    the other. *)
Lemma exportLoop_app pre post st :
  cancelled (Exporter.result st) = false ->
  cancelled (Exporter.result (exportLoop pre st)) = false ->
  exportLoop (pre ++ post) st = exportLoop post (exportLoop pre st).
Proof.
  revert st. induction pre as [|summary pre IH]; intros st Hstart Hend; [done|].
  cbn [app Exporter.exportLoop] in *.
  pose proof (countsItem_exportOne summary st) as Hcount. cbv zeta in Hcount.
  destruct (exportOne summary st) as [[[]|message] st1]; cbn [fst snd] in Hcount;
    unfold Exporter.counters in Hcount.
  - apply IH; [|done]. destruct Hcount as [Hcount|Hcount]; injection Hcount; congruence.
  - injection Hcount as _ _ _ Hflag. congruence.
  - apply IH; [|done]. injection Hcount as _ _ _ Hflag. cbn. congruence.
Qed.

(** Every item of a batch that is not cancelled is counted once: as
    exported, as skipped or as failed. *)
Lemma exportLoop_accounts itemSummaries st :
  cancelled (Exporter.result st) = false ->
  cancelled (Exporter.result (exportLoop itemSummaries st)) = false ->
  exported (Exporter.result (exportLoop itemSummaries st))
  + skipped (Exporter.result (exportLoop itemSummaries st))
  + failed (Exporter.result (exportLoop itemSummaries st))
  = exported (Exporter.result st) + skipped (Exporter.result st)
    + failed (Exporter.result st) + Z.of_nat (length itemSummaries).
Proof.
  revert st. induction itemSummaries as [|summary rest IH]; intros st Hstart Hend.
  - cbn. lia.
  - cbn [Exporter.exportLoop] in *.
    pose proof (countsItem_exportOne summary st) as Hcount. cbv zeta in Hcount.
    destruct (exportOne summary st) as [[[]|message] st1]; cbn [fst snd] in Hcount;
      unfold Exporter.counters in Hcount.
    + rewrite IH; [|destruct Hcount as [Hc|Hc]; injection Hc; congruence|done].
      cbn [length]. destruct Hcount as [Hc|Hc]; injection Hc as He Hs Hf _; lia.
    + injection Hcount as _ _ _ Hflag. congruence.
    + injection Hcount as He Hs Hf Hflag.
      rewrite IH; [|cbn; congruence|done]. cbn [length]. cbn. lia.
Qed.

(** C1. An exception raised while one item is processed (the failure to
    load an item whose base row is missing is one) is caught at the item:
    the loop counts the item as failed, logs the error and goes on with the
    next item, and the counters other than [failed] are as they were before
    the item. Once the output root is made, [exportItems] returns a result
    whatever happens to the items, and in a result that is not cancelled
    every item is counted once. *)
Theorem exportItems_isolates_item_failures :
  (forall summary rest st message st',
      exportOne summary st = (Throw message, st') ->
      exportLoop (summary :: rest) st
      = exportLoop rest (Exporter.recordFailure summary message st')
      /\ Exporter.counters (Exporter.result (Exporter.recordFailure summary message st'))
         = (exported (Exporter.result st), skipped (Exporter.result st),
            failed (Exporter.result st) + 1, cancelled (Exporter.result st)))
  /\ (forall summary st message,
         getItemExportData (sum_itemId summary) = Throw message ->
         exportOne summary st = (Throw message, st))
  /\ (forall itemSummaries w w' channel,
         Fs.mkdirRecursive (Exporter.outputRootPath Date options) w = (Ok tt, w') ->
         exists st,
           exportItems itemSummaries w channel = (Ok (Exporter.result st), st)
           /\ (cancelled (Exporter.result st) = false ->
               exported (Exporter.result st) + skipped (Exporter.result st)
               + failed (Exporter.result st) = Z.of_nat (length itemSummaries))).
Proof.
  split; [|split].
  - intros summary rest st message st' Hthrow. split.
    + cbn [Exporter.exportLoop]. by rewrite Hthrow.
    + apply exportOne_throw_keeps_counters in Hthrow. unfold Exporter.counters in *.
      injection Hthrow as <- <- <- <-. reflexivity.
  - intros summary st message. apply exportOne_load_failure.
  - intros itemSummaries w w' channel Hmkdir. unfold Exporter.exportItems. rewrite Hmkdir.
    eexists. split; [reflexivity|]. intros Hflag.
    rewrite exportLoop_accounts by done. cbn. lia.
Qed.

(** C2. When the conflict decision for an item is [cancel], the loop ends
    there: the state it returns is the one the earlier items left, with the
    [cancelled] flag set. No counter changes for the item, the world and
    the log are untouched, and the items after it are not looked at. *)
Theorem exportItems_cancel_stops_batch pre summary post st item :
  cancelled (Exporter.result st) = false ->
  cancelled (Exporter.result (exportLoop pre st)) = false ->
  getItemExportData (sum_itemId summary) = Ok item ->
  Exporter.pathExists (existingTargetOf item) (Exporter.world (exportLoop pre st)) = true ->
  Exporter.resolveConflict Date options (existingTargetOf item) item = Ok Cancel ->
  exportLoop (pre ++ summary :: post) st
  = Exporter.mapResult Exporter.setCancelled (exportLoop pre st)
  /\ cancelled (Exporter.result (exportLoop (pre ++ summary :: post) st)) = true
  /\ exported (Exporter.result (exportLoop (pre ++ summary :: post) st))
     = exported (Exporter.result (exportLoop pre st))
  /\ skipped (Exporter.result (exportLoop (pre ++ summary :: post) st))
     = skipped (Exporter.result (exportLoop pre st))
  /\ failed (Exporter.result (exportLoop (pre ++ summary :: post) st))
     = failed (Exporter.result (exportLoop pre st)).
Proof.
  intros Hstart Hpre Hload Hexists Hcancel.
  assert (Hloop : exportLoop (pre ++ summary :: post) st
                  = Exporter.mapResult Exporter.setCancelled (exportLoop pre st)).
  { rewrite exportLoop_app by done. cbn [Exporter.exportLoop].
    destruct (exportOne_decision summary (exportLoop pre st) item Hload Hexists)
      as [Hbreak _].
    by rewrite (Hbreak Hcancel). }
  rewrite Hloop. by repeat split.
Qed.

(** C3. When the target of an item exists and the conflict decision is
    [skip], processing the item touches nothing in the world (so neither
    the target nor anything in it), adds one to [skipped] and leaves
    [exported], [failed], the flag, the warnings and the log as they
    were; the loop goes on with the next item. *)
Theorem exportItems_skip_leaves_target summary rest st item :
  getItemExportData (sum_itemId summary) = Ok item ->
  Exporter.pathExists (existingTargetOf item) (Exporter.world st) = true ->
  Exporter.resolveConflict Date options (existingTargetOf item) item = Ok Skip ->
  exists st',
    exportOne summary st = (Ok Exporter.Proceed, st')
    /\ exportLoop (summary :: rest) st = exportLoop rest st'
    /\ Exporter.world st' = Exporter.world st
    /\ skipped (Exporter.result st') = skipped (Exporter.result st) + 1
    /\ exported (Exporter.result st') = exported (Exporter.result st)
    /\ failed (Exporter.result st') = failed (Exporter.result st)
    /\ cancelled (Exporter.result st') = cancelled (Exporter.result st)
    /\ warnings (Exporter.result st') = warnings (Exporter.result st)
    /\ Exporter.outputChannel st' = Exporter.outputChannel st.
Proof.
  intros Hload Hexists Hskip.
  destruct (exportOne_decision summary st item Hload Hexists) as [_ Hproceed].
  specialize (Hproceed Hskip).
  exists (Exporter.mapResult Exporter.incSkipped st). split; [done|].
  split; [|by repeat split]. cbn [Exporter.exportLoop]. by rewrite Hproceed.
Qed.

(** *** Attachment sources *)

Lemma isAbsolute_not_storage p :
  Path.isAbsolute p = true -> Str.startsWith (js "storage:") p = false /\ truthy (Some p) = true.
Proof.
  destruct p as [|c p]; [done|]. cbn [Path.isAbsolute]. unfold Path.isSlash.
  intros Hc. apply N.eqb_eq in Hc as ->. done.
Qed.

Lemma isDriveLetterPath_not_storage p :
  Exporter.isDriveLetterPath p = true ->
  Str.startsWith (js "storage:") p = false /\ truthy (Some p) = true.
Proof.
  destruct p as [|a [|b [|c p]]]; try done. cbn [Exporter.isDriveLetterPath].
  rewrite !andb_true_iff. intros [[_ Hb] _]. apply N.eqb_eq in Hb as ->.
  split; [|done]. change (js "storage:") with (115%N :: 116%N :: js "orage:").
  cbn [Str.startsWith]. by rewrite andb_false_r.
Qed.

Lemma resolve_storage storagePath attachment rel :
  att_path attachment = Some (js "storage:" ++ rel) ->
  Exporter.resolveAttachmentSourcePath storagePath attachment
  = Some (Path.join
            [storagePath; att_key attachment;
             Str.orElse (Str.dropWhile Char.isSeparator rel)
               (Str.orElse (default [] (att_filename attachment))
                  (att_key attachment ++ js ".pdf"))]).
Proof.
  intros Hpath. unfold Exporter.resolveAttachmentSourcePath. rewrite Hpath.
  assert (Hstarts : Str.startsWith (js "storage:") (js "storage:" ++ rel) = true)
    by (apply startsWith_spec; eauto).
  cbn [from_option id]. rewrite Hstarts.
  replace (drop (length (js "storage:")) (js "storage:" ++ rel)) with rel
    by (by rewrite drop_app_length).
  done.
Qed.

Lemma resolve_passes_through storagePath attachment p :
  att_path attachment = Some p ->
  Path.isAbsolute p = true \/ Exporter.isDriveLetterPath p = true ->
  Exporter.resolveAttachmentSourcePath storagePath attachment = Some p.
Proof.
  intros Hpath Hshape. unfold Exporter.resolveAttachmentSourcePath. rewrite Hpath.
  cbn [from_option id]. destruct Hshape as [Habs|Hdrive].
  - destruct (isAbsolute_not_storage p Habs) as [-> ->]. cbn [negb]. by rewrite Habs.
  - destruct (isDriveLetterPath_not_storage p Hdrive) as [-> ->]. cbn [negb].
    rewrite Hdrive. by destruct (Path.isAbsolute p).
Qed.

Lemma resolve_unsupported storagePath attachment :
  (att_path attachment = None
   \/ exists p, att_path attachment = Some p
                /\ Str.startsWith (js "storage:") p = false
                /\ Path.isAbsolute p = false
                /\ Exporter.isDriveLetterPath p = false) ->
  Exporter.resolveAttachmentSourcePath storagePath attachment = None.
Proof.
  unfold Exporter.resolveAttachmentSourcePath.
  intros [->|(p & -> & Hstorage & Habs & Hdrive)]; [done|].
  cbn [from_option id]. rewrite Hstorage, Habs, Hdrive. by destruct (negb _).
Qed.

(** C6. The source path of an attachment: after the [storage:] prefix, the
    rest of the path without its leading separators is joined to the
    storage root and the attachment key (when nothing is left, the file
    name of the attachment, or [<key>.pdf], stands in); an absolute POSIX
    path and a Windows drive-letter path are returned as they are; for any
    other shape there is no source path. An attachment without a source
    path gets a warning and is passed over: the world and the list of
    copied names stay as they were, nothing is thrown, no counter moves,
    and the loop goes on with the next attachment. *)
Theorem resolveAttachmentSourcePath_shapes :
  (forall storagePath attachment rel,
      att_path attachment = Some (js "storage:" ++ rel) ->
      (Str.dropWhile Char.isSeparator rel <> [] ->
       Exporter.resolveAttachmentSourcePath storagePath attachment
       = Some (Path.join [storagePath; att_key attachment;
                          Str.dropWhile Char.isSeparator rel]))
      /\ (Str.dropWhile Char.isSeparator rel = [] ->
          Exporter.resolveAttachmentSourcePath storagePath attachment
          = Some (Path.join [storagePath; att_key attachment;
                             Str.orElse (default [] (att_filename attachment))
                               (att_key attachment ++ js ".pdf")])))
  /\ (forall storagePath attachment p,
         att_path attachment = Some p ->
         Path.isAbsolute p = true \/ Exporter.isDriveLetterPath p = true ->
         Exporter.resolveAttachmentSourcePath storagePath attachment = Some p)
  /\ (forall storagePath attachment,
         (att_path attachment = None
          \/ exists p, att_path attachment = Some p
                       /\ Str.startsWith (js "storage:") p = false
                       /\ Path.isAbsolute p = false
                       /\ Exporter.isDriveLetterPath p = false) ->
         Exporter.resolveAttachmentSourcePath storagePath attachment = None)
  /\ (forall item outputPaths attachment rest names st,
         Exporter.resolveAttachmentSourcePath (Exporter.storagePath Date options) attachment
         = None ->
         let warning :=
           js "Item " ++ key item ++ js ": unsupported attachment path format for "
           ++ default (att_key attachment) (att_filename attachment) in
         let st' :=
           Exporter.logLine (js "[warning] " ++ warning)
             (Exporter.mapResult (Exporter.pushWarning warning) st) in
         copyAttachment item outputPaths attachment names st = (Ok names, st')
         /\ copyAttachments item outputPaths (attachment :: rest) names st
            = copyAttachments item outputPaths rest names st'
         /\ Exporter.world st' = Exporter.world st
         /\ Exporter.counters (Exporter.result st') = Exporter.counters (Exporter.result st)
         /\ warnings (Exporter.result st') = warnings (Exporter.result st) ++ [warning]).
Proof.
  split; [|split; [|split]].
  - intros storagePath attachment rel Hpath. rewrite (resolve_storage _ _ rel Hpath).
    split; intros Hrel.
    + by destruct (Str.dropWhile Char.isSeparator rel).
    + by rewrite Hrel.
  - apply resolve_passes_through.
  - apply resolve_unsupported.
  - intros item outputPaths attachment rest names st Hnone warning st'.
    assert (Hone : copyAttachment item outputPaths attachment names st = (Ok names, st')).
    { unfold Exporter.copyAttachment. rewrite Hnone. reflexivity. }
    split; [done|]. split; [|done].
    cbn [Exporter.copyAttachments]. unfold Exporter.bind at 1. by rewrite Hone.
Qed.

End ExporterFacts.

(** *** The theorems of the orchestrator, in the in-memory filesystem *)

(** A batch of a stale summary and item 1, whose folder exists, under the
    policy [skip]: the stale item fails, item 1 is skipped. And a batch of
    items 1 and 2 in the year-item layout, where a file stands in the place
    of the year folder of item 1: making the folder throws, item 1 fails and
    item 2 is exported. *)
Lemma exportItems_isolates_item_failures_witness :
  Queries.getItemExportData Str.toLowerCaseAscii Samples.testDb 7
  = Throw (js "Could not load Zotero item 7.")
  /\ Exporter.counters
       (Exporter.result
          (Samples.sampleLoop Samples.testDb ItemFolder Skip
             [Samples.staleSummary; Samples.summary1]
             (Samples.startState Samples.exportedWorld)))
     = (0, 1, 1, false)
  /\ Exporter.counters
       (Exporter.result
          (Samples.sampleLoop Samples.testDb YearItem Skip
             [Samples.summary1; Samples.summary2]
             (Samples.startState Samples.blockedWorld)))
     = (1, 0, 1, false).
Proof.
  assert (Hmissing : Queries.getItemExportData Str.toLowerCaseAscii Samples.testDb
                       (sum_itemId Samples.staleSummary)
                     = Throw (js "Could not load Zotero item 7.")) by reflexivity.
  split; [exact Hmissing|]. split.
  - destruct (exportItems_isolates_item_failures (fun s => s) Str.toLowerCaseAscii unit
                Samples.isoString (fun _ => tt) Samples.yamlStub (fun html => html)
                Samples.testDb (Samples.fixedOptions ItemFolder Skip))
      as (Hcatch & Hload & _).
    pose proof (Hload Samples.staleSummary (Samples.startState Samples.exportedWorld)
                  _ Hmissing) as Hthrow.
    destruct (Hcatch _ [Samples.summary1] _ _ _ Hthrow) as [Hloop _].
    unfold Samples.sampleLoop. rewrite Hloop. by vm_compute.
  - destruct (exportItems_isolates_item_failures (fun s => s) Str.toLowerCaseAscii unit
                Samples.isoString (fun _ => tt) Samples.yamlStub (fun html => html)
                Samples.testDb (Samples.fixedOptions YearItem Skip))
      as (Hcatch & _).
    eassert (Hthrow : Exporter.exportOne (fun s => s) Str.toLowerCaseAscii unit
                        Samples.isoString (fun _ => tt) Samples.yamlStub (fun html => html)
                        Samples.testDb (Samples.fixedOptions YearItem Skip) Samples.summary1
                        (Samples.startState Samples.blockedWorld)
                      = (Throw (js "EEXIST: file already exists"), _))
      by (vm_compute; reflexivity).
    destruct (Hcatch _ [Samples.summary2] _ _ _ Hthrow) as [Hloop _].
    unfold Samples.sampleLoop. rewrite Hloop. by vm_compute.
Defined.

(** The same batch followed by item 2, under the policy [cancel]: the
    stale item fails, item 1 cancels the batch, item 2 is not exported and
    the world is as it was. *)
Lemma exportItems_cancel_stops_batch_witness :
  let st := Samples.sampleLoop Samples.testDb ItemFolder Cancel
              [Samples.staleSummary; Samples.summary1; Samples.summary2]
              (Samples.startState Samples.exportedWorld) in
  Exporter.counters (Exporter.result st) = (0, 0, 1, true)
  /\ Exporter.world st = Samples.exportedWorld.
Proof.
  eassert (Hitem : Queries.getItemExportData Str.toLowerCaseAscii Samples.testDb
                     (sum_itemId Samples.summary1) = Ok _) by reflexivity.
  destruct (exportItems_cancel_stops_batch (fun s => s) Str.toLowerCaseAscii unit
              Samples.isoString (fun _ => tt) Samples.yamlStub (fun html => html)
              Samples.testDb (Samples.fixedOptions ItemFolder Cancel)
              [Samples.staleSummary] Samples.summary1 [Samples.summary2]
              (Samples.startState Samples.exportedWorld) _
              eq_refl ltac:(by vm_compute) Hitem ltac:(by vm_compute) eq_refl)
    as (Hloop & _).
  cbv zeta. unfold Samples.sampleLoop.
  change ([Samples.staleSummary; Samples.summary1; Samples.summary2])
    with ([Samples.staleSummary] ++ Samples.summary1 :: [Samples.summary2]).
  rewrite Hloop. by vm_compute.
Defined.

(** Item 1, whose folder exists, under the policy [skip]: the folder and
    the file in it are as they were, [skipped] is 1 and [exported] 0. *)
Lemma exportItems_skip_leaves_target_witness :
  let st := Samples.sampleLoop Samples.testDb ItemFolder Skip [Samples.summary1]
              (Samples.startState Samples.exportedWorld) in
  Exporter.world st = Samples.exportedWorld
  /\ Exporter.world st !! js "/out/ITEM1KEY-Distributed-Cognition/item.md"
     = Some (MemFs.File (js "# kept"))
  /\ skipped (Exporter.result st) = 1
  /\ exported (Exporter.result st) = 0.
Proof.
  eassert (Hitem : Queries.getItemExportData Str.toLowerCaseAscii Samples.testDb
                     (sum_itemId Samples.summary1) = Ok _) by reflexivity.
  destruct (exportItems_skip_leaves_target (fun s => s) Str.toLowerCaseAscii unit
              Samples.isoString (fun _ => tt) Samples.yamlStub (fun html => html)
              Samples.testDb (Samples.fixedOptions ItemFolder Skip)
              Samples.summary1 [] (Samples.startState Samples.exportedWorld) _
              Hitem ltac:(by vm_compute) eq_refl)
    as (st' & _ & Hloop & Hworld & Hskipped & Hexported & _).
  cbv zeta. unfold Samples.sampleLoop. rewrite Hloop. cbn [Exporter.exportLoop].
  rewrite Hworld, Hskipped, Hexported. by vm_compute.
Defined.

(** An attachment in the storage resolves under the storage root and its
    key; an attachment with a path relative to a base directory has no
    source path. The item of such an attachment is exported, with a
    warning and without a copied file. *)
Lemma resolveAttachmentSourcePath_shapes_witness :
  Exporter.resolveAttachmentSourcePath (js "/zotero/storage") Samples.storedAttachment
  = Some (js "/zotero/storage/ATTACH1/paper.pdf")
  /\ Exporter.resolveAttachmentSourcePath (js "/zotero/storage") Samples.relativeAttachment
     = None
  /\ (let st := Samples.sampleLoop Samples.relativePathDb ItemFolder Overwrite
                  [Samples.paperSummary] (Samples.startState Samples.emptyWorld) in
      Exporter.counters (Exporter.result st) = (1, 0, 0, false)
      /\ warnings (Exporter.result st)
         = [js "Item ITEM0001: unsupported attachment path format for paper.pdf"]
      /\ MemFs.isFile (Exporter.world st) (js "/out/ITEM0001-A-Paper/item.md") = true
      /\ size (Exporter.world st) = 4%nat).
Proof.
  destruct (resolveAttachmentSourcePath_shapes (W := MemFs.Tree) (fun s => s) unit
              (Samples.fixedOptions ItemFolder Skip)) as (Hstorage & _ & Hnone & _).
  split; [|split].
  - destruct (Hstorage (js "/zotero/storage") Samples.storedAttachment (js "paper.pdf")
                eq_refl) as [Hrel _].
    rewrite Hrel; [reflexivity|done].
  - apply Hnone. right. exists (js "attachments:papers/paper.pdf"). by repeat split.
  - by vm_compute.
Defined.

(** The document of an item without highlights and notes. *)
Lemma buildMarkdown_empty_sections_witness :
  Markdown.highlights unit Samples.barePayload = []
  /\ Markdown.notes unit Samples.barePayload = []
  /\ Str.occursIn (js "## Highlights" ++ js LF ++ js LF ++ js "None")
       (Markdown.buildMarkdown unit Samples.isoString Samples.yamlStub Samples.barePayload)
  /\ Str.occursIn (js "## Notes" ++ js LF ++ js LF ++ js "None")
       (Markdown.buildMarkdown unit Samples.isoString Samples.yamlStub Samples.barePayload).
Proof.
  split; [reflexivity|]. split; [reflexivity|].
  apply (buildMarkdown_empty_sections unit Samples.isoString Samples.yamlStub
           Samples.barePayload); reflexivity.
Defined.

(** ** Names that are safe to write *)

Section SafeNameFacts.

Variable normalizeNFKD : jsstring -> jsstring.

Local Abbreviation sanitizeSegment := (Naming.sanitizeSegment normalizeNFKD).
Local Abbreviation sanitizeFilename := (Naming.sanitizeFilename normalizeNFKD).

Lemma hasDoubled_app p u v :
  Shape.hasDoubled p (u ++ v) = false ->
  Shape.hasDoubled p u = false /\ Shape.hasDoubled p v = false.
Proof.
  induction u as [|a u IH]; [done|].
  destruct u as [|b u].
  - cbn [app]. destruct v as [|b v]; [done|].
    cbn [Shape.hasDoubled]. intros Hd. by apply orb_false_elim in Hd as [_ Hd].
  - cbn [app Shape.hasDoubled] in *. intros Hd.
    apply orb_false_elim in Hd as [Hab Hd]. destruct (IH Hd) as [Hu Hv].
    by rewrite Hab, Hu.
Qed.

Lemma replaceRuns_no_doubled p r s :
  p r = true -> Shape.hasDoubled p (Str.replaceRuns p r s) = false.
Proof.
  intros Hr. induction s as [|c s IH]; [done|].
  destruct (p c) eqn:Hc.
  - destruct s as [|c' s]; [by cbn [Str.replaceRuns]; rewrite Hc|].
    change (Str.replaceRuns p r (c :: c' :: s))
      with (if p c then
              if p c' then Str.replaceRuns p r (c' :: s)
              else r :: Str.replaceRuns p r (c' :: s)
            else c :: Str.replaceRuns p r (c' :: s)).
    rewrite Hc. destruct (p c') eqn:Hc'; [done|].
    change (Str.replaceRuns p r (c' :: s)) with
      (if p c' then match s with
                    | c'' :: _ => if p c'' then Str.replaceRuns p r s
                                  else r :: Str.replaceRuns p r s
                    | [] => [r]
                    end
       else c' :: Str.replaceRuns p r s) in *.
    rewrite Hc' in *. cbn [Shape.hasDoubled] in *. by rewrite IH, Hc', andb_false_r.
  - change (Str.replaceRuns p r (c :: s)) with
      (if p c then match s with
                   | c'' :: _ => if p c'' then Str.replaceRuns p r s
                                 else r :: Str.replaceRuns p r s
                   | [] => [r]
                   end
       else c :: Str.replaceRuns p r s).
    rewrite Hc. destruct (Str.replaceRuns p r s) as [|b t]; [done|].
    cbn [Shape.hasDoubled]. by rewrite Hc.
Qed.

Lemma stripEnds_no_doubled p q s :
  Shape.hasDoubled p s = false -> Shape.hasDoubled p (Str.stripEnds q s) = false.
Proof.
  intros Hs. unfold Str.stripEnds.
  destruct (dropWhile_suffix q s) as (u & Hu & _).
  destruct (dropWhileEnd_prefix q (Str.dropWhile q s)) as (v & Hv & _).
  rewrite Hu in Hs. apply hasDoubled_app in Hs as [_ Hs].
  rewrite Hv in Hs. by apply hasDoubled_app in Hs as [Hs _].
Qed.

(** X1. Whatever the input, a sanitized segment holds only letters,
    digits, dots, underscores and hyphens, no two hyphens in a row, at
    most [MAX_SLUG_LENGTH] characters, and starts with neither a hyphen
    nor a dot; it ends with neither of them unless it was cut at the
    maximal length. *)
Theorem sanitizeSegment_guarantees input :
  Forall (fun c => Char.isSlugChar c = true) (sanitizeSegment input)
  /\ Shape.hasDoubled Char.isHyphen (sanitizeSegment input) = false
  /\ (length (sanitizeSegment input) <= Naming.MAX_SLUG_LENGTH)%nat
  /\ from_option Char.isHyphenOrDot false (head (sanitizeSegment input)) = false
  /\ (length (sanitizeSegment input) = Naming.MAX_SLUG_LENGTH
      \/ from_option Char.isHyphenOrDot false (last (sanitizeSegment input)) = false).
Proof.
  split; [apply sanitizeSegment_chars|].
  split.
  { unfold Naming.sanitizeSegment. cbv zeta.
    set (s6 := Str.stripEnds _ _).
    assert (Hs6 : Shape.hasDoubled Char.isHyphen s6 = false).
    { apply stripEnds_no_doubled. by apply replaceRuns_no_doubled. }
    rewrite <- (take_drop Naming.MAX_SLUG_LENGTH s6) in Hs6.
    by apply hasDoubled_app in Hs6 as [Hs6 _]. }
  split; [apply sanitizeSegment_length|].
  split.
  { destruct (head (sanitizeSegment input)) as [c|] eqn:Hhead; [|done].
    exact (sanitizeSegment_head _ _ _ Hhead). }
  pose proof (sanitizeSegment_length normalizeNFKD input) as Hlen.
  destruct (decide (length (sanitizeSegment input) = Naming.MAX_SLUG_LENGTH))
    as [Heq|Hne]; [by left|right].
  destruct (last (sanitizeSegment input)) as [c|] eqn:Hlast; [|done].
  apply (sanitizeSegment_last_uncut normalizeNFKD input c); [lia|done].
Qed.

Lemma slugChar_not_slash c : Char.isSlugChar c = true -> Path.isSlash c = false.
Proof.
  intros Hc. unfold Path.isSlash. destruct (N.eqb_spec c Char.slash) as [->|]; done.
Qed.

Lemma extChar_slugChar c : Char.isExtChar c = true -> Char.isSlugChar c = true.
Proof.
  unfold Char.isExtChar, Char.isSlugChar. intros Hc.
  apply orb_true_iff in Hc as [->| ->]; [done|]. by rewrite !orb_true_r.
Qed.

Lemma sanitizeFilename_chars filename :
  Forall (fun c => Char.isSlugChar c = true) (sanitizeFilename filename).
Proof.
  unfold Naming.sanitizeFilename. cbv zeta. apply Forall_app. split.
  - destruct (sanitizeSegment _) as [|c s] eqn:Hseg.
    + cbn [Str.orElse]. by repeat constructor.
    + cbn [Str.orElse]. rewrite <- Hseg. apply sanitizeSegment_chars.
  - eapply Forall_impl; [apply filter_Forall_true|]. apply extChar_slugChar.
Qed.

Lemma sanitizeFilename_head filename :
  exists c rest, sanitizeFilename filename = c :: rest /\ Char.isHyphenOrDot c = false.
Proof.
  unfold Naming.sanitizeFilename. cbv zeta.
  destruct (sanitizeSegment _) as [|c s] eqn:Hseg.
  - cbn [Str.orElse]. by eexists _, _.
  - cbn [Str.orElse app]. exists c, (s ++ List.filter Char.isExtChar
                                          (Path.ext (Path.parse filename))).
    split; [done|]. apply (sanitizeSegment_head normalizeNFKD (Path.name (Path.parse filename))).
    by rewrite Hseg.
Qed.

Lemma sanitizeFilename_plainName filename : Path.plainName (sanitizeFilename filename).
Proof.
  pose proof (sanitizeFilename_chars filename) as Hchars.
  destruct (sanitizeFilename_head filename) as (c & rest & Hout & Hc).
  split; [by rewrite Hout|]. split.
  { eapply Forall_impl; [exact Hchars|]. apply slugChar_not_slash. }
  rewrite Hout. split; intros Heq; injection Heq as -> _; done.
Qed.

(** X2. A sanitized file name is a plain file name, whatever the name of
    the source file: it is not empty, holds only letters, digits, dots,
    underscores and hyphens (so no slash and no backslash), and does not
    start with a dot or a hyphen (so it is neither [.] nor [..]). *)
Theorem sanitizeFilename_plain filename :
  Forall (fun c => Char.isSlugChar c = true) (sanitizeFilename filename)
  /\ from_option Char.isHyphenOrDot true (head (sanitizeFilename filename)) = false
  /\ Forall (fun c => Char.isSeparator c = false) (sanitizeFilename filename)
  /\ Path.plainName (sanitizeFilename filename).
Proof.
  pose proof (sanitizeFilename_chars filename) as Hchars.
  destruct (sanitizeFilename_head filename) as (c & rest & Hout & Hc).
  split; [done|]. split; [by rewrite Hout|].
  split; [|apply sanitizeFilename_plainName].
  eapply Forall_impl; [exact Hchars|]. intros x Hx. cbv beta in Hx.
  unfold Char.isSeparator.
  destruct (N.eqb_spec x Char.slash) as [->|]; [done|].
  destruct (N.eqb_spec x Char.backslash) as [->|]; done.
Qed.

End SafeNameFacts.

(** ** Where the copied files go *)

Section TargetPathFacts.

Context {W : Type} `{Fs.FileSystem W}.

Variable normalizeNFKD : jsstring -> jsstring.

Lemma dropWhileEnd_keep p s :
  from_option p false (last s) = false -> Str.dropWhileEnd p s = s.
Proof.
  intros Hlast. unfold Str.dropWhileEnd.
  rewrite <- (rev_involutive s) in Hlast. rewrite last_rev in Hlast.
  destruct (rev s) as [|c t] eqn:Hrev.
  - cbn [Str.dropWhile]. by rewrite <- (rev_involutive s), Hrev.
  - cbn [head from_option] in Hlast. cbn [Str.dropWhile]. rewrite Hlast.
    by rewrite <- Hrev, rev_involutive.
Qed.

Lemma splitLast_plain p b :
  Forall (fun c => p c = false) b -> Path.splitLast p b = (None, b).
Proof.
  induction 1 as [|c b Hc _ IH]; [done|].
  cbn [Path.splitLast]. by rewrite IH, Hc.
Qed.

Lemma splitLast_app_plain p d c b :
  p c = true -> Forall (fun c => p c = false) b ->
  Path.splitLast p (d ++ c :: b) = (Some d, b).
Proof.
  intros Hc Hb. induction d as [|x d IH].
  - cbn [app Path.splitLast]. by rewrite (splitLast_plain p b Hb), Hc.
  - cbn [app Path.splitLast]. by rewrite IH.
Qed.

Lemma last_app_cons {A : Type} (u : list A) c v : last (u ++ c :: v) = last (c :: v).
Proof. induction u as [|x [|y u] IH]; [done|done|]. exact IH. Qed.

Lemma plainName_last b :
  Path.plainName b -> from_option Path.isSlash false (last b) = false.
Proof.
  intros (Hne & Hall & _). destruct (last b) as [c|] eqn:Hlast; [|done].
  apply last_Some in Hlast as (u & ->). apply Forall_app in Hall as [_ Hall].
  by inversion Hall.
Qed.

(** The base name of a plain file name that follows a slash, or nothing. *)
Lemma basename_after_slash prefix b :
  prefix = [] \/ (exists d, prefix = d ++ js "/") ->
  Path.plainName b -> Path.basename (prefix ++ b) = b.
Proof.
  intros Hprefix Hb. pose proof Hb as (Hne & Hall & _).
  unfold Path.basename. rewrite dropWhileEnd_keep.
  - destruct Hprefix as [->|(d & ->)].
    + cbn [app]. by rewrite splitLast_plain.
    + rewrite <- app_assoc. cbn [js list_ascii_of_string List.map app].
      by rewrite splitLast_app_plain.
  - destruct b as [|c b']; [done|]. rewrite last_app_cons.
    by apply plainName_last.
Qed.

(** Normalizing a path that ends with a plain file name after a slash:
    the root, the segments that are left of what precedes the name, and
    the name. *)
Lemma normalize_dir_plain_exact d0 dir b :
  Path.plainName b ->
  Path.normalize ((d0 :: dir) ++ Char.slash :: b)
  = ((if Path.isSlash d0 then js "/" else [])
     ++ match rev (fold_left (Path.pushSegment (negb (Path.isSlash d0)))
                     (Str.split Path.isSlash (d0 :: dir)) []) with
        | [] => []
        | l => Path.intercalate (js "/") l ++ js "/"
        end) ++ b.
Proof.
  set (stack := rev (fold_left (Path.pushSegment (negb (Path.isSlash d0)))
                       (Str.split Path.isSlash (d0 :: dir)) [])).
  intros Hb. pose proof Hb as (Hne & Hall & _).
  assert (Hends : Str.endsWith (js "/") (d0 :: dir ++ Char.slash :: b) = false).
  { replace (d0 :: dir ++ Char.slash :: b) with ((d0 :: dir ++ [Char.slash]) ++ b)
      by (cbn [app]; by rewrite <- app_assoc).
    by apply endsWith_slash_plain. }
  unfold Path.normalize. cbn [app]. rewrite Hends.
  cbn [Path.isAbsolute]. unfold Path.normalizeString.
  change (d0 :: dir ++ Char.slash :: b) with ((d0 :: dir) ++ Char.slash :: b).
  rewrite split_app_sep by done. rewrite (split_plain _ _ Hall).
  rewrite normalize_body_plain by done. fold stack.
  destruct stack as [|x l].
  - destruct b as [|c b']; [done|]. by rewrite !app_nil_r.
  - set (body := Path.intercalate (js "/") (x :: l) ++ js "/" ++ b).
    assert (Hbody : body <> []).
    { unfold body. intros Heq. by apply app_eq_nil in Heq as [_ Heq]. }
    destruct body as [|c body'] eqn:Ebody; [done|].
    rewrite app_nil_r. rewrite <- Ebody. unfold body. by rewrite <- !app_assoc.
Qed.

Lemma normalize_dir_plain_slash d0 dir :
  exists prefix,
    (prefix = [] \/ exists d, prefix = d ++ js "/")
    /\ forall b,
        Path.plainName b -> Path.normalize ((d0 :: dir) ++ Char.slash :: b) = prefix ++ b.
Proof.
  eexists. split; [|intros b Hb; by apply normalize_dir_plain_exact].
  destruct (rev _) as [|x l].
  - destruct (Path.isSlash d0); [right; by exists []|by left].
  - right. exists ((if Path.isSlash d0 then js "/" else [])
                   ++ Path.intercalate (js "/") (x :: l)).
    by rewrite <- app_assoc.
Qed.

(** The base name of a directory joined with a plain file name is that
    file name. *)
Lemma basename_join_plain dir b :
  Path.plainName b -> Path.basename (Path.join [dir; b]) = b.
Proof.
  intros Hb. pose proof Hb as (Hne & _).
  destruct dir as [|d0 dir].
  - unfold Path.join. cbn [List.filter]. rewrite bool_decide_eq_true_2 by done.
    rewrite bool_decide_eq_false_2 by done. cbn [negb Path.intercalate].
    rewrite normalize_plain by done. apply (basename_after_slash [] b); [by left|done].
  - destruct (normalize_dir_plain_slash d0 dir) as (prefix & Hshape & Hprefix).
    unfold Path.join. cbn [List.filter]. rewrite !bool_decide_eq_false_2 by done.
    cbn [negb Path.intercalate].
    change (Path.normalize ((d0 :: dir) ++ js "/" ++ b))
      with (Path.normalize ((d0 :: dir) ++ Char.slash :: b)).
    rewrite Hprefix by done. by apply basename_after_slash.
Qed.

(** X3. The file name under which a PDF is copied is the sanitized name of
    the source file, after the prefix of the item in the flat layout (a
    prefix without a slash, as [resolveItemOutputPaths] builds it from a
    key without one): nothing in the name of an attachment makes the copy
    leave the directory of the document. *)
Theorem getTargetPdfPath_basename markdownPath layoutMode flatPrefix sourceFilename :
  Forall (fun c => Path.isSlash c = false) (default [] flatPrefix) ->
  Path.basename
    (Exporter.getTargetPdfPath normalizeNFKD markdownPath layoutMode flatPrefix sourceFilename)
  = match layoutMode with
    | Flat => default [] flatPrefix ++ Naming.sanitizeFilename normalizeNFKD sourceFilename
    | _ => Naming.sanitizeFilename normalizeNFKD sourceFilename
    end.
Proof.
  intros Hprefix.
  pose proof (sanitizeFilename_plainName normalizeNFKD sourceFilename) as Hplain.
  destruct (sanitizeFilename_head normalizeNFKD sourceFilename) as (c & rest & Hout & Hc).
  assert (Hflat : Path.plainName
                    (default [] flatPrefix
                     ++ Naming.sanitizeFilename normalizeNFKD sourceFilename)).
  { destruct Hplain as (Hne & Hall & _). split; [|split; [|split]].
    - intros Heq. by apply app_eq_nil in Heq as [_ Heq].
    - by apply Forall_app.
    - rewrite Hout. destruct (default [] flatPrefix) as [|x [|y u]].
      + intros Heq. injection Heq as -> _. done.
      + done.
      + done.
    - rewrite Hout. destruct (default [] flatPrefix) as [|x [|y [|z u]]].
      + intros Heq. injection Heq as -> _. done.
      + intros Heq. injection Heq as _ -> _. done.
      + done.
      + done. }
  unfold Exporter.getTargetPdfPath. cbv zeta.
  destruct layoutMode; by apply basename_join_plain.
Qed.

(** X4. The path that [makeUniqueFilePath] returns does not exist, whatever
    the target and the files around it: a file copied to it overwrites
    nothing. *)
Theorem makeUniqueFilePath_fresh (w : W) targetPath :
  Exporter.pathExists (Exporter.makeUniqueFilePath targetPath w) w = false.
Proof.
  destruct (Exporter.pathExists targetPath w) eqn:Hexists.
  - destruct (first_free_exists w targetPath) as (k & Hk & Hfree & Htaken).
    by rewrite (makeUniqueFilePath_free_candidate w targetPath k).
  - unfold Exporter.makeUniqueFilePath. by rewrite Hexists.
Qed.

End TargetPathFacts.

Lemma getTargetPdfPath_basename_witness :
  Forall (fun c => Path.isSlash c = false) (default [] (Some (js "KEY1-A-Paper__")))
  /\ Path.basename
       (Exporter.getTargetPdfPath (fun s => s) (js "/out/KEY1-A-Paper.md") Flat
          (Some (js "KEY1-A-Paper__")) (js "../My Paper (v2).pdf"))
     = js "KEY1-A-Paper__My-Paper-v2.pdf".
Proof.
  assert (Hprefix : Forall (fun c => Path.isSlash c = false)
                      (default [] (Some (js "KEY1-A-Paper__"))))
    by (by repeat constructor).
  split; [exact Hprefix|].
  by rewrite (getTargetPdfPath_basename (fun s => s) (js "/out/KEY1-A-Paper.md") Flat
                (Some (js "KEY1-A-Paper__")) (js "../My Paper (v2).pdf") Hprefix).
Defined.

(** ** The sections of the document *)

Section SectionFacts.

Lemma dropWhile_app_keep p a b :
  from_option p true (head b) = false ->
  Str.dropWhile p (a ++ b) = Str.dropWhile p a ++ b.
Proof.
  intros Hb. induction a as [|x a IH].
  - cbn [app Str.dropWhile]. destruct b as [|c b]; [done|].
    cbn [head from_option] in Hb. cbn [Str.dropWhile]. by rewrite Hb.
  - cbn [app Str.dropWhile]. by destruct (p x).
Qed.

Lemma dropWhileEnd_app_keep p h r :
  from_option p true (last h) = false ->
  Str.dropWhileEnd p (h ++ r) = h ++ Str.dropWhileEnd p r.
Proof.
  intros Hh. unfold Str.dropWhileEnd. rewrite rev_app_distr.
  rewrite dropWhile_app_keep.
  - by rewrite rev_app_distr, rev_involutive.
  - rewrite <- (rev_involutive h) in Hh. by rewrite last_rev in Hh.
Qed.

(** Trimming keeps a heading that starts and ends with a character that
    is not white space. *)
Lemma trim_keeps_heading h r :
  from_option Char.isSpace true (head h) = false ->
  from_option Char.isSpace true (last h) = false ->
  exists r', Str.trim (h ++ r) = h ++ r'.
Proof.
  intros Hhead Hlast. unfold Str.trim, Str.stripEnds.
  assert (Hdrop : Str.dropWhile Char.isSpace (h ++ r) = h ++ r).
  { destruct h as [|c h']; [done|]. cbn [head from_option] in Hhead.
    cbn [app Str.dropWhile]. by rewrite Hhead. }
  rewrite Hdrop, dropWhileEnd_app_keep by done. by eexists.
Qed.

(** The frame of a section rendered from the lines [parts], the first of
    which is a heading. *)
Lemma section_frame (heading : jsstring) (rest : list jsstring) :
  rest <> [] ->
  from_option Char.isSpace true (head heading) = false ->
  from_option Char.isSpace true (last heading) = false ->
  exists body,
    Str.trim (Markdown.joinLines (heading :: rest)) ++ js LF = body ++ js LF
    /\ from_option Char.isSpace true (last body) = false
    /\ Str.startsWith heading body = true.
Proof.
  intros Hrest Hhead Hlast.
  assert (Hjoin : Markdown.joinLines (heading :: rest)
                  = heading ++ js LF ++ Markdown.joinLines rest)
    by (by destruct rest).
  destruct (trim_keeps_heading heading (js LF ++ Markdown.joinLines rest) Hhead Hlast)
    as (r' & Htrim).
  exists (Str.trim (Markdown.joinLines (heading :: rest))).
  split; [done|]. split.
  - destruct (last (Str.trim _)) as [c|] eqn:Hc.
    + exact (stripEnds_last _ _ _ Hc).
    + apply last_None in Hc. rewrite Hjoin, Htrim in Hc.
      apply app_eq_nil in Hc as [-> _]. done.
  - rewrite Hjoin, Htrim. apply startsWith_spec. by exists r'.
Qed.

(** X5. Each of the two sections of the document ends with one line feed
    that follows a character which is not white space, whatever the
    highlights and notes hold; it starts with [None] when there is nothing
    to render, and with the heading numbered 1 otherwise. *)
Theorem rendered_sections_frame :
  (forall highlights, exists body,
      Markdown.renderHighlights highlights = body ++ js LF
      /\ from_option Char.isSpace true (last body) = false
      /\ Str.startsWith
           (match highlights with [] => js "None" | _ => js "### Highlight 1" end) body = true)
  /\ (forall notes, exists body,
         Markdown.renderNotes notes = body ++ js LF
         /\ from_option Char.isSpace true (last body) = false
         /\ Str.startsWith
              (match notes with [] => js "None" | _ => js "### Note 1" end) body = true).
Proof.
  split.
  - intros [|h rest]; [by exists (js "None")|].
    unfold Markdown.renderHighlights. cbv zeta. cbn [imap List.concat].
    unfold Markdown.highlightLines at 1. cbn [app].
    apply (section_frame (js "### Highlight 1")); [|done|done].
    intros Heq. apply app_eq_nil in Heq as [Heq _].
    repeat (apply app_eq_nil in Heq as [_ Heq]). done.
  - intros [|n rest]; [by exists (js "None")|].
    unfold Markdown.renderNotes. cbv zeta. cbn [imap List.concat].
    unfold Markdown.noteLines at 1. cbn [app].
    apply (section_frame (js "### Note 1")); [|done|done].
    intros Heq. apply app_eq_nil in Heq as [Heq _].
    repeat (apply app_eq_nil in Heq as [_ Heq]). done.
Qed.

End SectionFacts.

(** ** The read model *)

Section ReadModelFacts.

Import Tables.

Variable toLowerCase : jsstring -> jsstring.

Local Abbreviation isDigits y := (Forall (fun c => Char.isDigit c = true) y).

Lemma matchFourDigits_Some s y :
  Queries.matchFourDigits s = Some y ->
  length y = 4%nat /\ isDigits y
  /\ exists pre post,
      s = pre ++ y ++ post
      /\ forall pre' y' post',
          s = pre' ++ y' ++ post' -> length y' = 4%nat -> isDigits y' ->
          (length pre <= length pre')%nat.
Proof.
  revert y. induction s as [|a s IH]; intros y; [done|].
  destruct s as [|b [|c [|d s]]]; [done|done|done|].
  change (Queries.matchFourDigits (a :: b :: c :: d :: s))
    with (if Char.isDigit a && Char.isDigit b && Char.isDigit c && Char.isDigit d
          then Some [a; b; c; d] else Queries.matchFourDigits (b :: c :: d :: s)).
  destruct (Char.isDigit a && Char.isDigit b && Char.isDigit c && Char.isDigit d) eqn:Htest.
  - intros [= <-]. apply andb_prop in Htest as [Htest Hd].
    apply andb_prop in Htest as [Htest Hc]. apply andb_prop in Htest as [Ha Hb].
    split; [done|]. split; [by repeat constructor|].
    exists [], s. split; [done|]. intros. cbn [length]. lia.
  - intros Hy. destruct (IH y Hy) as (Hlen & Hdigits & pre & post & Hs & Hleft).
    split; [done|]. split; [done|].
    exists (a :: pre), post. split; [by rewrite Hs|].
    intros pre' y' post' Hs' Hlen' Hdigits'.
    destruct pre' as [|a' pre'].
    + exfalso. destruct y' as [|y1 [|y2 [|y3 [|y4 [|]]]]]; try done.
      cbn [app] in Hs'. injection Hs' as -> -> -> -> _.
      inversion Hdigits' as [|? ? H1 Hd1]; subst.
      inversion Hd1 as [|? ? H2 Hd2]; subst.
      inversion Hd2 as [|? ? H3 Hd3]; subst.
      inversion Hd3 as [|? ? H4 Hd4]; subst.
      by rewrite H1, H2, H3, H4 in Htest.
    + cbn [app] in Hs'. injection Hs' as -> Hs'.
      specialize (Hleft pre' y' post' Hs' Hlen' Hdigits'). cbn [length]. lia.
Qed.

Lemma matchFourDigits_None s pre y post :
  Queries.matchFourDigits s = None ->
  s = pre ++ y ++ post -> length y = 4%nat -> ~ isDigits y.
Proof.
  revert pre. induction s as [|a s IH]; intros pre Hnone Hs Hlen Hdigits.
  - symmetry in Hs. apply app_eq_nil in Hs as [_ Hs]. apply app_eq_nil in Hs as [-> _].
    done.
  - assert (Hlong : (4 <= length (a :: s))%nat)
      by (rewrite Hs, !length_app; lia).
    destruct s as [|b [|c [|d s]]]; cbn [length] in Hlong; [lia|lia|lia|].
    change (Queries.matchFourDigits (a :: b :: c :: d :: s))
      with (if Char.isDigit a && Char.isDigit b && Char.isDigit c && Char.isDigit d
            then Some [a; b; c; d] else Queries.matchFourDigits (b :: c :: d :: s))
      in Hnone.
    destruct (Char.isDigit a && Char.isDigit b && Char.isDigit c && Char.isDigit d)
      eqn:Htest; [done|].
    destruct pre as [|a' pre].
    + destruct y as [|y1 [|y2 [|y3 [|y4 [|]]]]]; try done.
      cbn [app] in Hs. injection Hs as -> -> -> -> _.
      inversion Hdigits as [|? ? H1 Hd1]; subst.
      inversion Hd1 as [|? ? H2 Hd2]; subst.
      inversion Hd2 as [|? ? H3 Hd3]; subst.
      inversion Hd3 as [|? ? H4 Hd4]; subst.
      by rewrite H1, H2, H3, H4 in Htest.
    + cbn [app] in Hs. injection Hs as _ Hs. by apply (IH pre).
Qed.

(** X6. The year of a date is its leftmost run of four digits: the value
    returned is four digits that occur in the date, and no four digits
    occur further left; there is no year exactly when the date is absent
    or holds no four digits in a row. *)
Theorem extractYear_leftmost_four_digits dateValue :
  match Queries.extractYear dateValue with
  | Some y =>
      length y = 4%nat /\ isDigits y
      /\ exists pre post,
          dateValue = Some (pre ++ y ++ post)
          /\ forall pre' y' post',
              pre ++ y ++ post = pre' ++ y' ++ post' -> length y' = 4%nat -> isDigits y' ->
              (length pre <= length pre')%nat
  | None =>
      forall pre y post,
        dateValue = Some (pre ++ y ++ post) -> length y = 4%nat -> ~ isDigits y
  end.
Proof.
  unfold Queries.extractYear. destruct dateValue as [[|a s]|]; cbn [truthy].
  - intros pre y post [= Hs]. symmetry in Hs.
    apply app_eq_nil in Hs as [_ Hs]. by apply app_eq_nil in Hs as [-> _].
  - cbn [from_option id].
    destruct (Queries.matchFourDigits (a :: s)) as [y|] eqn:Hmatch.
    + destruct (matchFourDigits_Some _ _ Hmatch) as (Hlen & Hdigits & pre & post & Hs & Hleft).
      split; [done|]. split; [done|]. exists pre, post. split; [by rewrite Hs|].
      by rewrite <- Hs.
    + intros pre y post [= Hs]. by apply (matchFourDigits_None _ pre y post Hmatch).
  - done.
Qed.

Lemma fold_left_add_start l a : fold_left Z.add l a = a + fold_left Z.add l 0.
Proof.
  revert a. induction l as [|y l IH]; intros a; cbn [fold_left]; [lia|].
  rewrite (IH (a + y)), (IH (0 + y)). lia.
Qed.

Lemma sumZ_cons x l : Queries.sumZ (x :: l) = x + Queries.sumZ l.
Proof. unfold Queries.sumZ. cbn [fold_left]. apply fold_left_add_start. Qed.

Lemma sumZ_pdfCase grp :
  Queries.sumZ (List.map Queries.pdfCase grp)
  = Z.of_nat (length (List.filter (fun ia => Queries.pdfCase ia =? 1) grp)).
Proof.
  induction grp as [|ia grp IH]; [done|].
  cbn [List.map List.filter]. rewrite sumZ_cons, IH.
  unfold Queries.pdfCase at 1 3.
  destruct (_ || _); [change (1 =? 1) with true|change (0 =? 1) with false];
    cbn [length]; lia.
Qed.

Lemma filter_filter_length {A : Type} (f g : A -> bool) (l : list A) :
  length (List.filter g (List.filter f l)) = length (List.filter (fun a => f a && g a) l).
Proof.
  induction l as [|a l IH]; [done|].
  cbn [List.filter]. destruct (f a); cbn [andb List.filter]; [|done].
  destruct (g a); cbn [length]; by rewrite ?IH.
Qed.

(** X7. The [pdfCount] of a summary is the number of child attachments of
    the item whose content type holds [pdf] or whose path ends with [.pdf]
    (letters in either case): the [SUM] over the [CASE] counts rows. It
    lies between zero and the number of child attachments, and [hasPdf]
    tells whether it is positive. *)
Theorem pdfCount_counts_pdf_children db filtered_items row :
  row ∈ Queries.baseItemSummaries db filtered_items ->
  sum_pdfCount (Queries.mapSummary row)
  = Z.of_nat
      (length
         (List.filter
            (fun ia =>
               Sql.eqNull (ia_parentItemID ia) (Queries.r_itemID row)
               && (Sql.like (js "%pdf%") (Sql.sqlLower (default [] (ia_contentType ia)))
                   || Sql.like (js "%.pdf") (Sql.sqlLower (default [] (ia_path ia)))))
            (Db.itemAttachments db)))
  /\ 0 <= sum_pdfCount (Queries.mapSummary row)
     <= Z.of_nat (length (Spec.attachmentIdsOf db (Queries.r_itemID row)))
  /\ sum_hasPdf (Queries.mapSummary row)
     = bool_decide (0 < sum_pdfCount (Queries.mapSummary row)).
Proof.
  intros Hrow. destruct (baseItemSummaries_row _ _ _ Hrow) as (_ & _ & Hpdf).
  set (children := List.filter (fun ia => Sql.eqNull (ia_parentItemID ia) (Queries.r_itemID row))
                     (Db.itemAttachments db)).
  assert (Hcount : sum_pdfCount (Queries.mapSummary row)
                   = Z.of_nat (length (List.filter (fun ia => Queries.pdfCase ia =? 1)
                                         children))).
  { cbn [Queries.mapSummary sum_pdfCount]. rewrite Hpdf. cbn [from_option id].
    unfold Queries.attachment_values. fold children. rewrite <- sumZ_pdfCase.
    by destruct children. }
  assert (Hchildren : length children
                      = length (Spec.attachmentIdsOf db (Queries.r_itemID row))).
  { unfold Spec.attachmentIdsOf, children. rewrite length_map. f_equal.
    apply filter_ext. intros ia. destruct (ia_parentItemID ia) as [parent|]; cbn.
    - destruct (Z.eqb_spec parent (Queries.r_itemID row)) as [->|Hne].
      + by rewrite bool_decide_eq_true_2.
      + rewrite bool_decide_eq_false_2; [done|]. by intros [= ?].
    - done. }
  split; [|split].
  - rewrite Hcount. unfold children. rewrite filter_filter_length. do 2 f_equal.
    apply filter_ext. intros ia. f_equal. unfold Queries.pdfCase. by destruct (_ || _).
  - rewrite Hcount, <- Hchildren.
    pose proof (filter_length_le (fun ia => Queries.pdfCase ia =? 1) children). lia.
  - cbn [Queries.mapSummary sum_hasPdf sum_pdfCount].
    destruct (Z.ltb_spec 0 (default 0 (Queries.r_pdfCount row))).
    + by rewrite bool_decide_eq_true_2.
    + rewrite bool_decide_eq_false_2; [done|lia].
Qed.

Lemma elem_of_orderBy {A : Type} (leb : A -> A -> bool) (l : list A) (a : A) :
  a ∈ Sql.orderBy leb l <-> a ∈ l.
Proof. unfold Sql.orderBy. by rewrite merge_sort_Permutation. Qed.

Lemma length_orderBy {A : Type} (leb : A -> A -> bool) (l : list A) :
  length (Sql.orderBy leb l) = length l.
Proof. unfold Sql.orderBy. by rewrite merge_sort_Permutation. Qed.













Lemma leftJoin_inhabited {B : Type} (matches : B -> bool) (r : list B) :
  exists x, x ∈ Sql.leftJoin matches r.
Proof.
  unfold Sql.leftJoin. destruct (List.filter matches r) as [|b bs].
  - exists None. apply list_elem_of_here.
  - exists (Some b). apply list_elem_of_here.
Qed.

Lemma elem_of_baseRows db id base :
  base ∈ Queries.baseRows db id
  <-> exists i it l g,
      i ∈ Db.items db /\ i_itemID i = id
      /\ it ∈ Db.itemTypes db /\ ity_itemTypeID it = i_itemTypeID i
      /\ l ∈ Sql.leftJoin (fun l => l_libraryID l =? i_libraryID i) (Db.libraries db)
      /\ g ∈ Sql.leftJoin (fun g => g_libraryID g =? i_libraryID i) (Db.groups db)
      /\ base = (i, Queries.libraryNameOf g (l_type <$> l) (i_libraryID i), ity_typeName it).
Proof.
  unfold Queries.baseRows. split.
  - intros Hbase.
    apply list_elem_of_bind in Hbase as (i & Hbase & Hi).
    apply list_elem_of_bind in Hbase as (it & Hbase & Hit).
    apply list_elem_of_bind in Hbase as (l & Hbase & Hl).
    apply list_elem_of_bind in Hbase as (g & Hbase & Hg).
    apply list_elem_of_singleton in Hbase.
    apply elem_of_List_filter in Hi as [Hi Hid]. apply Z.eqb_eq in Hid.
    apply elem_of_List_filter in Hit as [Hit Htype]. apply Z.eqb_eq in Htype.
    by exists i, it, l, g.
  - intros (i & it & l & g & Hi & Hid & Hit & Htype & Hl & Hg & ->).
    apply list_elem_of_bind. exists i. split.
    2: { apply elem_of_List_filter. split; [done|]. by apply Z.eqb_eq. }
    apply list_elem_of_bind. exists it. split.
    2: { apply elem_of_List_filter. split; [done|]. by apply Z.eqb_eq. }
    apply list_elem_of_bind. exists l. split; [|done].
    apply list_elem_of_bind. exists g. split; [|done].
    by apply list_elem_of_singleton.
Qed.

(** X10. Loading an item fails exactly when [items] has no row of that
    identifier with a type that is in [itemTypes], and then with the
    message that names the identifier; an item that is loaded carries the
    identifier that was asked for, the key, library and type of such a
    row, and the year of its own date. *)
Theorem getItemExportData_loads_or_fails db id :
  match Queries.getItemExportData toLowerCase db id with
  | Ok item =>
      itemId item = id
      /\ year item = Queries.extractYear (date item)
      /\ exists i it,
          i ∈ Db.items db /\ it ∈ Db.itemTypes db
          /\ i_itemID i = id /\ ity_itemTypeID it = i_itemTypeID i
          /\ key item = i_key i /\ libraryId item = i_libraryID i
          /\ itemType item = ity_typeName it
  | Throw message =>
      message = js "Could not load Zotero item " ++ decimal id ++ js "."
      /\ forall i it,
          i ∈ Db.items db -> it ∈ Db.itemTypes db -> i_itemID i = id ->
          ity_itemTypeID it <> i_itemTypeID i
  end.
Proof.
  unfold Queries.getItemExportData.
  destruct (Queries.baseRows db id) as [|base rows] eqn:Hrows; cbn [head].
  - split; [done|]. intros i it Hi Hit Hid Htype.
    destruct (leftJoin_inhabited (fun l => l_libraryID l =? i_libraryID i) (Db.libraries db))
      as (l & Hl).
    destruct (leftJoin_inhabited (fun g => g_libraryID g =? i_libraryID i) (Db.groups db))
      as (g & Hg).
    assert (Hbase : (i, Queries.libraryNameOf g (l_type <$> l) (i_libraryID i),
                     ity_typeName it) ∈ Queries.baseRows db id).
    { apply elem_of_baseRows. by exists i, it, l, g. }
    rewrite Hrows in Hbase. by apply elem_of_nil in Hbase.
  - assert (Hbase : base ∈ Queries.baseRows db id) by (rewrite Hrows; apply list_elem_of_here).
    apply elem_of_baseRows in Hbase
      as (i & it & l & g & Hi & Hid & Hit & Htype & _ & _ & ->).
    cbn. split; [done|]. split; [done|]. by exists i, it.
Qed.




Lemma split_pieces_plain p s piece :
  piece ∈ Str.split p s -> Forall (fun c => p c = false) piece.
Proof.
  revert piece. induction s as [|c s IH]; intros piece Hpiece.
  - apply list_elem_of_singleton in Hpiece as ->. constructor.
  - cbn [Str.split] in Hpiece. destruct (p c) eqn:Hc.
    + apply elem_of_cons in Hpiece as [->|Hpiece]; [constructor|by apply IH].
    + destruct (Str.split p s) as [|first rest].
      * apply list_elem_of_singleton in Hpiece as ->. by repeat constructor.
      * apply elem_of_cons in Hpiece as [->|Hpiece].
        -- constructor; [done|]. apply IH. apply list_elem_of_here.
        -- apply IH. by apply list_elem_of_further.
Qed.

(** X12. The file name derived for an attachment is never empty, and a
    slash or backslash in it comes from the key: the last piece of a path
    is free of them. *)
Theorem deriveAttachmentFilename_shape attachmentPath key :
  Queries.deriveAttachmentFilename attachmentPath key <> []
  /\ forall c,
      c ∈ Queries.deriveAttachmentFilename attachmentPath key ->
      Char.isSeparator c = true -> c ∈ key.
Proof.
  assert (Hfallback : key ++ js ".pdf" <> []
                      /\ forall c, c ∈ key ++ js ".pdf" -> Char.isSeparator c = true -> c ∈ key).
  { split.
    - intros Heq. by apply app_eq_nil in Heq as [_ Heq].
    - intros c Hc Hsep. apply elem_of_app in Hc as [Hc|Hc]; [done|].
      exfalso. repeat (apply elem_of_cons in Hc as [->|Hc]; [done|]).
      by apply elem_of_nil in Hc. }
  unfold Queries.deriveAttachmentFilename.
  destruct (negb (truthy attachmentPath)); [done|]. cbv zeta.
  set (pieces := Str.split Char.isSeparator _).
  destruct (last pieces) as [base|] eqn:Hlast.
  - cbn [from_option id]. destruct base as [|b base]; [done|]. cbn [Str.orElse].
    split; [done|]. intros c Hc Hsep. exfalso.
    apply last_Some in Hlast as (l & Hl).
    assert (Hin : (b :: base) ∈ pieces) by (rewrite Hl; apply elem_of_app; right; left).
    apply split_pieces_plain in Hin. rewrite Forall_forall in Hin.
    specialize (Hin c Hc). cbv beta in Hin. congruence.
  - apply last_None in Hlast. by apply split_nonempty in Hlast.
Qed.

Lemma orderBy_sorted {A : Type} (sortKey : A -> Z) (l : list A) :
  StronglySorted (fun a b => sortKey a <= sortKey b)
    (Sql.orderBy (fun a b => sortKey a <=? sortKey b) l).
Proof.
  unfold Sql.orderBy.
  set (R := fun a b : A => Is_true (sortKey a <=? sortKey b)).
  assert (Htrans : Transitive R).
  { intros x y z Hxy Hyz. unfold R in *. apply Is_true_true in Hxy, Hyz.
    apply Is_true_true. lia. }
  assert (Htotal : Total R).
  { intros x y. unfold R. destruct (Z.leb_spec (sortKey x) (sortKey y)); [by left|right].
    apply Is_true_true. lia. }
  pose proof (StronglySorted_merge_sort R l) as Hsorted.
  induction Hsorted as [|a s _ IH Hall]; constructor; [done|].
  eapply Forall_impl; [exact Hall|]. intros b Hb. apply Is_true_true in Hb. lia.
Qed.

Lemma StronglySorted_map {A B : Type} (f : A -> B) (R : B -> B -> Prop) (l : list A) :
  StronglySorted (fun a b => R (f a) (f b)) l -> StronglySorted R (List.map f l).
Proof.
  induction 1 as [|a s _ IH Hall]; cbn [List.map]; constructor; [done|].
  apply Forall_forall. intros b Hb. apply elem_of_List_map in Hb as (x & -> & Hx).
  rewrite Forall_forall in Hall. by apply Hall.
Qed.

(** X13. The creators of an item come in the order of [orderIndex], one
    for each joined row, and each of them has a display name that is not
    empty. *)
Theorem getCreatorsForItem_named_in_order db itemId :
  StronglySorted (fun a b => cr_orderIndex a <= cr_orderIndex b)
    (Queries.getCreatorsForItem db itemId)
  /\ Forall (fun c => cr_displayName c <> []) (Queries.getCreatorsForItem db itemId)
  /\ length (Queries.getCreatorsForItem db itemId) = length (Queries.creatorRows db itemId).
Proof.
  unfold Queries.getCreatorsForItem. split; [|split].
  - apply StronglySorted_map. cbn [Queries.mapCreator cr_orderIndex].
    apply (orderBy_sorted (fun row => ic_orderIndex row.1.1)).
  - apply Forall_forall. intros c Hc. apply elem_of_List_map in Hc as (row & -> & _).
    cbn [Queries.mapCreator cr_displayName]. by destruct (Queries.creatorDisplayName _ _ _).
  - by rewrite length_map, length_orderBy.
Qed.

Lemma inListNull_true (x : option Z) ids :
  Sql.inListNull x ids = true <-> exists v, x = Some v /\ v ∈ ids.
Proof.
  destruct x as [v|]; cbn [Sql.inListNull].
  - unfold Sql.inList. rewrite existsb_exists. split.
    + intros (y & Hy & Heq). apply Z.eqb_eq in Heq as ->. exists y.
      split; [done|]. by apply list_elem_of_In.
    + intros (y & [= ->] & Hy). exists y. split; [by apply list_elem_of_In|].
      apply Z.eqb_refl.
  - split; [done|]. by intros (v & ? & _).
Qed.

(** X14. What an aggregate holds below its item: the attachments are the
    rows of [itemAttachments] whose parent is the item, in the order of
    their identifiers; every note hangs on the item or on one of these
    attachments, every annotation on one of these attachments. *)
Theorem getItemExportData_children db id item :
  Queries.getItemExportData toLowerCase db id = Ok item ->
  StronglySorted (fun a b => att_itemId a <= att_itemId b) (attachments item)
  /\ Forall (fun a => exists ia, ia ∈ Db.itemAttachments db
                                /\ ia_parentItemID ia = Some id
                                /\ att_itemId a = ia_itemID ia
                                /\ att_path a = ia_path ia)
       (attachments item)
  /\ Forall (fun n => note_parentItemId n = id
                      \/ note_parentItemId n ∈ List.map att_itemId (attachments item))
       (notes item)
  /\ Forall (fun a => ann_parentItemId a ∈ List.map att_itemId (attachments item))
       (annotations item).
Proof.
  unfold Queries.getItemExportData.
  destruct (head (Queries.baseRows db id)) as [base|]; [|done].
  intros [= <-]. cbn [attachments notes annotations].
  split; [|split; [|split]].
  - unfold Queries.getAttachmentsForItem.
    apply (StronglySorted_map (fun row => Queries.mapAttachment toLowerCase row.1.1 row.1.2 row.2)).
    cbn [Queries.mapAttachment att_itemId].
    apply (orderBy_sorted (fun row => ia_itemID row.1.1)).
  - apply Forall_forall. intros a Ha. unfold Queries.getAttachmentsForItem in Ha.
    apply elem_of_List_map in Ha as (row & -> & Hrow).
    apply elem_of_orderBy in Hrow. unfold Queries.attachmentRows in Hrow.
    apply list_elem_of_bind in Hrow as (ia & Hrow & Hia).
    apply list_elem_of_bind in Hrow as (ai & Hrow & _).
    apply list_elem_of_bind in Hrow as (tf & Hrow & _).
    apply list_elem_of_singleton in Hrow as ->.
    apply elem_of_List_filter in Hia as [Hia Hparent]. apply eqNull_true in Hparent.
    by exists ia.
  - apply Forall_forall. intros n Hn. unfold Queries.getNotesForItemAndAttachments in Hn.
    cbv zeta in Hn. apply elem_of_app in Hn as [Hn|Hn].
    + left. apply elem_of_List_map in Hn as (row & -> & Hrow).
      apply elem_of_orderBy, elem_of_List_filter in Hrow as [_ Hparent].
      apply eqNull_true in Hparent. cbn [Queries.mapNote note_parentItemId].
      by rewrite Hparent.
    + right. destruct (List.map att_itemId _) as [|x ids] eqn:Hids;
        [by apply elem_of_nil in Hn|].
      apply elem_of_List_map in Hn as (row & -> & Hrow).
      apply elem_of_orderBy, elem_of_List_filter in Hrow as [_ Hparent].
      apply inListNull_true in Hparent as (v & Hv & Hin).
      cbn [Queries.mapNote note_parentItemId]. by rewrite Hv.
  - apply Forall_forall. intros a Ha. unfold Queries.getAnnotationsForAttachments in Ha.
    destruct (List.map att_itemId _) as [|x ids] eqn:Hids; [by apply elem_of_nil in Ha|].
    apply elem_of_List_map in Ha as (row & -> & Hrow).
    apply elem_of_orderBy, elem_of_List_filter in Hrow as [_ Hparent].
    apply inListNull_true in Hparent as (v & Hv & Hin).
    cbn [ann_parentItemId]. by rewrite Hv.
Qed.

End ReadModelFacts.

Lemma pdfCount_counts_pdf_children_witness :
  exists row,
    row ∈ Queries.baseItemSummaries Samples.testDb [1]
    /\ sum_key (Queries.mapSummary row) = js "ITEM1KEY"
    /\ sum_pdfCount (Queries.mapSummary row) = 1.
Proof.
  eassert (Hrows : Queries.baseItemSummaries Samples.testDb [1] = [_])
    by (vm_compute; reflexivity).
  match type of Hrows with _ = [?r] => pose (row := r) end.
  assert (Hrow : row ∈ Queries.baseItemSummaries Samples.testDb [1])
    by (rewrite Hrows; apply list_elem_of_here).
  exists row. split; [exact Hrow|]. split; [reflexivity|].
  destruct (pdfCount_counts_pdf_children Samples.testDb [1] row Hrow) as (Hcount & _).
  rewrite Hcount. reflexivity.
Defined.


Lemma getItemExportData_children_witness :
  exists item,
    Queries.getItemExportData Str.toLowerCaseAscii Samples.testDb 1 = Ok item
    /\ List.map att_itemId (attachments item) = [11]
    /\ List.map note_parentItemId (notes item) = [1; 11]
    /\ Forall (fun a => ann_parentItemId a ∈ [11]) (annotations item).
Proof.
  eassert (Hitem : Queries.getItemExportData Str.toLowerCaseAscii Samples.testDb 1 = Ok _)
    by reflexivity.
  match type of Hitem with _ = Ok ?i => exists i end.
  split; [exact Hitem|]. split; [reflexivity|]. split; [reflexivity|].
  destruct (getItemExportData_children Str.toLowerCaseAscii Samples.testDb 1 _ Hitem)
    as (_ & _ & _ & Hannotations).
  exact Hannotations.
Defined.

(** ** The notes of an aggregate *)

Section NoteFacts.

Import Tables.

(** X30. [getNotesForItemAndAttachments] returns the notes of the item
    first and the notes of the attachments after them, each group in the
    order of the note identifiers: the first group holds every row of
    [itemNotes] whose parent is the item and only such rows, the second
    every row whose parent is one of the attachment identifiers and only
    such rows. *)
Theorem getNotesForItemAndAttachments_groups db itemId attachmentIds :
  exists own attached,
    Queries.getNotesForItemAndAttachments db itemId attachmentIds = own ++ attached
    /\ StronglySorted (fun a b => note_itemId a <= note_itemId b) own
    /\ StronglySorted (fun a b => note_itemId a <= note_itemId b) attached
    /\ (forall note,
          note ∈ own
          <-> exists row, row ∈ Db.itemNotes db /\ n_parentItemID row = Some itemId
                         /\ note = Queries.mapNote row)
    /\ (forall note,
          note ∈ attached
          <-> exists row parent,
              row ∈ Db.itemNotes db /\ n_parentItemID row = Some parent
              /\ parent ∈ attachmentIds /\ note = Queries.mapNote row).
Proof.
  unfold Queries.getNotesForItemAndAttachments. cbv zeta.
  eexists _, _. split; [reflexivity|]. split; [|split; [|split]].
  - apply StronglySorted_map. cbn [Queries.mapNote note_itemId].
    apply (orderBy_sorted n_itemID).
  - destruct attachmentIds as [|x ids]; [constructor|].
    apply StronglySorted_map. cbn [Queries.mapNote note_itemId].
    apply (orderBy_sorted n_itemID).
  - intros note. rewrite elem_of_List_map. split.
    + intros (row & -> & Hrow).
      apply elem_of_orderBy, elem_of_List_filter in Hrow as [Hrow Hparent].
      apply eqNull_true in Hparent. by exists row.
    + intros (row & Hrow & Hparent & ->). exists row. split; [done|].
      apply elem_of_orderBy, elem_of_List_filter. split; [done|]. by apply eqNull_true.
  - intros note. destruct attachmentIds as [|x ids].
    + split; [by intros Hnote%elem_of_nil|].
      intros (row & parent & _ & _ & Hparent & _). by apply elem_of_nil in Hparent.
    + rewrite elem_of_List_map. split.
      * intros (row & -> & Hrow).
        apply elem_of_orderBy, elem_of_List_filter in Hrow as [Hrow Hparent].
        apply inListNull_true in Hparent as (parent & Hparent & Hin). by exists row, parent.
      * intros (row & parent & Hrow & Hparent & Hin & ->). exists row. split; [done|].
        apply elem_of_orderBy, elem_of_List_filter. split; [done|].
        apply inListNull_true. by exists parent.
Qed.

End NoteFacts.

(** ** The run as a whole *)

Section RunFacts.

Context {W : Type} `{Fs.FileSystem W}.

Variable normalizeNFKD : jsstring -> jsstring.
Variable toLowerCase : jsstring -> jsstring.
Variable Date : Type.
Variable toISOString : Date -> jsstring.
Variable systemClock : W -> Date.
Variable yamlDump : Markdown.Frontmatter -> jsstring.
Variable turndown : jsstring -> jsstring.
Variable db : Db.Database.

Local Abbreviation State := (Exporter.State W).
Local Abbreviation M := (Exporter.M W).
Local Abbreviation writeItem :=
  (Exporter.writeItem normalizeNFKD Date toISOString systemClock yamlDump turndown).
Local Abbreviation exportOne :=
  (Exporter.exportOne normalizeNFKD toLowerCase Date toISOString systemClock yamlDump
     turndown db).
Local Abbreviation exportLoop :=
  (Exporter.exportLoop normalizeNFKD toLowerCase Date toISOString systemClock yamlDump
     turndown db).
Local Abbreviation exportItems :=
  (Exporter.exportItems normalizeNFKD toLowerCase Date toISOString systemClock yamlDump
     turndown db).

Lemma continues_refl (st : State) : Progress.continues st st.
Proof. unfold Progress.continues. repeat split; try done; try lia. by left. Qed.

Lemma continues_trans (st1 st2 st3 : State) :
  Progress.continues st1 st2 -> Progress.continues st2 st3 -> Progress.continues st1 st3.
Proof.
  intros (He & Hs & Hf & Hc & Hw & Hl & Hlog) (He' & Hs' & Hf' & Hc' & Hw' & Hl' & Hlog').
  unfold Progress.continues. repeat split; try lia; try (by etrans); [by auto|].
  intros warning Hin. destruct (Hlog' warning Hin) as [Hold|Hnew]; [|by right].
  destruct (Hlog warning Hold) as [Hold'|Hnew]; [by left|right].
  destruct Hl' as (added & ->). apply elem_of_app. by left.
Qed.

Lemma monotone_ret {A : Type} (a : A) : Progress.monotone (Exporter.ret a : M A).
Proof. intros st. apply continues_refl. Qed.

Lemma monotone_bind {A B : Type} (m : M A) (k : A -> M B) :
  Progress.monotone m -> (forall a, Progress.monotone (k a)) ->
  Progress.monotone (Exporter.bind m k).
Proof.
  intros Hm Hk st. unfold Exporter.bind. specialize (Hm st).
  destruct (m st) as [[a|message] st']; cbn [snd] in *; [|done].
  eapply continues_trans; [exact Hm|apply Hk].
Qed.

Lemma monotone_liftOutcome {A : Type} (o : Outcome A) :
  Progress.monotone (Exporter.liftOutcome o : M A).
Proof. intros st. apply continues_refl. Qed.

Lemma monotone_liftFs {A : Type} (op : W -> Outcome A * W) :
  Progress.monotone (Exporter.liftFs op).
Proof.
  intros st. unfold Exporter.liftFs. destruct (op (Exporter.world st)) as [o w'].
  cbn [snd]. unfold Progress.continues. cbn. repeat split; try done; try lia. by left.
Qed.

Lemma monotone_readWorld {A : Type} (f : W -> A) :
  Progress.monotone (Exporter.readWorld f).
Proof. intros st. apply continues_refl. Qed.

Lemma continues_logLine message (st : State) :
  Progress.continues st (Exporter.logLine message st).
Proof.
  unfold Progress.continues. cbn. repeat split; try done; try lia.
  - by apply prefix_app_r.
  - by left.
Qed.

Lemma monotone_appendLine message :
  Progress.monotone (Exporter.appendLine message : M unit).
Proof. intros st. apply continues_logLine. Qed.

Lemma monotone_appendWarning warning :
  Progress.monotone (Exporter.appendWarning warning : M unit).
Proof.
  intros st. unfold Progress.continues. cbn. repeat split; try done; try lia.
  - by apply prefix_app_r.
  - by apply prefix_app_r.
  - intros w Hw. apply elem_of_app in Hw as [Hw|Hw]; [by left|right].
    apply list_elem_of_singleton in Hw as ->. apply elem_of_app. right.
    apply list_elem_of_here.
Qed.

(** An update of the counters or of the flag. *)
Lemma continues_mapResult (f : ExportResult -> ExportResult) (st : State) :
  f = Exporter.incExported \/ f = Exporter.incSkipped \/ f = Exporter.incFailed
  \/ f = Exporter.setCancelled ->
  Progress.continues st (Exporter.mapResult f st).
Proof.
  intros [->|[->|[->| ->]]]; unfold Progress.continues; cbn;
    repeat split; try done; try lia; by left.
Qed.

Lemma monotone_updateResult (f : ExportResult -> ExportResult) :
  f = Exporter.incExported \/ f = Exporter.incSkipped \/ f = Exporter.incFailed
  \/ f = Exporter.setCancelled ->
  Progress.monotone (Exporter.updateResult f : M unit).
Proof. intros Hf st. by apply continues_mapResult. Qed.

Ltac monotone_steps :=
  repeat first
    [ apply monotone_ret
    | apply monotone_liftOutcome
    | apply monotone_liftFs
    | apply monotone_readWorld
    | apply monotone_appendLine
    | apply monotone_appendWarning
    | apply monotone_updateResult; tauto
    | assumption
    | apply monotone_bind; [|intros ?]
    | match goal with
      | |- Progress.monotone (if ?c then _ else _) => destruct c
      | |- Progress.monotone (match ?d with Overwrite => _ | Skip => _ | Cancel => _ end) =>
          destruct d
      end ].

Lemma monotone_removeFlatEntries outputRoot flatPrefix entries :
  Progress.monotone (Exporter.removeFlatEntries outputRoot flatPrefix entries : M unit).
Proof.
  induction entries as [|entry rest IH]; cbn [Exporter.removeFlatEntries]; monotone_steps.
Qed.

Lemma monotone_removeExistingTarget outputRoot markdownPath itemFolder flatPrefix :
  Progress.monotone
    (Exporter.removeExistingTarget outputRoot markdownPath itemFolder flatPrefix : M unit).
Proof.
  unfold Exporter.removeExistingTarget. monotone_steps.
  apply monotone_removeFlatEntries.
Qed.

Lemma monotone_copyAttachments options item outputPaths selectedPdfs names :
  Progress.monotone
    (Exporter.copyAttachments normalizeNFKD Date options item outputPaths selectedPdfs names
     : M (list jsstring)).
Proof.
  revert names. induction selectedPdfs as [|attachment rest IH]; intros names;
    cbn [Exporter.copyAttachments]; monotone_steps.
  - unfold Exporter.copyAttachment. monotone_steps.
  - apply IH.
Qed.

Lemma monotone_writeItem options item outputPaths :
  Progress.monotone (writeItem options item outputPaths).
Proof.
  unfold Exporter.writeItem. monotone_steps. apply monotone_copyAttachments.
Qed.

Lemma monotone_exportOne options summary : Progress.monotone (exportOne options summary).
Proof.
  unfold Exporter.exportOne. monotone_steps;
    first [apply monotone_removeExistingTarget | apply monotone_copyAttachments].
Qed.

Lemma continues_exportLoop options itemSummaries (st : State) :
  Progress.continues st (exportLoop options itemSummaries st).
Proof.
  revert st. induction itemSummaries as [|summary rest IH]; intros st;
    [apply continues_refl|].
  cbn [Exporter.exportLoop].
  pose proof (monotone_exportOne options summary st) as Hone.
  destruct (exportOne options summary st) as [[[|]|message] st']; cbn [snd] in Hone.
  - eapply continues_trans; [exact Hone|apply IH].
  - exact Hone.
  - eapply continues_trans; [exact Hone|]. eapply continues_trans; [|apply IH].
    unfold Exporter.recordFailure.
    eapply continues_trans; [|apply continues_logLine].
    apply continues_mapResult. tauto.
Qed.

(** X15. A run only adds to what it reports: from the state it starts in
    to the state it ends in no counter goes down and the flag is not
    lowered, the warnings and the lines of the channel that were there
    stay in front of the new ones, and every warning that was added is
    also a line of the channel, after [[warning] ]. For a whole
    [exportItems] it follows that the counters are not negative and that
    each warning of the result was logged. *)
Theorem exportItems_only_adds options itemSummaries :
  (forall st : State, Progress.continues st (exportLoop options itemSummaries st))
  /\ (forall (w : W) channel,
         let st' := (exportItems options itemSummaries w channel).2 in
         0 <= exported (Exporter.result st')
         /\ 0 <= skipped (Exporter.result st')
         /\ 0 <= failed (Exporter.result st')
         /\ channel `prefix_of` Exporter.outputChannel st'
         /\ Forall (fun warning => js "[warning] " ++ warning ∈ Exporter.outputChannel st')
              (warnings (Exporter.result st'))).
Proof.
  split; [intros st; apply continues_exportLoop|].
  intros w channel. unfold Exporter.exportItems.
  destruct (Fs.mkdirRecursive _ w) as [[[]|message] w']; cbn [snd].
  - set (st := {| Exporter.world := w'; Exporter.result := Exporter.emptyResult;
                  Exporter.outputChannel := channel |}).
    destruct (continues_exportLoop options itemSummaries st)
      as (He & Hs & Hf & _ & _ & Hl & Hlog).
    cbn in He, Hs, Hf, Hl. repeat split; try done.
    apply Forall_forall. intros warning Hin.
    destruct (Hlog warning Hin) as [Hold|Hnew]; [|done].
    cbn in Hold. by apply elem_of_nil in Hold.
  - cbn. by repeat split.
Qed.

Lemma exportLoop_counts_at_most_once options itemSummaries (st : State) :
  cancelled (Exporter.result st) = false ->
  exported (Exporter.result (exportLoop options itemSummaries st))
  + skipped (Exporter.result (exportLoop options itemSummaries st))
  + failed (Exporter.result (exportLoop options itemSummaries st))
  + (if cancelled (Exporter.result (exportLoop options itemSummaries st)) then 1 else 0)
  <= exported (Exporter.result st) + skipped (Exporter.result st)
     + failed (Exporter.result st) + Z.of_nat (length itemSummaries).
Proof.
  revert st. induction itemSummaries as [|summary rest IH]; intros st Hst.
  - cbn [Exporter.exportLoop length]. rewrite Hst. lia.
  - cbn [Exporter.exportLoop].
    pose proof (countsItem_exportOne normalizeNFKD toLowerCase Date toISOString systemClock
                  yamlDump turndown db options summary st) as Hone.
    cbv zeta in Hone.
    destruct (exportOne options summary st) as [[[|]|message] st']; cbn [fst snd] in Hone;
      unfold Exporter.counters in Hone.
    + assert (Hst' : cancelled (Exporter.result st') = false)
        by (destruct Hone as [Hone|Hone]; injection Hone as _ _ _ ->; done).
      specialize (IH st' Hst').
      destruct Hone as [Hone|Hone]; injection Hone as He Hs Hf _;
        rewrite He, Hs, Hf in IH; rewrite length_cons; lia.
    + injection Hone as -> -> -> ->. rewrite length_cons. lia.
    + injection Hone as He Hs Hf Hc.
      assert (Hst' : cancelled (Exporter.result (Exporter.recordFailure summary message st'))
                     = false) by (cbn; congruence).
      specialize (IH _ Hst'). cbn in IH |- *. rewrite He, Hs, Hf in IH. lia.
Qed.

(** X16. A run counts no item twice, and a cancelled run leaves at least
    the item at which it was cancelled uncounted: the three counters add
    up to at most the number of summaries, and to less when the flag is
    raised. The only error that leaves [exportItems] is the one of creating
    the output root, before any item was looked at. *)
Theorem exportItems_counts_at_most_once options itemSummaries (w : W) channel :
  match exportItems options itemSummaries w channel with
  | (Ok r, st') =>
      r = Exporter.result st'
      /\ exported r + skipped r + failed r + (if cancelled r then 1 else 0)
         <= Z.of_nat (length itemSummaries)
  | (Throw message, st') =>
      Fs.mkdirRecursive (Exporter.outputRootPath Date options) w
      = (Throw message, Exporter.world st')
      /\ Exporter.result st' = Exporter.emptyResult
      /\ Exporter.outputChannel st' = channel
  end.
Proof.
  unfold Exporter.exportItems.
  destruct (Fs.mkdirRecursive _ w) as [[[]|message] w']; [|done].
  split; [done|].
  set (st := {| Exporter.world := w'; Exporter.result := Exporter.emptyResult;
                Exporter.outputChannel := channel |}).
  pose proof (exportLoop_counts_at_most_once options itemSummaries st eq_refl) as Hcount.
  cbn in Hcount. exact Hcount.
Qed.

Lemma writeItem_without_selection options select item outputPaths (st : State) :
  (length (List.filter att_isPdf (attachments item)) <= 1)%nat ->
  writeItem (withSelectPdfAttachments options select) item outputPaths st
  = writeItem options item outputPaths st.
Proof.
  intros Hpdfs. unfold Exporter.writeItem, Exporter.bind.
  destruct (Exporter.liftFs _ st) as [[[]|message] st1]; [|done].
  assert (Hif : (1 <? length (List.filter att_isPdf (attachments item)))%nat = false)
    by (apply Nat.ltb_ge; lia).
  rewrite Hif. reflexivity.
Qed.

Lemma exportOne_without_selection options select summary (st : State) :
  (forall item,
      Queries.getItemExportData toLowerCase db (sum_itemId summary) = Ok item ->
      (length (List.filter att_isPdf (attachments item)) <= 1)%nat) ->
  exportOne (withSelectPdfAttachments options select) summary st
  = exportOne options summary st.
Proof.
  intros Hpdfs. unfold Exporter.exportOne, Exporter.bind at 1 5, Exporter.liftOutcome at 1 3.
  destruct (Queries.getItemExportData toLowerCase db (sum_itemId summary)) as [item|message];
    [|done].
  specialize (Hpdfs item eq_refl).
  change (Exporter.outputPathsOf normalizeNFKD Date (withSelectPdfAttachments options select)
            item)
    with (Exporter.outputPathsOf normalizeNFKD Date options item).
  change (Exporter.existingTargetOf normalizeNFKD Date
            (withSelectPdfAttachments options select) item)
    with (Exporter.existingTargetOf normalizeNFKD Date options item).
  unfold Exporter.bind, Exporter.readWorld.
  destruct (Exporter.pathExists _ _).
  - cbn [Exporter.resolveConflict withSelectPdfAttachments Exporter.outputRootPath].
    unfold Exporter.liftOutcome.
    destruct (Exporter.resolveConflict Date options _ item) as [[| |]|message]; try done.
    destruct (Exporter.removeExistingTarget _ _ _ _ st) as [[[]|message] st1]; [|done].
    by apply writeItem_without_selection.
  - by apply writeItem_without_selection.
Qed.

(** X17. The selection of PDF attachments is left alone as long as no
    item has more than one: a run over items that each hold at most one
    PDF attachment is the same run under any selection policy, so the
    policy was not consulted. *)
Theorem exportLoop_selects_only_among_several options select itemSummaries (st : State) :
  (forall summary item,
      summary ∈ itemSummaries ->
      Queries.getItemExportData toLowerCase db (sum_itemId summary) = Ok item ->
      (length (List.filter att_isPdf (attachments item)) <= 1)%nat) ->
  exportLoop (withSelectPdfAttachments options select) itemSummaries st
  = exportLoop options itemSummaries st.
Proof.
  revert st. induction itemSummaries as [|summary rest IH]; intros st Hpdfs; [done|].
  cbn [Exporter.exportLoop]. rewrite exportOne_without_selection.
  - destruct (exportOne options summary st) as [[[|]|message] st']; [|done|];
      apply IH; intros s item Hs; apply Hpdfs; by apply list_elem_of_further.
  - intros item. apply Hpdfs. apply list_elem_of_here.
Qed.

(** X18. A note without content shows as such: when the HTML of a note is
    blank the converter is not run on it, and a note that has no title
    either is rendered as its heading and the line that says that it is
    empty. *)
Theorem blank_note_renders_placeholder note :
  Str.trim (note_noteHtml note) = [] ->
  Markdown.nonBlank (note_title note) = false ->
  Markdown.renderNotes (Exporter.convertNotesToMarkdown turndown [note])
  = js "### Note 1" ++ js LF ++ js "Empty note content." ++ js LF.
Proof.
  intros Hhtml Htitle. unfold Exporter.convertNotesToMarkdown. cbn [List.map].
  rewrite Hhtml. unfold Markdown.renderNotes. cbv zeta. cbn [imap List.concat].
  unfold Markdown.noteLines. cbn [note_title note_noteMarkdown]. rewrite Htitle.
  reflexivity.
Qed.

Lemma copyAttachment_copies_or_warns options item outputPaths attachment names (st : State) :
  match Exporter.copyAttachment normalizeNFKD Date options item outputPaths attachment names st
  with
  | (Ok names', st') =>
      (names' = names
       /\ exists warning,
           warnings (Exporter.result st') = warnings (Exporter.result st) ++ [warning])
      \/ ((exists name, names' = names ++ [name])
          /\ warnings (Exporter.result st') = warnings (Exporter.result st))
  | (Throw _, st') => warnings (Exporter.result st') = warnings (Exporter.result st)
  end.
Proof.
  unfold Exporter.copyAttachment.
  destruct (negb (truthy _)).
  { left. split; [done|]. by eexists. }
  cbv zeta. unfold Exporter.bind at 1. unfold Exporter.readWorld at 1.
  destruct (negb (Exporter.pathExists _ _)).
  { left. split; [done|]. by eexists. }
  unfold Exporter.bind, Exporter.readWorld, Exporter.liftFs, Exporter.ret.
  destruct (Fs.copyFile _ _ _) as [[[]|message] w']; [|done].
  right. split; [by eexists|done].
Qed.

(** X28. Every selected attachment is either copied or warned about. When
    the loop over the selected PDFs completes, the names of the copies
    and the warnings have together grown by the number of selected PDFs:
    each attachment added one name or one warning. The names and warnings
    that were there stay in front; when a copy throws, the warnings of
    the attachments before it are kept. *)
Theorem copyAttachments_copies_or_warns options item outputPaths selectedPdfs names
    (st : State) :
  let run :=
    Exporter.copyAttachments normalizeNFKD Date options item outputPaths selectedPdfs names
      st in
  warnings (Exporter.result st) `prefix_of` warnings (Exporter.result run.2)
  /\ match run.1 with
     | Ok names' =>
         names `prefix_of` names'
         /\ (length names' + length (warnings (Exporter.result run.2))
             = length names + length (warnings (Exporter.result st))
               + length selectedPdfs)%nat
     | Throw _ => True
     end.
Proof.
  cbv zeta. revert names st.
  induction selectedPdfs as [|attachment rest IH]; intros names st.
  - cbn. split; [done|]. split; [done|lia].
  - cbn [Exporter.copyAttachments]. unfold Exporter.bind.
    pose proof (copyAttachment_copies_or_warns options item outputPaths attachment names st)
      as Hone.
    destruct (Exporter.copyAttachment _ _ _ _ _ _ _ st) as [[names1|message] st1].
    + destruct (IH names1 st1) as [Hwarnings Hrest].
      destruct Hone as [(-> & warning & Hw)|((name & ->) & Hw)].
      * split; [rewrite Hw in Hwarnings; by eapply prefix_app_l|].
        destruct (Exporter.copyAttachments _ _ _ _ _ _ _ st1).1 as [names'|]; [|done].
        destruct Hrest as [Hprefix Hcount]. split; [done|].
        rewrite Hw, length_app in Hcount. cbn [length] in Hcount |- *. lia.
      * split; [by rewrite Hw in Hwarnings|].
        destruct (Exporter.copyAttachments _ _ _ _ _ _ _ st1).1 as [names'|]; [|done].
        destruct Hrest as [Hprefix Hcount]. split; [by eapply prefix_app_l|].
        rewrite Hw, length_app in Hcount. cbn [length] in Hcount |- *. lia.
    + cbn [fst snd]. split; [|done]. by rewrite Hone.
Qed.

End RunFacts.

Lemma exportLoop_selects_only_among_several_witness :
  Exporter.exportLoop (fun s => s) Str.toLowerCaseAscii unit Samples.isoString (fun _ => tt)
    Samples.yamlStub (fun html => html) Samples.testDb
    (withSelectPdfAttachments (Samples.fixedOptions ItemFolder Overwrite)
       MoreSamples.noSelection)
    [Samples.summary1; Samples.summary2] (Samples.startState Samples.emptyWorld)
  = Samples.sampleLoop Samples.testDb ItemFolder Overwrite
      [Samples.summary1; Samples.summary2] (Samples.startState Samples.emptyWorld).
Proof.
  apply (exportLoop_selects_only_among_several (W := MemFs.Tree)).
  intros summary item Hin Hitem.
  apply elem_of_cons in Hin as [->|Hin];
    [|apply list_elem_of_singleton in Hin as ->];
    vm_compute in Hitem; injection Hitem as <-; vm_compute; lia.
Defined.

Lemma blank_note_renders_placeholder_witness :
  Str.trim (note_noteHtml MoreSamples.blankNote) = []
  /\ Markdown.renderNotes
       (Exporter.convertNotesToMarkdown (fun html => html) [MoreSamples.blankNote])
     = js "### Note 1" ++ js LF ++ js "Empty note content." ++ js LF.
Proof.
  split; [reflexivity|].
  apply (blank_note_renders_placeholder (fun html => html) MoreSamples.blankNote);
    reflexivity.
Defined.

(** ** Helpers of the queries *)

Section QueryHelperFacts.

Lemma placeholders_shape n :
  length (List.filter (fun c => (c =? 63)%N)
            (Path.intercalate (js ", ") (replicate (S n) (js "?")))) = S n
  /\ length (Path.intercalate (js ", ") (replicate (S n) (js "?"))) = (3 * n + 1)%nat.
Proof.
  induction n as [|n [IHq IHl]]; [done|].
  change (Path.intercalate (js ", ") (replicate (S (S n)) (js "?")))
    with (js "?" ++ js ", " ++ Path.intercalate (js ", ") (replicate (S n) (js "?"))).
  split.
  - rewrite !List.filter_app, !length_app, IHq. reflexivity.
  - rewrite !length_app, IHl. cbn [js list_ascii_of_string List.map length]. lia.
Qed.

(** X19. [sqlPlaceholders] throws exactly for a count that is not
    positive; otherwise it returns a text with [count] question marks,
    separated by a comma and a space. A caller that returns early on an
    empty list of identifiers never meets the error. *)
Theorem sqlPlaceholders_counts count :
  match DbHelpers.sqlPlaceholders count with
  | Ok placeholders =>
      0 < count
      /\ length (List.filter (fun c => (c =? 63)%N) placeholders) = Z.to_nat count
      /\ Z.of_nat (length placeholders) = 3 * count - 2
  | Throw message =>
      count <= 0 /\ message = js "Placeholder count must be greater than zero."
  end.
Proof.
  unfold DbHelpers.sqlPlaceholders. destruct (Z.leb_spec count 0) as [Hle|Hlt]; [done|].
  split; [done|].
  destruct (Z.to_nat count) as [|n] eqn:Hcount; [lia|].
  destruct (placeholders_shape n) as [Hq Hl]. rewrite Hq, Hl. split; [done|lia].
Qed.

Lemma trim_fixed s :
  from_option Char.isSpace false (head s) = false ->
  from_option Char.isSpace false (last s) = false ->
  Str.trim s = s.
Proof.
  intros Hhead Hlast. unfold Str.trim, Str.stripEnds.
  assert (Hdrop : Str.dropWhile Char.isSpace s = s).
  { destruct s as [|c s]; [done|]. cbn [head from_option] in Hhead.
    cbn [Str.dropWhile]. by rewrite Hhead. }
  rewrite Hdrop. by apply dropWhileEnd_keep.
Qed.

Lemma trim_trim s : Str.trim (Str.trim s) = Str.trim s.
Proof.
  apply trim_fixed.
  - destruct (head (Str.trim s)) as [c|] eqn:Hhead; [|done].
    exact (stripEnds_head _ _ _ Hhead).
  - destruct (last (Str.trim s)) as [c|] eqn:Hlast; [|done].
    exact (stripEnds_last _ _ _ Hlast).
Qed.

Lemma trim_after_space s : Str.trim (32%N :: s) = Str.trim s.
Proof. done. Qed.

Lemma split_after_space p s :
  p 32%N = false ->
  List.map Str.trim (Str.split p (32%N :: s)) = List.map Str.trim (Str.split p s).
Proof.
  intros Hp. cbn [Str.split]. rewrite Hp.
  destruct (Str.split p s) as [|piece rest] eqn:Hsplit; [by apply split_nonempty in Hsplit|].
  cbn [List.map]. by rewrite trim_after_space.
Qed.

Lemma split_groupConcat names :
  Forall (fun name => Forall (fun c => Delimited.isSemicolon c = false) name) names ->
  names <> [] ->
  List.map Str.trim (Str.split Delimited.isSemicolon (Path.intercalate (js "; ") names))
  = List.map Str.trim names.
Proof.
  induction 1 as [|name names Hname Hnames IH]; [done|]. intros _.
  destruct names as [|next names].
  - cbn [Path.intercalate]. by rewrite split_plain.
  - change (Path.intercalate (js "; ") (name :: next :: names))
      with (name ++ 59%N :: 32%N :: Path.intercalate (js "; ") (next :: names)).
    rewrite split_app_sep by done. rewrite (split_plain _ _ Hname).
    cbn [app List.map]. f_equal. rewrite split_after_space by done. by apply IH.
Qed.

(** X20. [parseTagsText] returns entries that are not empty, hold no
    semicolon and start and end with a character that is not white space;
    it takes apart what the summary query puts together: the tags text
    that [GROUP_CONCAT] builds from names without semicolon and without
    white space around them is parsed into these names. *)
Theorem parseTagsText_entries_and_round_trip :
  (forall tagsText,
      Forall (fun entry =>
                entry <> [] /\ Str.trim entry = entry
                /\ Forall (fun c => Delimited.isSemicolon c = false) entry)
        (Delimited.parseTagsText tagsText))
  /\ (forall names,
         Forall (fun name =>
                   name <> [] /\ Str.trim name = name
                   /\ Forall (fun c => Delimited.isSemicolon c = false) name) names ->
         Delimited.parseTagsText (Sql.groupConcat names) = names).
Proof.
  split.
  - intros tagsText. unfold Delimited.parseTagsText, Delimited.parseDelimited.
    destruct (negb (truthy tagsText)); [constructor|].
    apply Forall_forall. intros entry Hentry.
    apply elem_of_List_filter in Hentry as [Hentry Hne].
    apply negb_true_iff, bool_decide_eq_false in Hne.
    apply elem_of_List_map in Hentry as (piece & -> & Hpiece).
    split; [done|]. split; [apply trim_trim|].
    apply split_pieces_plain in Hpiece.
    unfold Str.trim.
    eapply Forall_impl; [apply (stripEnds_Forall _ (fun c => negb (Delimited.isSemicolon c)))|].
    + eapply Forall_impl; [exact Hpiece|]. intros c Hc. cbv beta in Hc. by rewrite Hc.
    + intros c Hc. cbv beta in Hc. by apply negb_true_iff in Hc.
  - intros names Hnames. unfold Delimited.parseTagsText, Delimited.parseDelimited.
    destruct names as [|name names]; [done|].
    assert (Hfirst : name <> []) by (by inversion Hnames as [|? ? (? & _) _]).
    assert (Htruthy : truthy (Sql.groupConcat (name :: names)) = true).
    { cbn [Sql.groupConcat]. destruct name as [|c name]; [done|]. by destruct names. }
    rewrite Htruthy. cbn [negb Sql.groupConcat from_option id].
    rewrite split_groupConcat; [| |done].
    + assert (Htrim : List.map Str.trim (name :: names) = name :: names).
      { clear Hfirst Htruthy. induction Hnames as [|n ns (_ & Hn & _) _ IH]; [done|].
        cbn [List.map]. by rewrite Hn, IH. }
      rewrite Htrim. clear Htrim Hfirst Htruthy.
      induction Hnames as [|n ns (Hn & _) _ IH]; [done|].
      cbn [List.filter]. rewrite bool_decide_eq_false_2 by done. cbn [negb]. by rewrite IH.
    + eapply Forall_impl; [exact Hnames|]. by intros n (_ & _ & Hn).
Qed.

End QueryHelperFacts.

Lemma parseTagsText_entries_and_round_trip_witness :
  Delimited.parseTagsText (Sql.groupConcat [js "cognition"; js "distributed systems"])
  = [js "cognition"; js "distributed systems"]
  /\ Delimited.parseTagsText (Some (js " a ;; b;"))= [js "a"; js "b"].
Proof.
  split; [|reflexivity].
  apply (proj2 parseTagsText_entries_and_round_trip).
  repeat constructor; try done; try (by intros ?).
Defined.

(** ** Collections *)

Section CollectionFacts.

Import Collections.

Lemma climb_acc fuel byId current segments :
  climb fuel byId current segments = (segments ++.) <$> climb fuel byId current [].
Proof.
  revert current segments. induction fuel as [|fuel IH]; intros current segments.
  - cbn [climb]. destruct current as [id|]; [|cbn; by rewrite app_nil_r].
    destruct (byId !! id); [done|cbn; by rewrite app_nil_r].
  - cbn [climb]. destruct current as [id|]; [|cbn; by rewrite app_nil_r].
    destruct (byId !! id) as [node|]; [|cbn; by rewrite app_nil_r].
    rewrite (IH _ (segments ++ _)), (IH _ ([] ++ _)).
    destruct (climb fuel byId (parentCollectionId node) []) as [l|]; [|done].
    cbn. by rewrite <- app_assoc.
Qed.

Lemma climb_more fuel byId current segments result :
  climb fuel byId current segments = Some result ->
  climb (S fuel) byId current segments = Some result.
Proof.
  revert current segments. induction fuel as [|fuel IH]; intros current segments.
  - cbn [climb]. destruct current as [id|]; [|done]. by destruct (byId !! id).
  - intros Hclimb. cbn [climb] in Hclimb. change (climb (S (S fuel)) byId current segments)
      with (match current with
            | None => Some segments
            | Some id =>
                match byId !! id with
                | None => Some segments
                | Some node =>
                    climb (S fuel) byId (parentCollectionId node)
                      (segments ++ [collectionName node])
                end
            end).
    destruct current as [id|]; [|done]. destruct (byId !! id) as [node|]; [|done].
    by apply IH.
Qed.

Lemma getCollectionPathSegments_more fuel id byId segments :
  getCollectionPathSegments fuel id byId = Some segments ->
  getCollectionPathSegments (S fuel) id byId = Some segments.
Proof.
  unfold getCollectionPathSegments. intros Hsegments.
  destruct (climb fuel byId (Some id) []) as [l|] eqn:Hclimb; [|done].
  by rewrite (climb_more _ _ _ _ _ Hclimb).
Qed.

Lemma getCollectionPathSegments_step fuel id byId :
  getCollectionPathSegments (S fuel) id byId
  = match byId !! id with
    | None => Some []
    | Some node =>
        (fun parentSegments => parentSegments ++ [collectionName node])
          <$> match parentCollectionId node with
              | Some parent => getCollectionPathSegments fuel parent byId
              | None => Some []
              end
    end.
Proof.
  unfold getCollectionPathSegments. cbn [climb].
  destruct (byId !! id) as [node|]; [|done].
  rewrite climb_acc. destruct (parentCollectionId node) as [parent|].
  - destruct (climb fuel byId (Some parent) []) as [l|]; [|done]. by cbn.
  - by destruct fuel.
Qed.

(** X21. The path of a collection is the path of its parent followed by
    its own name, and its own name alone when it has no parent; a
    collection that is not in the map has the empty path. One more
    iteration than the parent needs is enough, more iterations change
    nothing, and the label shown for a collection is this path joined
    with [ / ]. *)
Theorem getCollectionPathSegments_extends_parent fuel id byId :
  getCollectionPathSegments (S fuel) id byId
  = match byId !! id with
    | None => Some []
    | Some node =>
        (fun parentSegments => parentSegments ++ [collectionName node])
          <$> match parentCollectionId node with
              | Some parent => getCollectionPathSegments fuel parent byId
              | None => Some []
              end
    end
  /\ (forall segments,
         getCollectionPathSegments fuel id byId = Some segments ->
         getCollectionPathSegments (S fuel) id byId = Some segments)
  /\ collectionPathLabel (S fuel) id byId
     = Path.intercalate (js " / ") <$> getCollectionPathSegments (S fuel) id byId.
Proof.
  split; [apply getCollectionPathSegments_step|].
  split; [apply getCollectionPathSegments_more|].
  unfold collectionPathLabel, getCollectionPathSegments.
  by destruct (climb (S fuel) byId (Some id) []).
Qed.

(** X22. The folder of a sub-collection in the mirrored layout lies in
    the folder of its parent: when the parent is the root collection or
    lies below it, the path of a collection relative to the root is the
    relative path of its parent followed by its own name; the relative
    path of the root itself is empty. *)
Theorem getRelativePathSegments_extends_parent fuel root id parent byId node
    rootSegments parentSegments :
  byId !! id = Some node ->
  parentCollectionId node = Some parent ->
  getCollectionPathSegments fuel root byId = Some rootSegments ->
  getCollectionPathSegments fuel parent byId = Some parentSegments ->
  (length rootSegments <= length parentSegments)%nat ->
  getRelativePathSegments fuel root parent byId
  = Some (drop (length rootSegments) parentSegments)
  /\ getRelativePathSegments (S fuel) root id byId
     = Some (drop (length rootSegments) parentSegments ++ [collectionName node])
  /\ getRelativePathSegments fuel root root byId = Some [].
Proof.
  intros Hnode Hparent Hroot Hsegments Hlen. unfold getRelativePathSegments.
  split; [by rewrite Hroot, Hsegments|]. split.
  - rewrite (getCollectionPathSegments_more _ _ _ _ Hroot).
    rewrite getCollectionPathSegments_step.
    rewrite Hnode, Hparent, Hsegments. cbn. by rewrite drop_app_le.
  - rewrite Hroot. cbn. by rewrite drop_all.
Qed.



Lemma childrenByParent_fold collections (m : gmap Z (list Z)) parent :
  default []
    (fold_left
       (fun (m : gmap Z (list Z)) collection =>
          match coll_parentCollectionId collection with
          | None => m
          | Some parent =>
              <[parent := default [] (m !! parent) ++ [coll_collectionId collection]]> m
          end) collections m !! parent)
  = default [] (m !! parent) ++ childrenOf collections parent.
Proof.
  revert m. induction collections as [|c collections IH]; intros m.
  - cbn. by rewrite app_nil_r.
  - cbn [fold_left]. rewrite IH. unfold childrenOf. cbn [List.filter].
    destruct (coll_parentCollectionId c) as [q|].
    + destruct (decide (q = parent)) as [->|Hne].
      * rewrite lookup_insert_eq, bool_decide_eq_true_2 by done.
        cbn [from_option id List.map]. by rewrite <- app_assoc.
      * rewrite lookup_insert_ne by done.
        rewrite bool_decide_eq_false_2; [done|]. by intros [= ?].
    + by rewrite bool_decide_eq_false_2.
Qed.

(** The children that the traversal finds for a collection. *)
Lemma childrenByParent_lookup collections parent :
  default [] (childrenByParent collections !! parent) = childrenOf collections parent.
Proof. unfold childrenByParent. by rewrite childrenByParent_fold, lookup_empty. Qed.

Lemma drain_more fuel children queue ordered result :
  drain fuel children queue ordered = Some result ->
  drain (S fuel) children queue ordered = Some result.
Proof.
  revert queue ordered. induction fuel as [|fuel IH]; intros queue ordered.
  - by destruct queue.
  - destruct queue as [|current rest]; [done|]. intros Hdrain.
    change (drain (S fuel) children (current :: rest) ordered)
      with (drain fuel children (rest ++ default [] (children !! current))
              (ordered ++ [current])) in Hdrain.
    change (drain (S (S fuel)) children (current :: rest) ordered)
      with (drain (S fuel) children (rest ++ default [] (children !! current))
              (ordered ++ [current])).
    by apply IH.
Qed.

Lemma drain_le fuel fuel' children queue ordered result :
  (fuel <= fuel')%nat ->
  drain fuel children queue ordered = Some result ->
  drain fuel' children queue ordered = Some result.
Proof.
  induction 1 as [|fuel' _ IH]; [done|]. intros Hdrain. by apply drain_more, IH.
Qed.

(** What the traversal returns: what had left the queue, what was in it,
    and then more, among which are the children of all that was in the
    queue or came after it. *)
Lemma drain_result fuel children queue ordered result :
  drain fuel children queue ordered = Some result ->
  exists rest,
    result = ordered ++ queue ++ rest
    /\ forall x y, x ∈ queue ++ rest -> y ∈ default [] (children !! x) -> y ∈ rest.
Proof.
  revert queue ordered. induction fuel as [|fuel IH]; intros queue ordered Hdrain.
  - destruct queue as [|current rest]; [|done]. injection Hdrain as <-.
    exists []. split; [by rewrite !app_nil_r|]. by intros x y Hx%elem_of_nil.
  - destruct queue as [|current queue].
    + injection Hdrain as <-. exists []. split; [by rewrite !app_nil_r|].
      by intros x y Hx%elem_of_nil.
    + cbn [drain] in Hdrain. apply IH in Hdrain as (rest & -> & Hclosed).
      exists (default [] (children !! current) ++ rest).
      split; [by rewrite <- !app_assoc|].
      intros x y Hx Hy. cbn [app] in Hx. apply elem_of_cons in Hx as [->|Hx].
      * apply elem_of_app. by left.
      * apply elem_of_app. right. apply (Hclosed x y); [|done].
        rewrite <- app_assoc. exact Hx.
Qed.

(** A property of what is in the queue or has left it that passes from a
    collection to its children holds for all that the traversal
    returns. *)
Lemma drain_sound (P : Z -> Prop) fuel children queue ordered result :
  (forall x y, P x -> y ∈ default [] (children !! x) -> P y) ->
  Forall P (ordered ++ queue) ->
  drain fuel children queue ordered = Some result ->
  Forall P result.
Proof.
  intros Hstep. revert queue ordered.
  induction fuel as [|fuel IH]; intros queue ordered Hstart Hdrain.
  - destruct queue as [|current rest]; [|done]. injection Hdrain as <-.
    by rewrite app_nil_r in Hstart.
  - destruct queue as [|current queue].
    + injection Hdrain as <-. by rewrite app_nil_r in Hstart.
    + cbn [drain] in Hdrain. apply (IH _ _) in Hdrain; [done|].
      rewrite Forall_app in Hstart. destruct Hstart as [Hordered Hqueue].
      inversion Hqueue as [|? ? Hcurrent Hrest]; subst.
      rewrite !Forall_app. repeat split; try done; [by repeat constructor|].
      apply Forall_forall. intros y Hy. by apply (Hstep current).
Qed.

Section Termination.

Variable children : gmap Z (list Z).
Variable rank : Z -> nat.
Hypothesis rank_decreases :
  forall parent child,
    child ∈ default [] (children !! parent) -> (rank child < rank parent)%nat.

Local Abbreviation total rankOf ids :=
  (foldr (fun child sum => weight children (rankOf child) child + sum)%nat 0%nat ids).

Lemma total_ext (f g : Z -> nat) ids :
  (forall x, x ∈ ids -> weight children (f x) x = weight children (g x) x) ->
  total f ids = total g ids.
Proof.
  induction ids as [|x ids IH]; intros Heq; [done|].
  cbn [foldr]. rewrite (Heq x) by apply list_elem_of_here.
  rewrite IH; [done|]. intros y Hy. apply Heq. by apply list_elem_of_further.
Qed.

Lemma weight_stable n m id :
  (rank id <= n)%nat -> (rank id <= m)%nat ->
  weight children n id = weight children m id.
Proof.
  revert m id. induction n as [|n IH]; intros m id Hn Hm.
  - destruct m as [|m]; [done|]. cbn [weight].
    destruct (default [] (children !! id)) as [|child l] eqn:Hchildren; [done|].
    assert (Hchild : child ∈ default [] (children !! id))
      by (rewrite Hchildren; apply list_elem_of_here).
    apply rank_decreases in Hchild. lia.
  - destruct m as [|m].
    + cbn [weight].
      destruct (default [] (children !! id)) as [|child l] eqn:Hchildren; [done|].
      assert (Hchild : child ∈ default [] (children !! id))
        by (rewrite Hchildren; apply list_elem_of_here).
      apply rank_decreases in Hchild. lia.
    + cbn [weight]. f_equal.
      apply (total_ext (fun _ => n) (fun _ => m)). intros child Hchild.
      apply rank_decreases in Hchild. apply IH; lia.
Qed.

Lemma weight_children id :
  weight children (rank id) id = S (total rank (default [] (children !! id))).
Proof.
  destruct (rank id) as [|r] eqn:Hrank.
  - cbn [weight].
    destruct (default [] (children !! id)) as [|child l] eqn:Hchildren; [done|].
    assert (Hchild : child ∈ default [] (children !! id))
      by (rewrite Hchildren; apply list_elem_of_here).
    apply rank_decreases in Hchild. lia.
  - cbn [weight]. f_equal. apply (total_ext (fun _ => r) rank). intros child Hchild.
    apply rank_decreases in Hchild. apply weight_stable; lia.
Qed.

Lemma total_app ids ids' : total rank (ids ++ ids') = (total rank ids + total rank ids')%nat.
Proof. induction ids as [|x ids IH]; [done|]. cbn [app foldr]. rewrite IH. lia. Qed.

Lemma drain_terminates fuel queue ordered :
  (total rank queue <= fuel)%nat -> is_Some (drain fuel children queue ordered).
Proof.
  revert queue ordered. induction fuel as [|fuel IH]; intros queue ordered Hfuel.
  - destruct queue as [|current rest]; [done|].
    cbn [foldr] in Hfuel. rewrite weight_children in Hfuel. lia.
  - destruct queue as [|current rest]; [done|].
    cbn [drain]. apply IH. rewrite total_app.
    cbn [foldr] in Hfuel. rewrite weight_children in Hfuel. lia.
Qed.

End Termination.

(** The traversal from a root, when a rank falls from each collection to
    its children: it ends, with one list whatever the number of iterations
    beyond those it needs; the list starts with the root, is closed under
    children, and every property of the root that passes to children
    holds for all of it. *)
Lemma drain_reaches (children : gmap Z (list Z)) (rank : Z -> nat) root :
  (forall parent child,
      child ∈ default [] (children !! parent) -> (rank child < rank parent)%nat) ->
  exists fuel ids,
    drain fuel children [root] [] = Some ids
    /\ (forall fuel' ids', drain fuel' children [root] [] = Some ids' -> ids' = ids)
    /\ head ids = Some root
    /\ (forall x y, x ∈ ids -> y ∈ default [] (children !! x) -> y ∈ ids)
    /\ forall P : Z -> Prop,
        P root -> (forall x y, P x -> y ∈ default [] (children !! x) -> P y) ->
        Forall P ids.
Proof.
  intros Hrank.
  set (fuel := foldr (fun child sum => weight children (rank child) child + sum)%nat 0%nat
                 [root]).
  destruct (drain_terminates children rank Hrank fuel [root] []) as (ids & Hids); [done|].
  exists fuel, ids. split; [done|]. split.
  { intros fuel' ids' Hids'. destruct (Nat.le_ge_cases fuel fuel') as [Hle|Hle].
    - apply (drain_le _ _ _ _ _ _ Hle) in Hids. congruence.
    - apply (drain_le _ _ _ _ _ _ Hle) in Hids'. congruence. }
  assert (Hsound : forall P : Z -> Prop,
             P root -> (forall x y, P x -> y ∈ default [] (children !! x) -> P y) ->
             Forall P ids).
  { intros P Hroot Hstep.
    apply (drain_sound P fuel children [root] [] ids Hstep); [by repeat constructor|done]. }
  apply drain_result in Hids as (rest & -> & Hclosed).
  split; [done|]. split; [|done].
  intros x y Hx Hy. cbn [app]. apply list_elem_of_further. by apply (Hclosed x y).
Qed.

(** X24. Over collections without a cycle of parents (a rank falls from
    each parent to its children), the traversal of
    [getDescendantCollectionIds] ends, with the same list whatever the
    number of iterations it is given beyond those it needs; the list
    starts with the root and holds exactly the collections below the root:
    the root, and the children of every collection it holds. *)
Theorem getDescendantCollectionIds_descendants root collections (rank : Z -> nat) :
  (forall parent child,
      child ∈ childrenOf collections parent -> (rank child < rank parent)%nat) ->
  exists fuel ids,
    getDescendantCollectionIds fuel root collections = Some ids
    /\ (forall fuel' ids',
           getDescendantCollectionIds fuel' root collections = Some ids' -> ids' = ids)
    /\ head ids = Some root
    /\ forall x, x ∈ ids <-> descendantOf collections root x.
Proof.
  intros Hrank. unfold getDescendantCollectionIds.
  destruct (drain_reaches (childrenByParent collections) rank root)
    as (fuel & ids & Hids & Hunique & Hhead & Hclosed & Hsound).
  { intros parent child. rewrite childrenByParent_lookup. apply Hrank. }
  exists fuel, ids. split; [done|]. split; [done|]. split; [done|].
  intros x. split.
  - specialize (Hsound (descendantOf collections root)).
    rewrite Forall_forall in Hsound. apply Hsound; [constructor|].
    intros p y Hp Hy. apply (descendant_child _ _ p y Hp).
    by rewrite childrenByParent_lookup in Hy.
  - induction 1 as [|parent child _ IH Hchild].
    + destruct ids as [|first ids]; [done|]. injection Hhead as ->. apply list_elem_of_here.
    + apply (Hclosed parent child IH). by rewrite childrenByParent_lookup.
Qed.

Import Tables.

Lemma childrenOf_all (rows : list CollectionRow) parent :
  childrenOf (List.map CollectionQueries.mapCollection rows) parent
  = List.map col_collectionID
      (List.filter (fun c => Sql.eqNull (col_parentCollectionID c) parent) rows).
Proof.
  unfold childrenOf. induction rows as [|row rows IH]; [done|].
  cbn [List.map List.filter CollectionQueries.mapCollection coll_parentCollectionId].
  destruct (col_parentCollectionID row) as [q|] eqn:Hq; cbn [Sql.eqNull].
  - destruct (Z.eqb_spec q parent) as [->|Hne].
    + rewrite bool_decide_eq_true_2 by done. cbn [List.map]. by rewrite IH.
    + rewrite bool_decide_eq_false_2; [done|]. by intros [= ?].
  - by rewrite bool_decide_eq_false_2.
Qed.

(** The recursive table is filled as the traversal fills its list. *)
Lemma descendants_drain fuel db queue ordered :
  drain fuel (childrenByParent (List.map CollectionQueries.mapCollection (Db.collections db)))
    queue ordered
  = (ordered ++.) <$> CollectionQueries.descendants fuel db queue.
Proof.
  revert queue ordered. induction fuel as [|fuel IH]; intros queue ordered.
  - destruct queue as [|d rest]; [|done]. cbn. by rewrite app_nil_r.
  - destruct queue as [|d rest]; [cbn; by rewrite app_nil_r|].
    cbn [drain CollectionQueries.descendants].
    rewrite IH, childrenByParent_lookup, childrenOf_all.
    destruct (CollectionQueries.descendants fuel db _) as [l|]; [|done].
    cbn. by rewrite <- app_assoc.
Qed.

Lemma elem_of_childrenOf collections parent child :
  child ∈ childrenOf collections parent
  <-> exists c, c ∈ collections /\ coll_collectionId c = child
               /\ coll_parentCollectionId c = Some parent.
Proof.
  unfold childrenOf. rewrite elem_of_List_map. split.
  - intros (c & -> & Hc). apply elem_of_List_filter in Hc as [Hc Hparent].
    apply bool_decide_eq_true in Hparent. by exists c.
  - intros (c & Hc & <- & Hparent). exists c. split; [done|].
    apply elem_of_List_filter. split; [done|]. by apply bool_decide_eq_true.
Qed.

Lemma elem_of_getCollectionsForLibrary db libraryId c :
  c ∈ CollectionQueries.getCollectionsForLibrary db libraryId
  <-> exists row, row ∈ Db.collections db /\ col_libraryID row = libraryId
                 /\ c = CollectionQueries.mapCollection row.
Proof.
  unfold CollectionQueries.getCollectionsForLibrary. rewrite elem_of_List_map. split.
  - intros (row & -> & Hrow). apply elem_of_orderBy, elem_of_List_filter in Hrow as [Hrow Hlib].
    apply Z.eqb_eq in Hlib. by exists row.
  - intros (row & Hrow & Hlib & ->). exists row. split; [done|].
    apply elem_of_orderBy, elem_of_List_filter. split; [done|]. by apply Z.eqb_eq.
Qed.

Lemma elem_of_directItemIds db collectionId x :
  x ∈ CollectionQueries.directItemIds db collectionId
  <-> exists ci, ci ∈ Db.collectionItems db /\ ci_collectionID ci = collectionId
                /\ ci_itemID ci = x.
Proof.
  unfold CollectionQueries.directItemIds. rewrite elem_of_remove_dups, elem_of_List_map.
  split.
  - intros (ci & -> & Hci). apply elem_of_List_filter in Hci as [Hci Hid].
    apply Z.eqb_eq in Hid. by exists ci.
  - intros (ci & Hci & Hid & <-). exists ci. split; [done|].
    apply elem_of_List_filter. split; [done|]. by apply Z.eqb_eq.
Qed.

(** X26. Mirroring sub-collections exports what a single folder would
    hold. Without a cycle of parents, and when the collections below the
    selected one are in the selected library, both ways of finding the
    collections end, and the item identifiers of the recursive query of
    [getCollectionItemSummaries] are the identifiers that are direct
    items of one of the collections listed by [getDescendantCollectionIds];
    no identifier is listed twice by the query. *)
Theorem mirrored_folders_hold_the_items_of_the_single_folder db libraryId root
    (rank : Z -> nat) :
  (forall row parent,
      row ∈ Db.collections db -> col_parentCollectionID row = Some parent ->
      (rank (col_collectionID row) < rank parent)%nat) ->
  (forall row parent,
      row ∈ Db.collections db -> col_parentCollectionID row = Some parent ->
      descendantOf (CollectionQueries.getCollectionsForLibrary db libraryId) root parent ->
      col_libraryID row = libraryId) ->
  exists fuel fuel' itemIds descendantIds,
    CollectionQueries.collectionItemIds fuel db root = Some itemIds
    /\ getDescendantCollectionIds fuel' root
         (CollectionQueries.getCollectionsForLibrary db libraryId) = Some descendantIds
    /\ NoDup itemIds
    /\ forall x,
        x ∈ itemIds
        <-> exists collectionId,
            collectionId ∈ descendantIds
            /\ x ∈ CollectionQueries.directItemIds db collectionId.
Proof.
  intros Hrank Hlibrary.
  set (collections := CollectionQueries.getCollectionsForLibrary db libraryId) in *.
  set (rows := List.map CollectionQueries.mapCollection (Db.collections db)).
  (* the recursive table *)
  destruct (drain_reaches (childrenByParent rows) rank root)
    as (fuel & ds & Hds & _ & Hhead & Hclosed & Hsound).
  { intros parent child. rewrite childrenByParent_lookup. unfold rows.
    rewrite childrenOf_all, elem_of_List_map. intros (row & -> & Hrow).
    apply elem_of_List_filter in Hrow as [Hrow Hparent]. apply eqNull_true in Hparent.
    by apply (Hrank row parent). }
  (* the list of the traversal *)
  destruct (drain_reaches (childrenByParent collections) rank root)
    as (fuel' & ids & Hids & _ & Hhead' & Hclosed' & Hsound').
  { intros parent child. rewrite childrenByParent_lookup, elem_of_childrenOf.
    intros (c & Hc & <- & Hparent).
    apply elem_of_getCollectionsForLibrary in Hc as (row & Hrow & _ & ->).
    by apply (Hrank row parent). }
  assert (Hbelow : Forall (descendantOf collections root) ids).
  { apply Hsound'; [constructor|]. intros p y Hp Hy.
    apply (descendant_child _ _ p y Hp). by rewrite childrenByParent_lookup in Hy. }
  assert (Hroot : root ∈ ds /\ root ∈ ids).
  { destruct ds as [|d ds]; [done|]. destruct ids as [|i ids]; [done|].
    injection Hhead as ->. injection Hhead' as ->. split; apply list_elem_of_here. }
  assert (Hsame : forall x, x ∈ ds <-> x ∈ ids).
  { intros x. split.
    - specialize (Hsound (fun x => x ∈ ids)). rewrite Forall_forall in Hsound.
      apply Hsound; [apply Hroot|]. intros p y Hp Hy.
      apply (Hclosed' p y Hp). rewrite childrenByParent_lookup in Hy |- *.
      unfold rows in Hy. rewrite childrenOf_all, elem_of_List_map in Hy.
      destruct Hy as (row & -> & Hrow).
      apply elem_of_List_filter in Hrow as [Hrow Hparent]. apply eqNull_true in Hparent.
      apply elem_of_childrenOf. exists (CollectionQueries.mapCollection row).
      split; [|done]. apply elem_of_getCollectionsForLibrary. exists row.
      split; [done|]. split; [|done]. apply (Hlibrary row p Hrow Hparent).
      rewrite Forall_forall in Hbelow. by apply Hbelow.
    - specialize (Hsound' (fun x => x ∈ ds)). rewrite Forall_forall in Hsound'.
      apply Hsound'; [apply Hroot|]. intros p y Hp Hy.
      apply (Hclosed p y Hp). rewrite childrenByParent_lookup in Hy |- *.
      apply elem_of_childrenOf in Hy as (c & Hc & <- & Hparent).
      apply elem_of_getCollectionsForLibrary in Hc as (row & Hrow & _ & ->).
      unfold rows. rewrite childrenOf_all. apply elem_of_List_map. exists row.
      split; [done|]. apply elem_of_List_filter. split; [done|]. by apply eqNull_true. }
  unfold rows in Hds. rewrite descendants_drain in Hds.
  destruct (CollectionQueries.descendants fuel db [root]) as [ds'|] eqn:Hds'; [|done].
  cbn in Hds. injection Hds as ->.
  exists fuel, fuel'. eexists. exists ids.
  split; [unfold CollectionQueries.collectionItemIds; by rewrite Hds'|].
  split; [done|]. split; [apply NoDup_remove_dups|].
  intros x. rewrite elem_of_remove_dups, list_elem_of_bind. split.
  - intros (ci & Hx & Hci). apply list_elem_of_bind in Hx as (d & Hx & Hd).
    apply list_elem_of_singleton in Hx as ->.
    apply elem_of_List_filter in Hd as [Hd Heq]. apply Z.eqb_eq in Heq as ->.
    exists (ci_collectionID ci). split; [by apply Hsame|].
    apply elem_of_directItemIds. by exists ci.
  - intros (c & Hc & Hx). apply elem_of_directItemIds in Hx as (ci & Hci & <- & <-).
    exists ci. split; [|done]. apply list_elem_of_bind. exists (ci_collectionID ci).
    split; [by apply list_elem_of_singleton|].
    apply elem_of_List_filter. split; [by apply Hsame|]. apply Z.eqb_refl.
Qed.

End CollectionFacts.

Lemma getRelativePathSegments_extends_parent_witness :
  Collections.getCollectionPathSegments 2 101 CollectionSamples.testById
  = Some [js "Top"; js "Child"]
  /\ Collections.getRelativePathSegments 1 100 100 CollectionSamples.testById = Some []
  /\ Collections.getRelativePathSegments 2 100 101 CollectionSamples.testById
     = Some [js "Child"].
Proof.
  eassert (Hnode : CollectionSamples.testById !! 101 = Some _) by (vm_compute; reflexivity).
  destruct (getRelativePathSegments_extends_parent 1 100 101 100 CollectionSamples.testById
              _ [js "Top"] [js "Top"] Hnode eq_refl ltac:(by vm_compute) ltac:(by vm_compute)
              ltac:(cbn; lia)) as (_ & Hchild & Hroot).
  split; [by vm_compute|]. split; [exact Hroot|]. rewrite Hchild. reflexivity.
Defined.


Lemma getDescendantCollectionIds_descendants_witness :
  exists fuel,
    Collections.getDescendantCollectionIds fuel 100 CollectionSamples.testCollections
    = Some [100; 101].
Proof.
  destruct (getDescendantCollectionIds_descendants 100 CollectionSamples.testCollections
              CollectionSamples.testRank) as (fuel & ids & Hids & Hunique & _).
  - intros parent child Hchild. unfold Collections.childrenOf in Hchild.
    apply elem_of_List_map in Hchild as (c & -> & Hc).
    apply elem_of_List_filter in Hc as [Hc Hparent].
    apply bool_decide_eq_true in Hparent.
    eassert (Hlist : CollectionSamples.testCollections = [_; _])
      by (vm_compute; reflexivity).
    rewrite Hlist in Hc.
    apply elem_of_cons in Hc as [->|Hc].
    { injection Hparent as <-. vm_compute. lia. }
    apply elem_of_cons in Hc as [->|Hc]; [done|].
    by apply elem_of_nil in Hc.
  - exists fuel. rewrite Hids. f_equal. symmetry. apply (Hunique 5%nat). by vm_compute.
Defined.

(** ** Discovery of the storage directory *)

Section StorageDiscoveryFacts.

Context {W : Type} `{Fs.FileSystem W}.

Lemma find_distinct (f : jsstring -> bool) seen l :
  Forall (fun s => f s = false) seen ->
  List.find f (PathCandidates.distinct seen l) = List.find f l.
Proof.
  revert seen. induction l as [|x l IH]; intros seen Hseen; [done|].
  cbn [PathCandidates.distinct List.find].
  destruct (decide (x ∈ seen)) as [Hin|Hnotin].
  - rewrite bool_decide_eq_true_2 by done. rewrite Forall_forall in Hseen.
    rewrite (Hseen x Hin). apply IH. by apply Forall_forall.
  - rewrite bool_decide_eq_false_2 by done. cbn [List.find].
    destruct (f x) eqn:Hx; [done|]. apply IH. by constructor.
Qed.

(** X25. [discoverStoragePath] returns the first of its guesses that
    exists, in the order configured path, [storage] next to the database,
    [Zotero/storage] in the home directory, in the user profile, in the
    application support directory (repeated guesses change nothing): a
    path that it returns exists, it returns nothing only when no guess
    exists, a configured path that exists wins, and without one the
    directory next to the database does when it exists. *)
Theorem discoverStoragePath_first_existing sqlitePath resolvedEnv configuredStoragePath
    (w : W) :
  let guesses :=
    PathCandidates.storageGuesses sqlitePath resolvedEnv configuredStoragePath in
  let found :=
    PathCandidates.discoverStoragePath sqlitePath resolvedEnv configuredStoragePath w in
  found = List.find (fun guess => PathCandidates.pathExists guess w) guesses
  /\ match found with
     | Some storagePath =>
         PathCandidates.pathExists storagePath w = true /\ storagePath ∈ guesses
     | None => Forall (fun guess => PathCandidates.pathExists guess w = false) guesses
     end
  /\ (Markdown.nonBlank configuredStoragePath = true ->
      PathCandidates.pathExists (Str.trim (default [] configuredStoragePath)) w = true ->
      found = Some (Str.trim (default [] configuredStoragePath)))
  /\ (Markdown.nonBlank configuredStoragePath = false
      \/ PathCandidates.pathExists (Str.trim (default [] configuredStoragePath)) w = false ->
      PathCandidates.pathExists (Path.join [Path.dirname sqlitePath; js "storage"]) w = true ->
      found = Some (Path.join [Path.dirname sqlitePath; js "storage"])).
Proof.
  intros guesses found.
  assert (Hfound : found = List.find (fun guess => PathCandidates.pathExists guess w) guesses).
  { unfold found, PathCandidates.discoverStoragePath. by apply find_distinct. }
  split; [done|]. split; [|split].
  - rewrite Hfound.
    destruct (List.find _ guesses) as [storagePath|] eqn:Hfind.
    + apply find_some in Hfind as [Hin Hexists]. split; [done|]. by apply list_elem_of_In.
    + apply Forall_forall. intros guess Hguess.
      apply (find_none _ _ Hfind). by apply list_elem_of_In.
  - intros Hconfigured Hexists. rewrite Hfound.
    unfold guesses, PathCandidates.storageGuesses. rewrite Hconfigured.
    cbn [app List.find]. by rewrite Hexists.
  - intros Hconfigured Hexists. rewrite Hfound.
    unfold guesses, PathCandidates.storageGuesses.
    destruct (Markdown.nonBlank configuredStoragePath).
    + destruct Hconfigured as [Hconfigured|Hmissing]; [done|].
      cbn [app List.find]. by rewrite Hmissing, Hexists.
    + cbn [app List.find]. by rewrite Hexists.
Qed.

End StorageDiscoveryFacts.

Lemma discoverStoragePath_first_existing_witness :
  PathCandidates.discoverStoragePath (js "/data/zotero.sqlite") CollectionSamples.linuxEnv
    (Some (js " /missing ")) CollectionSamples.storageWorld
  = Some (js "/data/storage")
  /\ PathCandidates.discoverStoragePath (js "/data/zotero.sqlite") CollectionSamples.linuxEnv
       (Some (js " /home/ada/Zotero/storage ")) CollectionSamples.storageWorld
     = Some (js "/home/ada/Zotero/storage").
Proof.
  split.
  - apply (discoverStoragePath_first_existing (W := MemFs.Tree) (js "/data/zotero.sqlite")
             CollectionSamples.linuxEnv (Some (js " /missing "))
             CollectionSamples.storageWorld); [right|]; by vm_compute.
  - apply (discoverStoragePath_first_existing (W := MemFs.Tree) (js "/data/zotero.sqlite")
             CollectionSamples.linuxEnv (Some (js " /home/ada/Zotero/storage "))
             CollectionSamples.storageWorld); by vm_compute.
Defined.

(** ** Normalized paths *)

Section NormalPathFacts.

Import PathShape.

Lemma allUp_normal stack :
  Forall (fun seg => seg = js "..") stack -> normalStack true stack.
Proof.
  induction 1 as [|seg stack -> Hstack IH]; [constructor|]. by apply normal_up.
Qed.

Lemma normalStack_tail allowAboveRoot seg stack :
  normalStack allowAboveRoot (seg :: stack) -> normalStack allowAboveRoot stack.
Proof.
  inversion 1 as [|? ? _ Hstack|? Hallow Hstack]; subst; [done|].
  by apply allUp_normal.
Qed.

Lemma pushSegment_normal allowAboveRoot stack seg :
  Forall (fun c => Path.isSlash c = false) seg ->
  normalStack allowAboveRoot stack ->
  normalStack allowAboveRoot (Path.pushSegment allowAboveRoot stack seg).
Proof.
  intros Hseg Hstack. unfold Path.pushSegment.
  destruct (decide (seg = [])) as [->|Hempty]; [done|].
  destruct (decide (seg = js ".")) as [->|Hdot]; [done|].
  rewrite !bool_decide_eq_false_2 by done. cbn [orb].
  destruct (decide (seg = js "..")) as [->|Hup].
  - rewrite bool_decide_eq_true_2 by done.
    destruct stack as [|top rest].
    + destruct allowAboveRoot eqn:Hallow; [|constructor]. by apply normal_up.
    + destruct (decide (top = js "..")) as [->|Htop].
      * rewrite bool_decide_eq_true_2 by done.
        destruct allowAboveRoot eqn:Hallow; [|done]. apply normal_up; [done|].
        inversion Hstack as [|? ? Hreal _|? _ Hrest]; subst.
        -- by destruct Hreal as (_ & _ & Hne & _).
        -- by constructor.
      * rewrite bool_decide_eq_false_2 by done. by apply normalStack_tail in Hstack.
  - rewrite bool_decide_eq_false_2 by done. by apply normal_real.
Qed.

Lemma fold_pushSegment_normal allowAboveRoot segs stack :
  Forall (fun seg => Forall (fun c => Path.isSlash c = false) seg) segs ->
  normalStack allowAboveRoot stack ->
  normalStack allowAboveRoot (fold_left (Path.pushSegment allowAboveRoot) segs stack).
Proof.
  intros Hsegs. revert stack. induction Hsegs as [|seg segs Hseg _ IH]; intros stack Hstack;
    [done|].
  cbn [fold_left]. by apply IH, pushSegment_normal.
Qed.

(** The stack of any path is normal. *)
Lemma stack_normal allowAboveRoot p :
  normalStack allowAboveRoot
    (fold_left (Path.pushSegment allowAboveRoot) (Str.split Path.isSlash p) []).
Proof.
  apply fold_pushSegment_normal; [|constructor].
  apply Forall_forall. intros seg Hseg. by apply split_pieces_plain in Hseg.
Qed.

Lemma normalStack_plain allowAboveRoot stack :
  normalStack allowAboveRoot stack ->
  Forall (fun seg => seg <> [] /\ Forall (fun c => Path.isSlash c = false) seg) stack.
Proof.
  induction 1 as [|seg stack (Hne & _ & _ & Hplain) _ IH|stack _ Hstack].
  - constructor.
  - by constructor.
  - constructor; [split; [done|by repeat constructor]|].
    eapply Forall_impl; [exact Hstack|]. intros seg ->. split; [done|by repeat constructor].
Qed.

(** Pushing the segments of a normal stack again, from the first one,
    gives the stack back. *)
Lemma refold_normal allowAboveRoot stack :
  normalStack allowAboveRoot stack ->
  fold_left (Path.pushSegment allowAboveRoot) (rev stack) [] = stack.
Proof.
  induction stack as [|seg stack IH]; intros Hstack; [done|].
  cbn [rev]. rewrite fold_left_app. cbn [fold_left].
  rewrite IH by (by apply normalStack_tail in Hstack).
  inversion Hstack as [|? ? (Hne & Hdot & Hup & _) _|? Hallow Hrest]; subst.
  - unfold Path.pushSegment. by rewrite !bool_decide_eq_false_2.
  - unfold Path.pushSegment. rewrite !bool_decide_eq_false_2 by done.
    rewrite bool_decide_eq_true_2 by done. cbn [orb].
    destruct stack as [|top rest]; [done|].
    inversion Hrest as [|? ? -> _]; subst. by rewrite bool_decide_eq_true_2.
Qed.

Lemma split_intercalate (segs : list jsstring) :
  segs <> [] ->
  Forall (fun seg => Forall (fun c => Path.isSlash c = false) seg) segs ->
  Str.split Path.isSlash (Path.intercalate (js "/") segs) = segs.
Proof.
  intros Hne Hsegs. induction Hsegs as [|seg segs Hseg Hrest IH]; [done|].
  destruct segs as [|next segs].
  - cbn [Path.intercalate]. by apply split_plain.
  - change (Path.intercalate (js "/") (seg :: next :: segs))
      with (seg ++ Char.slash :: Path.intercalate (js "/") (next :: segs)).
    rewrite split_app_sep by done. rewrite (split_plain _ _ Hseg), IH by done. done.
Qed.

Lemma intercalate_ends (segs : list jsstring) :
  segs <> [] ->
  Forall (fun seg => seg <> [] /\ Forall (fun c => Path.isSlash c = false) seg) segs ->
  from_option Path.isSlash true (head (Path.intercalate (js "/") segs)) = false
  /\ from_option Path.isSlash true (last (Path.intercalate (js "/") segs)) = false.
Proof.
  intros Hne Hsegs. induction Hsegs as [|seg segs (Hseg & Hplain) Hrest IH]; [done|].
  assert (Hhead : from_option Path.isSlash true (head seg) = false).
  { destruct seg as [|c seg]; [done|]. by inversion Hplain. }
  assert (Hlast : from_option Path.isSlash true (last seg) = false).
  { destruct (last seg) as [c|] eqn:El; [|by apply last_None in El].
    apply last_Some in El as (u & ->). apply Forall_app in Hplain as [_ Hc].
    by inversion Hc. }
  destruct segs as [|next segs]; [done|].
  change (Path.intercalate (js "/") (seg :: next :: segs))
    with (seg ++ Char.slash :: Path.intercalate (js "/") (next :: segs)).
  split.
  - destruct seg as [|c seg]; done.
  - rewrite last_app_cons. destruct IH as [_ IH]; [done|].
    destruct (Path.intercalate (js "/") (next :: segs)) as [|c rest]; [done|].
    exact IH.
Qed.

Lemma rev_nonempty {A : Type} (l : list A) : l <> [] -> rev l <> [].
Proof.
  destruct l as [|x l]; [done|]. intros _ Heq. cbn [rev] in Heq.
  by apply app_eq_nil in Heq as [_ Heq].
Qed.

(** A normal path is not empty, is absolute when its stack was built for
    an absolute path, does not end with a slash unless it is the root,
    and has its stack. *)
Lemma ofStack_stack absolute stack :
  normalStack (negb absolute) stack ->
  ofStack absolute stack <> []
  /\ Path.isAbsolute (ofStack absolute stack) = absolute
  /\ fold_left (Path.pushSegment (negb absolute))
       (Str.split Path.isSlash (ofStack absolute stack)) [] = stack.
Proof.
  intros Hstack. unfold ofStack. destruct stack as [|seg stack].
  - by destruct absolute.
  - set (segs := rev (seg :: stack)).
    assert (Hsegs : Forall (fun seg => seg <> []
                                       /\ Forall (fun c => Path.isSlash c = false) seg) segs).
    { unfold segs. apply Forall_forall. intros x Hx.
      apply list_elem_of_In, in_rev, list_elem_of_In in Hx.
      pose proof (normalStack_plain _ _ Hstack) as Hplain.
      rewrite Forall_forall in Hplain. by apply Hplain. }
    assert (Hne : segs <> []) by (by apply rev_nonempty).
    destruct (intercalate_ends segs Hne Hsegs) as [Hhead _].
    assert (Hsplit : Str.split Path.isSlash (Path.intercalate (js "/") segs) = segs).
    { apply split_intercalate; [done|]. eapply Forall_impl; [exact Hsegs|]. by intros x [_ ?]. }
    destruct (Path.intercalate (js "/") segs) as [|c body] eqn:Hbody; [done|].
    cbn [head from_option] in Hhead.
    destruct absolute; cbn [negb app js list_ascii_of_string List.map] in *.
    + split; [done|]. split; [done|].
      change (Str.split Path.isSlash (N_of_ascii "/" :: c :: body))
        with ([] :: Str.split Path.isSlash (c :: body)).
      rewrite Hsplit. cbn [fold_left]. unfold Path.pushSegment at 2.
      rewrite bool_decide_eq_true_2 by done. cbn [orb].
      unfold segs. by apply refold_normal.
    + split; [done|]. split; [by cbn [Path.isAbsolute]|].
      rewrite Hsplit. unfold segs. by apply refold_normal.
Qed.

(** Joining a normal path and a plain file name appends the name. *)
Lemma join_ofStack absolute stack b :
  normalStack (negb absolute) stack -> Path.plainName b ->
  Path.join [ofStack absolute stack; b]
  = match stack with
    | [] => (if absolute then js "/" else []) ++ b
    | _ => ofStack absolute stack ++ js "/" ++ b
    end.
Proof.
  intros Hstack Hb. pose proof Hb as (Hne & _).
  destruct (ofStack_stack absolute stack Hstack) as (Hdir & Habs & Hfold).
  unfold Path.join. cbn [List.filter]. rewrite !bool_decide_eq_false_2 by done.
  cbn [negb Path.intercalate].
  destruct (ofStack absolute stack) as [|d0 dir] eqn:Hof; [done|].
  change (Path.normalize ((d0 :: dir) ++ js "/" ++ b))
    with (Path.normalize ((d0 :: dir) ++ Char.slash :: b)).
  rewrite normalize_dir_plain_exact by done.
  cbn [Path.isAbsolute] in Habs. rewrite Habs, Hfold.
  destruct stack as [|seg stack]; [by rewrite app_nil_r|].
  assert (Hrev : rev (seg :: stack) <> []) by (by apply rev_nonempty).
  destruct (rev (seg :: stack)) as [|x l] eqn:Erev; [done|].
  rewrite <- Hof. unfold ofStack. rewrite Erev. by rewrite <- !app_assoc.
Qed.

(** The directory of a plain file name joined to a normal path is that
    path. *)
Lemma dirname_join_normal dir b :
  normalPath dir -> Path.plainName b -> Path.dirname (Path.join [dir; b]) = dir.
Proof.
  intros (absolute & stack & Hstack & ->) Hb. pose proof Hb as (Hne & Hplain & _).
  rewrite join_ofStack by done.
  assert (Hkeep : forall u, Str.dropWhileEnd Path.isSlash (u ++ b) = u ++ b).
  { intros u. apply dropWhileEnd_keep. destruct b as [|c b']; [done|].
    rewrite last_app_cons. by apply plainName_last. }
  destruct stack as [|seg stack].
  - destruct absolute; cbn [ofStack app js list_ascii_of_string List.map].
    + unfold Path.dirname. pose proof (Hkeep []) as Hb0. cbn [app] in Hb0.
      by rewrite Hb0, splitLast_plain.
    + destruct b as [|c b']; [done|]. unfold Path.dirname.
      inversion Hplain as [|? ? Hc Hb']; subst.
      destruct b' as [|c' b''].
      * cbn. by rewrite Hc.
      * rewrite dropWhileEnd_keep.
        -- by rewrite splitLast_plain, Hc.
        -- pose proof (plainName_last _ Hb) as Hlast. by rewrite last_cons_cons in Hlast.
  - destruct (ofStack_stack absolute (seg :: stack) Hstack) as (Hdir & Habs & _).
    destruct (ofStack absolute (seg :: stack)) as [|d0 dir] eqn:Hof; [done|].
    cbn [app]. unfold Path.dirname.
    change (dir ++ js "/" ++ b) with (dir ++ Char.slash :: b).
    replace (dir ++ Char.slash :: b) with ((dir ++ [Char.slash]) ++ b)
      by (by rewrite <- app_assoc).
    rewrite Hkeep. rewrite <- app_assoc. cbn [app].
    rewrite splitLast_app_plain by done.
    destruct (Path.isSlash d0) eqn:Hd0; [|done].
    destruct dir as [|d1 dir]; [|done]. exfalso.
    (* the root alone is the path of the empty stack *)
    unfold ofStack in Hof.
    assert (Hrev : rev (seg :: stack) <> []) by (by apply rev_nonempty).
    pose proof (normalStack_plain _ _ Hstack) as Hsegs.
    assert (Hsegs' : Forall (fun seg => seg <> []
                                        /\ Forall (fun c => Path.isSlash c = false) seg)
                       (rev (seg :: stack))).
    { apply Forall_forall. intros x Hx.
      apply list_elem_of_In, in_rev, list_elem_of_In in Hx.
      rewrite Forall_forall in Hsegs. by apply Hsegs. }
    destruct (intercalate_ends _ Hrev Hsegs') as [Hhead _].
    destruct (Path.intercalate (js "/") (rev (seg :: stack))) as [|c body]; [done|].
    cbn [head from_option] in Hhead.
    destruct absolute; cbn [app js list_ascii_of_string List.map] in Hof; [done|].
    injection Hof as -> _. congruence.
Qed.

Lemma normalize_normalPath q :
  q <> [] -> Str.endsWith (js "/") q = false -> normalPath (Path.normalize q).
Proof.
  intros Hne Hends. destruct q as [|c q]; [done|].
  exists (Path.isAbsolute (c :: q)).
  exists (fold_left (Path.pushSegment (negb (Path.isAbsolute (c :: q))))
            (Str.split Path.isSlash (c :: q)) []).
  split; [apply stack_normal|].
  unfold Path.normalize. cbv zeta. rewrite Hends. unfold Path.normalizeString, ofStack.
  pose proof (stack_normal (negb (Path.isAbsolute (c :: q))) (c :: q)) as Hstack.
  destruct (fold_left _ _ _) as [|seg stack] eqn:Hfold; [done|].
  assert (Hrev : rev (seg :: stack) <> []) by (by apply rev_nonempty).
  pose proof (normalStack_plain _ _ Hstack) as Hsegs.
  assert (Hsegs' : Forall (fun seg => seg <> []
                                      /\ Forall (fun c => Path.isSlash c = false) seg)
                     (rev (seg :: stack))).
  { apply Forall_forall. intros x Hx.
    apply list_elem_of_In, in_rev, list_elem_of_In in Hx.
    rewrite Forall_forall in Hsegs. by apply Hsegs. }
  destruct (intercalate_ends _ Hrev Hsegs') as [Hhead _].
  destruct (Path.intercalate (js "/") (rev (seg :: stack))) as [|d body]; [done|].
  by rewrite app_nil_r.
Qed.

Lemma endsWith_app_last s u :
  u <> [] -> Str.endsWith (js "/") (s ++ u) = Str.endsWith (js "/") u.
Proof.
  intros Hu. unfold Str.endsWith. rewrite rev_app_distr.
  assert (Hrev : rev u <> []) by (by apply rev_nonempty).
  destruct (rev u) as [|c t]; [done|].
  change (rev (js "/")) with [Char.slash]. by cbn [app Str.startsWith].
Qed.

(** What [path.join] returns when its last argument is not empty and
    does not end with a slash. *)
Lemma join_normalPath (pre : list jsstring) final :
  final <> [] -> Str.endsWith (js "/") final = false ->
  normalPath (Path.join (pre ++ [final])).
Proof.
  intros Hne Hends. unfold Path.join. rewrite List.filter_app. cbn [List.filter].
  rewrite bool_decide_eq_false_2 by done. cbn [negb].
  set (parts := List.filter _ pre).
  destruct (parts ++ [final]) as [|x l] eqn:Hparts;
    [by apply app_eq_nil in Hparts as [_ ?]|].
  rewrite <- Hparts. rewrite intercalate_snoc. apply normalize_normalPath.
  - destruct parts; [done|]. intros Heq. apply app_eq_nil in Heq as [_ Heq].
    by apply app_eq_nil in Heq as [_ Heq].
  - destruct parts as [|y parts]; [done|].
    rewrite app_assoc. by rewrite endsWith_app_last.
Qed.

End NormalPathFacts.

(** ** The folder of an item *)

Section ItemFolderFacts.

Variable normalizeNFKD : jsstring -> jsstring.
Variable Date : Type.
Variable options : Exporter.ExportOptions Date.

Lemma slugChar_endsWith s :
  s <> [] -> Forall (fun c => Char.isSlugChar c = true) s ->
  Str.endsWith (js "/") s = false.
Proof.
  intros Hne Hall. unfold Str.endsWith.
  assert (Hrev : Forall (fun c => Char.isSlugChar c = true) (rev s)).
  { apply Forall_forall. intros c Hc. apply list_elem_of_In, in_rev, list_elem_of_In in Hc.
    rewrite Forall_forall in Hall. by apply Hall. }
  assert (Hne' : rev s <> []) by (by apply rev_nonempty).
  destruct (rev s) as [|c t]; [done|]. inversion Hrev as [|? ? Hc _]; subst.
  apply slugChar_not_slash in Hc. unfold Path.isSlash in Hc.
  change (rev (js "/")) with [Char.slash]. cbn [Str.startsWith].
  by rewrite N.eqb_sym, Hc.
Qed.

(** A slug is its key, a hyphen and the title part; it is not empty and
    does not end with a slash. *)
Lemma buildItemSlug_ends key title :
  Naming.buildItemSlug normalizeNFKD key title <> []
  /\ Str.endsWith (js "/") (Naming.buildItemSlug normalizeNFKD key title) = false.
Proof.
  unfold Naming.buildItemSlug. cbv zeta.
  set (titlePart := Str.orElse _ _).
  assert (Hpart : titlePart <> [] /\ Forall (fun c => Char.isSlugChar c = true) titlePart
                  /\ (length titlePart <= Naming.MAX_SLUG_LENGTH)%nat).
  { unfold titlePart.
    destruct (Naming.sanitizeSegment normalizeNFKD title) as [|c s] eqn:Hseg.
    - cbn [Str.orElse]. split; [done|]. split; [by repeat constructor|].
      cbn. unfold Naming.MAX_SLUG_LENGTH. lia.
    - cbn [Str.orElse]. rewrite <- Hseg. split; [by rewrite Hseg|].
      split; [apply sanitizeSegment_chars|apply sanitizeSegment_length]. }
  destruct Hpart as (Hne & Hchars & Hlen).
  rewrite take_ge by (rewrite !length_app; cbn [length js list_ascii_of_string List.map]; lia).
  split.
  - intros Heq. apply app_eq_nil in Heq as [_ Heq]. by apply app_eq_nil in Heq as [_ Heq].
  - rewrite app_assoc, endsWith_app_last by done. by apply slugChar_endsWith.
Qed.

(** X27. The folder whose existence is taken as the conflict is the
    directory in which the document is written. In the folder layouts,
    for every item and every output root, the directory of the markdown
    path (the one [exportItems] creates) is the item folder (the one it
    looks for before), and the document is [item.md] in it; in the flat
    layout there is no item folder and the markdown path itself is looked
    for. *)
Theorem item_folder_is_directory_of_document item :
  let outputPaths := Exporter.outputPathsOf normalizeNFKD Date options item in
  let existingTarget := Exporter.existingTargetOf normalizeNFKD Date options item in
  match Exporter.layoutMode Date options with
  | Flat =>
      Naming.itemFolder outputPaths = None
      /\ existingTarget = Naming.markdownPath outputPaths
  | _ =>
      Naming.itemFolder outputPaths = Some existingTarget
      /\ Path.dirname (Naming.markdownPath outputPaths) = existingTarget
      /\ Path.basename (Naming.markdownPath outputPaths) = js "item.md"
      /\ Naming.flatPrefix outputPaths = None
  end.
Proof.
  cbv zeta. unfold Exporter.existingTargetOf, Exporter.outputPathsOf.
  destruct (buildItemSlug_ends (key item) (title item)) as [Hne Hends].
  set (slug := Naming.buildItemSlug normalizeNFKD (key item) (title item)) in *.
  assert (Hitem : Path.plainName (js "item.md")) by (by repeat split; repeat constructor).
  unfold Naming.resolveItemOutputPaths.
  destruct (Exporter.layoutMode Date options); cbv zeta;
    cbn [Naming.itemFolder Naming.markdownPath Naming.flatPrefix from_option id].
  - split; [done|]. split; [|split; [|done]].
    + apply dirname_join_normal; [|done].
      apply (join_normalPath [Exporter.outputRootPath Date options] slug Hne Hends).
    + by apply basename_join_plain.
  - done.
  - split; [done|]. split; [|split; [|done]].
    + apply dirname_join_normal; [|done].
      apply (join_normalPath [Exporter.outputRootPath Date options; _] slug Hne Hends).
    + by apply basename_join_plain.
Qed.

Lemma join_last (pre : list jsstring) b :
  b <> [] ->
  Path.join (pre ++ [b])
  = Path.join [Path.intercalate (js "/")
                 (List.filter (fun a => negb (bool_decide (a = []))) pre); b].
Proof.
  intros Hb. unfold Path.join. rewrite List.filter_app. cbn [List.filter].
  rewrite (bool_decide_eq_false_2 (b = [])) by done. cbn [negb].
  set (parts := List.filter _ pre).
  assert (Hparts : Forall (fun a => a <> []) parts).
  { unfold parts. apply Forall_forall. intros a Ha.
    apply elem_of_List_filter in Ha as [_ Ha]. by apply negb_true_iff, bool_decide_eq_false in Ha. }
  destruct parts as [|x parts].
  - cbn [app Path.intercalate]. by rewrite bool_decide_eq_true_2.
  - assert (Hne : Path.intercalate (js "/") (x :: parts) <> []).
    { inversion Hparts as [|? ? Hx _]; subst. destruct parts; [done|].
      cbn [Path.intercalate]. intros Heq. by apply app_eq_nil in Heq as [? _]. }
    rewrite bool_decide_eq_false_2 by done. cbn [negb].
    change (match (x :: parts) ++ [b] with
            | [] => js "."
            | l :: l0 => Path.normalize (Path.intercalate (js "/") (l :: l0))
            end)
      with (Path.normalize (Path.intercalate (js "/") ((x :: parts) ++ [b]))).
    by rewrite intercalate_snoc.
Qed.

Lemma basename_join_last (pre : list jsstring) b :
  Path.plainName b -> Path.basename (Path.join (pre ++ [b])) = b.
Proof.
  intros Hb. pose proof Hb as (Hne & _). rewrite join_last by done.
  by apply basename_join_plain.
Qed.

(** A name that holds a hyphen between a part without a slash and a part
    of letters, digits, dots, underscores and hyphens is a plain file
    name. *)
Lemma hyphenated_plainName front back :
  Forall (fun c => Path.isSlash c = false) front ->
  Forall (fun c => Char.isSlugChar c = true) back ->
  Path.plainName (front ++ js "-" ++ back).
Proof.
  intros Hfront Hback.
  assert (Hhyphen : Char.hyphen ∈ front ++ js "-" ++ back).
  { apply elem_of_app. right. apply list_elem_of_here. }
  split; [|split; [|split]].
  - intros Heq. rewrite Heq in Hhyphen. by apply elem_of_nil in Hhyphen.
  - apply Forall_app. split; [done|]. constructor; [done|].
    eapply Forall_impl; [exact Hback|]. apply slugChar_not_slash.
  - intros Heq. rewrite Heq in Hhyphen.
    apply elem_of_cons in Hhyphen as [?|Hhyphen]; [done|]. by apply elem_of_nil in Hhyphen.
  - intros Heq. rewrite Heq in Hhyphen.
    apply elem_of_cons in Hhyphen as [?|Hhyphen]; [done|].
    apply elem_of_cons in Hhyphen as [?|Hhyphen]; [done|]. by apply elem_of_nil in Hhyphen.
Qed.

(** X29. For an item whose key holds no slash, the slug is a plain file
    name, and the target of the item is named after it: the item folder
    is the entry [slug] of its parent directory in the folder layouts,
    the document the entry [slug.md] in the flat layout, whatever the
    title and the year of the item. *)
Theorem item_target_is_named_by_slug item :
  Forall (fun c => Path.isSlash c = false) (key item) ->
  Path.plainName (Naming.buildItemSlug normalizeNFKD (key item) (title item))
  /\ Path.basename (Exporter.existingTargetOf normalizeNFKD Date options item)
     = match Exporter.layoutMode Date options with
       | Flat => Naming.buildItemSlug normalizeNFKD (key item) (title item) ++ js ".md"
       | _ => Naming.buildItemSlug normalizeNFKD (key item) (title item)
       end.
Proof.
  intros Hkey.
  assert (Hslug : exists titlePart,
             Naming.buildItemSlug normalizeNFKD (key item) (title item)
             = key item ++ js "-" ++ titlePart
             /\ Forall (fun c => Char.isSlugChar c = true) titlePart).
  { unfold Naming.buildItemSlug. cbv zeta. set (titlePart := Str.orElse _ _).
    assert (Hpart : Forall (fun c => Char.isSlugChar c = true) titlePart
                    /\ (length titlePart <= Naming.MAX_SLUG_LENGTH)%nat).
    { unfold titlePart.
      destruct (Naming.sanitizeSegment normalizeNFKD (title item)) as [|c s] eqn:Hseg.
      - cbn [Str.orElse]. split; [by repeat constructor|].
        cbn. unfold Naming.MAX_SLUG_LENGTH. lia.
      - cbn [Str.orElse]. rewrite <- Hseg.
        split; [apply sanitizeSegment_chars|apply sanitizeSegment_length]. }
    destruct Hpart as [Hchars Hlen]. exists titlePart. split; [|done].
    apply take_ge. rewrite !length_app. cbn [length js list_ascii_of_string List.map]. lia. }
  destruct Hslug as (titlePart & Hslug & Hchars).
  assert (Hplain : Path.plainName (Naming.buildItemSlug normalizeNFKD (key item) (title item))).
  { rewrite Hslug. by apply hyphenated_plainName. }
  split; [done|].
  unfold Exporter.existingTargetOf, Exporter.outputPathsOf, Naming.resolveItemOutputPaths.
  destruct (Exporter.layoutMode Date options); cbv zeta;
    cbn [Naming.itemFolder Naming.markdownPath from_option id].
  - by apply (basename_join_last [_]).
  - apply (basename_join_last [_]). rewrite Hslug, <- !app_assoc.
    apply hyphenated_plainName; [done|]. apply Forall_app. split; [done|].
    by repeat constructor.
  - by apply (basename_join_last [_; _]).
Qed.

End ItemFolderFacts.

Lemma mirrored_folders_hold_the_items_of_the_single_folder_witness :
  exists fuel fuel' itemIds descendantIds,
    CollectionQueries.collectionItemIds fuel Samples.testDb 100 = Some itemIds
    /\ Collections.getDescendantCollectionIds fuel' 100
         (CollectionQueries.getCollectionsForLibrary Samples.testDb 1) = Some descendantIds
    /\ NoDup itemIds
    /\ forall x,
        x ∈ itemIds
        <-> exists collectionId,
            collectionId ∈ descendantIds
            /\ x ∈ CollectionQueries.directItemIds Samples.testDb collectionId.
Proof.
  apply (mirrored_folders_hold_the_items_of_the_single_folder Samples.testDb 1 100
           CollectionSamples.testRank).
  - intros row parent Hrow Hparent. unfold Samples.testDb in Hrow. cbn [Db.collections] in Hrow.
    apply elem_of_cons in Hrow as [->|Hrow]; [done|].
    apply elem_of_cons in Hrow as [->|Hrow].
    { injection Hparent as <-. vm_compute. lia. }
    by apply elem_of_nil in Hrow.
  - intros row parent Hrow _ _. unfold Samples.testDb in Hrow. cbn [Db.collections] in Hrow.
    apply elem_of_cons in Hrow as [->|Hrow]; [done|].
    apply elem_of_cons in Hrow as [->|Hrow]; [done|].
    by apply elem_of_nil in Hrow.
Defined.

Lemma item_target_is_named_by_slug_witness :
  Forall (fun c => Path.isSlash c = false) (key Samples.bareItem)
  /\ Exporter.existingTargetOf (fun s => s) unit (Samples.fixedOptions YearItem Skip)
       Samples.bareItem
     = js "/out/unknown-year/ITEM2KEY-Group-Library-Paper"
  /\ Path.basename
       (Exporter.existingTargetOf (fun s => s) unit (Samples.fixedOptions YearItem Skip)
          Samples.bareItem)
     = js "ITEM2KEY-Group-Library-Paper".
Proof.
  assert (Hkey : Forall (fun c => Path.isSlash c = false) (key Samples.bareItem))
    by (by repeat constructor).
  split; [exact Hkey|]. split; [by vm_compute|].
  destruct (item_target_is_named_by_slug (fun s => s) unit
              (Samples.fixedOptions YearItem Skip) Samples.bareItem Hkey) as [_ Hbase].
  rewrite Hbase. by vm_compute.
Defined.
